(** * Byte-pair encoding tokenizer (bpe.cpp): model and verified properties

    The development embeds [src/bpe.cpp] function by function.  Index
    loops of the source are kept as loops over an explicit loop state;
    every loop is then related to a structurally recursive description
    that the theorems use.

    - [std::vector<int>] is [list Z]; an index outside the vector is
      undefined behaviour in the source and the outcome [Fault OutOfBounds]
      here.
    - [size_t] values are [Z] with the wrap-around of unsigned subtraction
      written out ([size_t_sub]); the additions [i + 1] and [i + 2] on an
      index stay within two of the size of a vector and are written
      without it.
    - [int] values are [Z]; the increment of an [int] holding [INT_MAX] is
      undefined behaviour in the source and [Fault SignedOverflow] here.
    - [std::string] is [list ascii] (a sequence of bytes).
    - [std::unordered_map] is a [gmap]; [operator[]] inserts a
      value-initialised entry for an absent key ([index_or_insert]).  The
      order in which the source iterates over such a table is
      implementation defined and is a parameter ([UnorderedIteration]).
    - Output to [std::cout] is left out of the member functions, except
      that [train] returns the lines of its verbose log; the parameter
      [encoding] of [string_to_byte], which the source does not use, is
      dropped.
    - [std::regex] is library code.  [encode] is modelled twice: once with
      the fragment of the patterns that the file reads in detail
      ([encode]), and once with the library as a parameter
      ([encode_with], [RegexLibrary]) for what holds whatever the special
      tokens are; the first is the second for the library
      [fragment_regex].
    - [main] runs on the contents of [data.txt] and of standard input;
      what it prints is a list of events, one for each message of the
      source, without the formatting. *)

From Stdlib Require Import ZArith Ascii String.
From stdpp Require Import gmap strings list fin_maps.

Open Scope Z_scope.

(** ** Outcomes *)

Inductive fault : Type :=
| OutOfBounds       (* operator[] of a vector past its size *)
| SignedOverflow    (* ++ on an int equal to INT_MAX *)
| InvalidArgument   (* std::invalid_argument thrown by the constructor *)
| RegexUnsupported  (* the pattern is outside the modelled regex fragment *)
| OutOfFuel.        (* the bound given to a loop of the model was too small *)

Inductive result (A : Type) : Type :=
| Done (a : A)
| Fault (e : fault).
Arguments Done {A} a.
Arguments Fault {A} e.

#[global] Instance result_ret : MRet result := @Done.
#[global] Instance result_bind : MBind result := λ A B k r,
  match r with
  | Done a => k a
  | Fault e => Fault e
  end.

(** ** Loops

    A loop body either asks for the next iteration or leaves the loop
    ([break]).  The bound [fuel] makes the loop a structural recursion; for
    every loop of the program a bound that is never reached is proved
    below ([merge_pair_spec], [train_fuel], [encode_fuel]). *)

Inductive ctl (St : Type) : Type :=
| Next (s : St)
| Break (s : St).
Arguments Next {St} s.
Arguments Break {St} s.

Fixpoint while_loop {St} (fuel : nat) (cond : St → bool)
    (body : St → result (ctl St)) (s : St) : result St :=
  if cond s then
    match fuel with
    | O => Fault OutOfFuel
    | S fuel' =>
        match body s with
        | Done (Next s') => while_loop fuel' cond body s'
        | Done (Break s') => Done s'
        | Fault e => Fault e
        end
    end
  else Done s.

(** ** Machine integers and vectors *)

Definition INT_MAX : Z := 2 ^ 31 - 1.

(** [x++] on an [int]. *)
Definition int_incr (x : Z) : result Z :=
  if x <? INT_MAX then Done (x + 1) else Fault SignedOverflow.

(** [a - b] on [size_t] operands. *)
Definition size_t_sub (a b : Z) : Z :=
  if b <=? a then a - b else a - b + 2 ^ 64.

Definition size {A} (v : list A) : Z := Z.of_nat (length v).

(** [v[i]] for a vector [v] and a [size_t] index [i]. *)
Definition vec_at (v : list Z) (i : Z) : result Z :=
  if 0 <=? i then
    match v !! Z.to_nat i with
    | Some x => Done x
    | None => Fault OutOfBounds
    end
  else Fault OutOfBounds.

(** ** Strings *)

Abbreviation std_string := (list ascii).

Definition str (s : string) : std_string := list_ascii_of_string s.

(** [static_cast<int>(c)] for an [unsigned char c]. *)
Definition byte_to_int (c : ascii) : Z := Z.of_nat (nat_of_ascii c).

(** [static_cast<char>(i)]. *)
Definition int_to_byte (i : Z) : ascii := ascii_of_nat (Z.to_nat (i mod 256)).

Definition string_to_byte (input : std_string) : list Z :=
  map byte_to_int input.

(** ** merge_pair *)

Definition merge_pair_cond (indices : list Z) (s : list Z * Z) : bool :=
  snd s <? size indices.

Definition merge_pair_body (indices : list Z) (pair : Z * Z) (new_index : Z)
    (s : list Z * Z) : result (ctl (list Z * Z)) :=
  let '(merged, i) := s in
  if i <? size_t_sub (size indices) 1 then
    a ← vec_at indices i;
    b ← vec_at indices (i + 1);
    if decide ((a, b) = pair)
    then Done (Next (merged ++ [new_index], i + 2))
    else Done (Next (merged ++ [a], i + 1))
  else
    a ← vec_at indices i;
    Done (Next (merged ++ [a], i + 1)).

Definition merge_pair (indices : list Z) (pair : Z * Z) (new_index : Z)
    : result (list Z) :=
  s ← while_loop (length indices) (merge_pair_cond indices)
        (merge_pair_body indices pair new_index) ([], 0);
  Done (fst s).

(** The rewrite as the specification words it: scanning from the start,
    where the current pair is the selected pair emit the new ID and advance
    two positions, otherwise emit the current ID and advance one. *)
Fixpoint rewrite_spec (pair : Z * Z) (new_index : Z) (l : list Z) : list Z :=
  match l with
  | [] => []
  | a :: t =>
      match t with
      | [] => [a]
      | b :: r =>
          if decide ((a, b) = pair)
          then new_index :: rewrite_spec pair new_index r
          else a :: rewrite_spec pair new_index t
      end
  end.

(** ** Iteration over unordered tables

    The source iterates over [std::unordered_map] tables in two places: the
    [std::max_element] of [most_frequent_pair] and the loop of [encode] that
    builds the pattern of the special tokens.  The order of such an
    iteration is implementation defined; here it is any rearrangement of
    the entries of the table. *)

Class UnorderedIteration : Type := {
  iter_counts : list (Z * Z * Z) → list (Z * Z * Z);
  iter_counts_perm : ∀ l, iter_counts l ≡ₚ l;
  iter_specials : list (std_string * Z) → list (std_string * Z);
  iter_specials_perm : ∀ l, iter_specials l ≡ₚ l
}.

(** One admissible order, used to run the model on concrete inputs. *)
Definition listing_order : UnorderedIteration := {|
  iter_counts l := l;
  iter_counts_perm l := reflexivity l;
  iter_specials l := l;
  iter_specials_perm l := reflexivity l
|}.

(** ** most_frequent_pair *)

Definition count_cond (indices : list Z) (s : gmap (Z * Z) Z * Z) : bool :=
  snd s <? size_t_sub (size indices) 1.

(** [counts[{indices[i], indices[i + 1]}]++] *)
Definition count_body (indices : list Z) (s : gmap (Z * Z) Z * Z)
    : result (ctl (gmap (Z * Z) Z * Z)) :=
  let '(counts, i) := s in
  a ← vec_at indices i;
  b ← vec_at indices (i + 1);
  c ← int_incr (default 0 (counts !! (a, b)));
  Done (Next (<[(a, b) := c]> counts, i + 1)).

(** [std::max_element] with the comparator [p1.second < p2.second]: the
    first entry, in iteration order, that no later entry exceeds. *)
Definition max_element (x : Z * Z * Z) (l : list (Z * Z * Z)) : Z * Z * Z :=
  foldl (λ largest y, if snd largest <? snd y then y else largest) x l.

(** [counts.empty()] is the emptiness of the iteration over [counts]. *)
Definition most_frequent_pair `{UnorderedIteration} (indices : list Z)
    : result (Z * Z * Z) :=
  s ← while_loop (S (length indices)) (count_cond indices)
        (count_body indices) (∅, 0);
  match iter_counts (map_to_list (fst s)) with
  | [] => Done ((-1, -1), 0)
  | x :: l => Done (max_element x l)
  end.

(** ** The tokenizer object *)

Record BPETokenizer : Type := {
  max_vocab_size : Z;
  pairs : gmap (Z * Z) Z;
  id_to_token : gmap Z std_string;
  next_id : Z;
  special_to_id : gmap std_string Z;
  id_to_special : gmap Z std_string
}.

Definition set_pairs (f : gmap (Z * Z) Z → gmap (Z * Z) Z) (t : BPETokenizer) :=
  {| max_vocab_size := max_vocab_size t; pairs := f (pairs t);
     id_to_token := id_to_token t; next_id := next_id t;
     special_to_id := special_to_id t; id_to_special := id_to_special t |}.

Definition set_id_to_token (f : gmap Z std_string → gmap Z std_string)
    (t : BPETokenizer) :=
  {| max_vocab_size := max_vocab_size t; pairs := pairs t;
     id_to_token := f (id_to_token t); next_id := next_id t;
     special_to_id := special_to_id t; id_to_special := id_to_special t |}.

Definition set_next_id (n : Z) (t : BPETokenizer) :=
  {| max_vocab_size := max_vocab_size t; pairs := pairs t;
     id_to_token := id_to_token t; next_id := n;
     special_to_id := special_to_id t; id_to_special := id_to_special t |}.

Definition set_special_to_id (f : gmap std_string Z → gmap std_string Z)
    (t : BPETokenizer) :=
  {| max_vocab_size := max_vocab_size t; pairs := pairs t;
     id_to_token := id_to_token t; next_id := next_id t;
     special_to_id := f (special_to_id t); id_to_special := id_to_special t |}.

Definition set_id_to_special (f : gmap Z std_string → gmap Z std_string)
    (t : BPETokenizer) :=
  {| max_vocab_size := max_vocab_size t; pairs := pairs t;
     id_to_token := id_to_token t; next_id := next_id t;
     special_to_id := special_to_id t; id_to_special := f (id_to_special t) |}.

(** Member functions run on the object: a state and error monad. *)
Definition M (A : Type) : Type := BPETokenizer → result (A * BPETokenizer).

#[global] Instance M_ret : MRet M := λ A a t, Done (a, t).
#[global] Instance M_bind : MBind M := λ A B k m t,
  match m t with
  | Done (a, t') => k a t'
  | Fault e => Fault e
  end.

Definition gets {A} (f : BPETokenizer → A) : M A := λ t, Done (f t, t).
Definition modify (f : BPETokenizer → BPETokenizer) : M unit :=
  λ t, Done (tt, f t).
Definition lift {A} (r : result A) : M A :=
  λ t, match r with Done a => Done (a, t) | Fault e => Fault e end.

(** [m[k]] used as a value: [operator[]] of an unordered map inserts a
    value-initialised entry when the key is absent. *)
Definition index_or_insert `{Countable K} {V} (dflt : V) (k : K)
    (m : gmap K V) : V * gmap K V :=
  match m !! k with
  | Some v => (v, m)
  | None => (dflt, <[k := dflt]> m)
  end.

Definition pairs_index (k : Z * Z) : M Z := λ t,
  let '(v, m) := index_or_insert 0 k (pairs t) in
  Done (v, set_pairs (λ _, m) t).

Definition id_to_token_index (k : Z) : M std_string := λ t,
  let '(v, m) := index_or_insert [] k (id_to_token t) in
  Done (v, set_id_to_token (λ _, m) t).

Definition special_to_id_index (k : std_string) : M Z := λ t,
  let '(v, m) := index_or_insert 0 k (special_to_id t) in
  Done (v, set_special_to_id (λ _, m) t).

Definition id_to_special_index (k : Z) : M std_string := λ t,
  let '(v, m) := index_or_insert [] k (id_to_special t) in
  Done (v, set_id_to_special (λ _, m) t).

(** A loop of a member function: the loop state is the local variables
    together with the object. *)
Definition while_M {L} (fuel : nat) (cond : L → BPETokenizer → bool)
    (body : L → M (ctl L)) (l : L) : M L :=
  while_loop fuel (λ s, cond (fst s) (snd s))
    (λ s, match body (fst s) (snd s) with
          | Done (Next l', t') => Done (Next (l', t'))
          | Done (Break l', t') => Done (Break (l', t'))
          | Fault e => Fault e
          end)
    ∘ pair l.

(** [do body while (cond)]: the body once, then the [while] loop. *)
Definition do_while_M {L} (fuel : nat) (cond : L → BPETokenizer → bool)
    (body : L → M (ctl L)) (l : L) : M L :=
  c ← body l;
  match c with
  | Next l' => while_M fuel cond body l'
  | Break l' => mret l'
  end.

(** A range-based [for] over a sequence, threading the locals [acc]. *)
Fixpoint for_each {A L} (body : L → A → M L) (acc : L) (l : list A) : M L :=
  match l with
  | [] => mret acc
  | x :: l' => acc' ← body acc x; for_each body acc' l'
  end.

(** ** Constructor, reset, vocab_size, register_special_token *)

Definition vocab_size (t : BPETokenizer) : Z := next_id t.

Definition reset (max : Z) : BPETokenizer :=
  {| max_vocab_size := max;
     pairs := ∅;
     id_to_token :=
       foldl (λ m i, <[Z.of_nat i := [int_to_byte (Z.of_nat i)]]> m) ∅ (seq 0 256);
     next_id := 256;
     special_to_id := ∅;
     id_to_special := ∅ |}.

Definition construct (max : Z) : result BPETokenizer :=
  if max <=? 256 then Fault InvalidArgument else Done (reset max).

Definition register_special_token (token : std_string) : M unit :=
  found ← gets (λ t, bool_decide (is_Some (special_to_id t !! token)));
  if found : bool then mret tt
  else
    n ← gets next_id;
    modify (set_special_to_id <[token := n]>);;
    n ← gets next_id;
    modify (set_id_to_special <[n := token]>);;
    n ← gets next_id;
    n' ← lift (int_incr n);
    modify (set_next_id n').

(** ** train *)

(** A line of the verbose log: the merged pair, the new ID, its token. *)
Abbreviation merge_event := ((Z * Z) * Z * std_string)%type.

Definition train_cond (l : list Z * list merge_event) (t : BPETokenizer) : bool :=
  vocab_size t <? max_vocab_size t.

Definition train_body `{UnorderedIteration} (stop_early : bool)
    (l : list Z * list merge_event) : M (ctl (list Z * list merge_event)) :=
  let '(indices, log) := l in
  '(pr, count) ← lift (most_frequent_pair indices);
  if bool_decide (pr.1 = -1 ∧ pr.2 = -1) then mret (Break (indices, log))
  else if stop_early && (count =? 1) then mret (Break (indices, log))
  else
    n ← gets next_id;
    indices' ← lift (merge_pair indices pr n);
    ta ← id_to_token_index pr.1;
    tb ← id_to_token_index pr.2;
    let new_token := ta ++ tb in
    n ← gets next_id;
    modify (set_pairs <[pr := n]>);;
    n ← gets next_id;
    modify (set_id_to_token <[n := new_token]>);;
    n ← gets next_id;
    n' ← lift (int_incr n);
    modify (set_next_id n');;
    mret (Next (indices', log ++ [(pr, n, new_token)])).

(** [train] returns the lines of its verbose log. Every iteration of its
    loop increments [next_id], so the loop runs at most
    [max_vocab_size - next_id] times. *)
Definition train `{UnorderedIteration} (input : std_string) (stop_early : bool)
    : M (list merge_event) := λ t,
  (l ← while_M (Z.to_nat (max_vocab_size t - next_id t)) train_cond
         (train_body stop_early) (string_to_byte input, []);
   mret (snd l)) t.

(** ** _encode_non_special *)

(** [indices[i] = x] *)
Definition vec_set (v : list Z) (i : Z) (x : Z) : result (list Z) :=
  if (0 <=? i) && (i <? size v) then Done (<[Z.to_nat i := x]> v)
  else Fault OutOfBounds.

(** [indices.erase(indices.begin() + i)] *)
Definition vec_erase (v : list Z) (i : Z) : result (list Z) :=
  if (0 <=? i) && (i <? size v) then Done (delete (Z.to_nat i) v)
  else Fault OutOfBounds.

(** Locals of the inner [for] loop: [indices], [i] and [changes_made]. *)
Definition pass_cond (l : list Z * Z * bool) (t : BPETokenizer) : bool :=
  l.1.2 <? size_t_sub (size l.1.1) 1.

Definition pass_body (l : list Z * Z * bool) : M (ctl (list Z * Z * bool)) :=
  let '(indices, i, changes_made) := l in
  a ← lift (vec_at indices i);
  b ← lift (vec_at indices (i + 1));
  found ← gets (λ t, bool_decide (is_Some (pairs t !! (a, b))));
  if found : bool then
    v ← pairs_index (a, b);
    indices ← lift (vec_set indices i v);
    indices ← lift (vec_erase indices (i + 1));
    mret (Next (indices, i + 1, true))
  else mret (Next (indices, i + 1, changes_made)).

(** The body of the [do ... while (changes_made)] loop: one full pass.
    A pass looks at fewer positions than the sequence has elements, except
    on the empty sequence, where the first look is already out of
    bounds. *)
Definition encode_pass (l : list Z * bool) : M (ctl (list Z * bool)) :=
  let '(indices, _) := l in
  r ← while_M (S (length indices)) pass_cond pass_body (indices, 0, false);
  mret (Next (r.1.1, r.2)).

(** Every pass but the last one shortens the sequence, so the loop runs
    its body again at most [length] times. *)
Definition _encode_non_special (input : std_string) : M (list Z) :=
  let indices := string_to_byte input in
  l ← do_while_M (length indices) (λ l _, snd l) encode_pass (indices, false);
  mret (fst l).

(** ** The pattern of the special tokens

    [std::regex] is library code.  The pattern that [encode] builds is an
    alternation of literals in which the characters of the class
    [[.^$*+?()[\]{}|]] are escaped; [regex_compile] reads back exactly this
    fragment of the ECMAScript grammar (a group of non-empty alternatives
    made of ordinary characters and identity escapes) and reports
    [RegexUnsupported] for every other pattern. *)

Definition regex_syntax_chars : std_string := str "^$\.*+?()[]{}|".
Definition escaped_class : std_string := str ".^$*+?()[]{}|".
Definition backslash : ascii := "\"%char.

(** [std::regex_replace(token, std::regex("[.^$*+?()[\\]{}|]"), "\\$&")] *)
Definition escape (token : std_string) : std_string :=
  c ← token; if bool_decide (c ∈ escaped_class) then [backslash; c] else [c].

Definition build_pattern (tokens : list std_string) : std_string :=
  foldl (λ pattern token,
           (if 1 <? size pattern then pattern ++ str "|" else pattern)
             ++ escape token)
        (str "(") tokens
  ++ str ")".

(** The alternatives after the opening parenthesis; [cur] is the
    alternative being read. *)
Fixpoint parse_alternatives (cur : std_string) (p : std_string)
    : option (list std_string) :=
  match p with
  | [] => None
  | c :: p' =>
      if bool_decide (c = backslash) then
        match p' with
        | d :: p'' =>
            if bool_decide (d ∈ regex_syntax_chars)
            then parse_alternatives (cur ++ [d]) p''
            else None
        | [] => None
        end
      else if bool_decide (c = "|"%char) then
        if bool_decide (cur = []) then None
        else (cur ::.) <$> parse_alternatives [] p'
      else if bool_decide (c = ")"%char) then
        if bool_decide (cur = []) then None
        else match p' with [] => Some [cur] | _ => None end
      else if bool_decide (c ∈ regex_syntax_chars) then None
      else parse_alternatives (cur ++ [c]) p'
  end.

Definition regex_compile (pattern : std_string) : result (list std_string) :=
  match pattern with
  | c :: p =>
      if bool_decide (c = "("%char) then
        match parse_alternatives [] p with
        | Some alts => Done alts
        | None => Fault RegexUnsupported
        end
      else Fault RegexUnsupported
  | [] => Fault RegexUnsupported
  end.

(** The first alternative, in the order of the pattern, that matches at
    the start of [s]. *)
Fixpoint match_here (alts : list std_string) (s : std_string)
    : option (std_string * std_string) :=
  match alts with
  | [] => None
  | a :: alts' =>
      if bool_decide (take (length a) s = a) then Some (a, drop (length a) s)
      else match_here alts' s
  end.

(** [std::regex_search]: the leftmost match; the result is the text before
    the match, the match, and the text after it. *)
Fixpoint regex_search (alts : list std_string) (s : std_string)
    : option (std_string * std_string * std_string) :=
  match match_here alts s with
  | Some (m, rest) => Some ([], m, rest)
  | None =>
      match s with
      | [] => None
      | c :: s' =>
          '(pre, m, rest) ← regex_search alts s';
          Some (c :: pre, m, rest)
      end
  end.

(** [std::sregex_token_iterator] with the submatches [{-1, 0}]: for every
    match the text between the previous match and this one (empty or not)
    and then the match itself; after the last match the rest of the input
    if it is not empty; the whole input if there is no match at all. *)
Fixpoint token_iterator (fuel : nat) (alts : list std_string) (first : bool)
    (s : std_string) : result (list std_string) :=
  match regex_search alts s with
  | None =>
      if first || bool_decide (s ≠ []) then Done [s] else Done []
  | Some (pre, m, rest) =>
      match fuel with
      | O => Fault OutOfFuel
      | S fuel' =>
          l ← token_iterator fuel' alts false rest;
          Done (pre :: m :: l)
      end
  end.

(** ** encode and decode *)

Definition encode_split (indices : list Z) (split : std_string) : M (list Z) :=
  found ← gets (λ t, bool_decide (is_Some (special_to_id t !! split)));
  if found : bool then
    id ← special_to_id_index split;
    mret (indices ++ [id])
  else
    non_special_indices ← _encode_non_special split;
    mret (indices ++ non_special_indices).

Definition encode `{UnorderedIteration} (input : std_string) : M (list Z) :=
  no_special ← gets (λ t, bool_decide (special_to_id t = ∅));
  if no_special : bool then _encode_non_special input
  else
    tokens ← gets (λ t, (iter_specials (map_to_list (special_to_id t))).*1);
    special_pattern ← lift (regex_compile (build_pattern tokens));
    splits ← lift (token_iterator (S (length input)) special_pattern true input);
    for_each encode_split [] splits.

(** [encode] with the regex library as a parameter.  A special token
    that is empty or holds a backslash gives a pattern outside the fragment
    that [regex_compile] reads, and [std::regex] accepts many of those
    patterns.  What [encode] needs of the library is the constructor of
    [std::regex], which may throw, and the pieces that
    [std::sregex_token_iterator] yields for the submatches [{-1, 0}]. *)
Class RegexLibrary : Type := {
  regex : Type;
  regex_construct : std_string → result regex;
  regex_tokens : regex → std_string → result (list std_string)
}.

Definition encode_with `{UnorderedIteration} `{RegexLibrary}
    (input : std_string) : M (list Z) :=
  no_special ← gets (λ t, bool_decide (special_to_id t = ∅));
  if no_special : bool then _encode_non_special input
  else
    tokens ← gets (λ t, (iter_specials (map_to_list (special_to_id t))).*1);
    special_pattern ← lift (regex_construct (build_pattern tokens));
    splits ← lift (regex_tokens special_pattern input);
    for_each encode_split [] splits.

(** The library of [encode]: the fragment read by [regex_compile]. *)
Definition fragment_regex : RegexLibrary := {|
  regex := list std_string;
  regex_construct := regex_compile;
  regex_tokens special_pattern input :=
    token_iterator (S (length input)) special_pattern true input
|}.

Definition decode_id (decoded : std_string) (id : Z) : M std_string :=
  found ← gets (λ t, bool_decide (is_Some (id_to_special t !! id)));
  if found : bool then
    s ← id_to_special_index id;
    mret (decoded ++ s)
  else
    s ← id_to_token_index id;
    mret (decoded ++ s).

Definition decode (indices : list Z) : M std_string :=
  for_each decode_id [] indices.

(** ** Descriptions used by the theorems *)

(** The text that [decode] emits for one ID: the special token if the ID
    has one, else the entry of [id_to_token], else nothing. *)
Definition token_text (t : BPETokenizer) (id : Z) : std_string :=
  match id_to_special t !! id with
  | Some s => s
  | None => default [] (id_to_token t !! id)
  end.

(** The object after [decode] has looked up [id]: [operator[]] leaves an
    empty entry in [id_to_token] for an ID that is in neither table. *)
Definition decode_touch (t : BPETokenizer) (id : Z) : BPETokenizer :=
  match id_to_special t !! id, id_to_token t !! id with
  | None, None => set_id_to_token <[id := []]> t
  | _, _ => t
  end.

(** The pairs of neighbours of a sequence, from left to right. *)
Fixpoint adjacent_pairs (l : list Z) : list (Z * Z) :=
  match l with
  | [] => []
  | a :: t =>
      match t with
      | [] => []
      | b :: _ => (a, b) :: adjacent_pairs t
      end
  end.

(** The object after [id_to_token[id]] has been read. *)
Definition token_touch (id : Z) (t : BPETokenizer) : BPETokenizer :=
  match id_to_token t !! id with
  | Some _ => t
  | None => set_id_to_token <[id := []]> t
  end.

Definition token_or_empty (t : BPETokenizer) (id : Z) : std_string :=
  default [] (id_to_token t !! id).

(** The object after one accepted merge of the pair [p] in [train]. *)
Definition merged_state (p : Z * Z) (t : BPETokenizer) : BPETokenizer :=
  set_next_id (next_id t + 1)
    (set_id_to_token
       <[next_id t := token_or_empty t p.1 ++ token_or_empty t p.2]>
       (set_pairs <[p := next_id t]> (token_touch p.2 (token_touch p.1 t)))).

(** The merge table after the merges of a log have been recorded in
    order. *)
Definition record_merges (m : gmap (Z * Z) Z) (log : list merge_event)
    : gmap (Z * Z) Z :=
  foldl (λ m e, <[e.1.1 := e.1.2]> m) m log.

(** One pass of the encoder as the specification words it: from left to
    right, a pair of neighbours that is a key of the merge table is replaced
    by its ID and the scan goes on behind the pair; the flag tells whether
    the pass replaced anything. *)
Fixpoint merge_pass (m : gmap (Z * Z) Z) (l : list Z) : list Z * bool :=
  match l with
  | [] => ([], false)
  | a :: t =>
      match t with
      | [] => ([a], false)
      | b :: r =>
          match m !! (a, b) with
          | Some v => (v :: (merge_pass m r).1, true)
          | None => (a :: (merge_pass m t).1, (merge_pass m t).2)
          end
      end
  end.

(** [passes m l l']: [l'] comes from [l] by passes that each replaced
    something. *)
Inductive passes (m : gmap (Z * Z) Z) : list Z → list Z → Prop :=
| passes_refl l : passes m l l
| passes_step l l' l'' :
    merge_pass m l = (l', true) → passes m l' l'' → passes m l l''.

(** ** Well-formed objects

    What the constructor establishes and every member function keeps. *)

Record wf (t : BPETokenizer) : Prop := {
  wf_next_id : 256 ≤ next_id t;
  wf_bytes : ∀ c : ascii, id_to_token t !! byte_to_int c = Some [c];
  wf_special_ids : ∀ id s, id_to_special t !! id = Some s → 256 ≤ id < next_id t;
  wf_special_inverse :
    ∀ token id, special_to_id t !! token = Some id →
                id_to_special t !! id = Some token;
  wf_pairs :
    ∀ a b v, pairs t !! (a, b) = Some v →
      a < next_id t ∧ b < next_id t ∧ v < next_id t ∧
      id_to_special t !! a = None ∧ id_to_special t !! b = None ∧
      id_to_special t !! v = None ∧
      ∃ ta tb, id_to_token t !! a = Some ta ∧ id_to_token t !! b = Some tb ∧
               id_to_token t !! v = Some (ta ++ tb)
}.

(** The objects that a program can build with the public member
    functions. *)
Inductive reachable `{UnorderedIteration} : BPETokenizer → Prop :=
| reach_construct max t :
    construct max = Done t → reachable t
| reach_reset t :
    reachable t → reachable (reset (max_vocab_size t))
| reach_register token t t' :
    reachable t → register_special_token token t = Done (tt, t') →
    reachable t'
| reach_train input stop_early t log t' :
    reachable t → train input stop_early t = Done (log, t') → reachable t'
| reach_encode input t ids t' :
    reachable t → encode input t = Done (ids, t') → reachable t'
| reach_decode ids t s t' :
    reachable t → decode ids t = Done (s, t') → reachable t'.

(** The special tokens for which the pattern of [encode] is a plain
    alternation of literals: not empty and without a backslash (the one
    character of the regex syntax that [encode] does not escape). *)
Definition literal (token : std_string) : Prop :=
  token ≠ [] ∧ backslash ∉ token.

(** The special tokens for which the pattern of [encode] is a plain
    alternation of literals: not empty and without a backslash (the one
    character of the regex syntax that [encode] does not escape). *)
Definition literal_tokens (t : BPETokenizer) : Prop :=
  ∀ token, is_Some (special_to_id t !! token) → literal token.

(** The alternatives of the pattern, in the order of the iteration over
    [special_to_id]. *)
Definition specials `{UnorderedIteration} (t : BPETokenizer) : list std_string :=
  (iter_specials (map_to_list (special_to_id t))).*1.

Definition pattern_tail (tokens : list std_string) : std_string :=
  mjoin ((λ token, "|"%char :: escape token) <$> tokens) ++ [")"%char].

(** An ID of the working sequence of [train]: below the counter, not a
    special token, with a token. *)
Definition symbol_id (t : BPETokenizer) (x : Z) : Prop :=
  x < next_id t ∧ id_to_special t !! x = None ∧ is_Some (id_to_token t !! x).

(** Objects for the examples: [BPETokenizer(1000)] after
    [register_special_token("<END>")], and [BPETokenizer(257)] after the
    same call, whose vocabulary is then full. *)
Definition tokenizer_with_END : BPETokenizer :=
  set_next_id 257
    (set_id_to_special <[256 := str "<END>"]>
       (set_special_to_id <[str "<END>" := 256]> (reset 1000))).

Definition full_tokenizer : BPETokenizer :=
  set_next_id 257
    (set_id_to_special <[256 := str "<END>"]>
       (set_special_to_id <[str "<END>" := 256]> (reset 257))).

(** [BPETokenizer(1000)] after [train("aa")]: one merge rule. *)
Definition tokenizer_after_aa : BPETokenizer :=
  set_next_id 257
    (set_id_to_token <[256 := str "aa"]>
       (set_pairs <[(97, 97) := 256]> (reset 1000))).

(** [BPETokenizer(1000)] after [register_special_token] with the two
    characters backslash and [d].  [encode] does not escape the backslash,
    so its pattern is the class of the digits in a group, which is outside
    the fragment of [regex_compile]. *)
Definition tokenizer_with_digit_class : BPETokenizer :=
  set_next_id 257
    (set_id_to_special <[256 := str "\d"]>
       (set_special_to_id <[str "\d" := 256]> (reset 1000))).

(** The library on that one pattern, for inputs without a digit: nothing
    matches, and the token iterator yields the whole input as one piece. *)
Definition digit_class_regex : RegexLibrary := {|
  regex := unit;
  regex_construct pattern :=
    if bool_decide (pattern = str "(\d)") then Done tt
    else Fault RegexUnsupported;
  regex_tokens _ input :=
    if bool_decide (Forall (λ c, ¬ (48 ≤ byte_to_int c ≤ 57)) input)
    then Done [input]
    else Fault RegexUnsupported
|}.

(** An ID that [decode] finds in one of its two tables. *)
Definition known (t : BPETokenizer) (id : Z) : Prop :=
  is_Some (id_to_special t !! id) ∨ is_Some (id_to_token t !! id).

(** ** pair_hash

    [std::hash<int>] is implementation defined; it is the parameter
    [hash].  [h1 ^ h2] on [size_t] is the bitwise exclusive or. *)
Definition pair_hash (hash : Z → Z) (p : Z * Z) : Z :=
  Z.lxor (hash p.1) (hash p.2).

(** How often a pair occurs as neighbours in a sequence. *)
Definition occurrences (p : Z * Z) (l : list Z) : Z :=
  size (filter (λ q, q = p) (adjacent_pairs l)).

(** The table of counts after the pairs of [l] have been counted into
    [m]. *)
Definition count_pairs (m : gmap (Z * Z) Z) (l : list (Z * Z)) : gmap (Z * Z) Z :=
  foldl (λ m q, <[q := default 0 (m !! q) + 1]> m) m l.

(** The working sequence of [train] after the merges of a log. *)
Definition replay (log : list merge_event) (indices : list Z) : list Z :=
  foldl (λ l e, rewrite_spec e.1.1 e.1.2 l) indices log.

(** ** main

    [std::cin] is the characters that are still to be read and the two
    state bits that [std::getline] looks at.  [std::getline] reads up to
    and including the next newline; at the end of the input it sets
    [eofbit], and [failbit] as well if it has read no character.  On a
    stream with a bit set it gives up before it touches the string, which
    then keeps the line of the call before. *)

Definition MAX_VOCAB_SIZE : Z := 1000.

Definition newline : ascii := "010"%char.

Record istream : Type := {
  buffer : std_string;
  eofbit : bool;
  failbit : bool
}.

Definition stream_of (input : std_string) : istream :=
  {| buffer := input; eofbit := false; failbit := false |}.

(** The characters before the next newline and, if there is a newline,
    the characters after it. *)
Fixpoint read_line (buf : std_string) : std_string * option std_string :=
  match buf with
  | [] => ([], None)
  | c :: buf' =>
      if bool_decide (c = newline) then ([], Some buf')
      else let '(line, rest) := read_line buf' in (c :: line, rest)
  end.

Definition getline (s : std_string) (cin : istream) : std_string * istream :=
  if eofbit cin || failbit cin then
    (s, {| buffer := buffer cin; eofbit := eofbit cin; failbit := true |})
  else
    match read_line (buffer cin) with
    | (line, Some rest) => (line, stream_of rest)
    | (line, None) =>
        (line, {| buffer := []; eofbit := true;
                  failbit := bool_decide (line = []) |})
    end.

(** The messages of [main] and of the member functions it calls. *)
Inductive output : Type :=
| OpeningFile
| ErrorOpening
| FileOpened
| CorpusSize (n : Z)
| ErrorEmpty
| PromptVerbose
| InvalidInput
| Merged (e : merge_event)
| TrainingComplete (merges : Z) (vocabulary : Z)
| AddedSpecial (token : std_string) (id : Z)
| PromptText
| Encoded (ids : list Z)
| Decoded (text : std_string)
| ErrorException.

#[global] Instance output_eq_dec : EqDecision output.
Proof. solve_decision. Defined.

(** The first [while (true)] of [main]: the locals [verbose_input] and
    [verbose], the stream and the output so far. *)
Definition verbose_body (s : std_string * bool * istream * list output)
    : result (ctl (std_string * bool * istream * list output)) :=
  let '(verbose_input, verbose, cin, cout) := s in
  let cout := cout ++ [PromptVerbose] in
  let '(verbose_input, cin) := getline verbose_input cin in
  if bool_decide (verbose_input = str "y")
     || bool_decide (verbose_input = str "Y")
  then Done (Break (verbose_input, true, cin, cout))
  else if bool_decide (verbose_input = str "n")
          || bool_decide (verbose_input = str "N")
  then Done (Break (verbose_input, false, cin, cout))
  else Done (Next (verbose_input, verbose, cin, cout ++ [InvalidInput])).

(** The second [while (true)]: the local [input], the tokenizer, the
    stream and the output so far. *)
Definition prompt_body `{UnorderedIteration}
    (s : std_string * BPETokenizer * istream * list output)
    : result (ctl (std_string * BPETokenizer * istream * list output)) :=
  let '(input, tokenizer, cin, cout) := s in
  let cout := cout ++ [PromptText] in
  let '(input, cin) := getline input cin in
  if bool_decide (input = str "q")
  then Done (Break (input, tokenizer, cin, cout))
  else
    '(encoded, tokenizer) ← encode input tokenizer;
    let cout := cout ++ [Encoded encoded] in
    '(decoded, tokenizer) ← decode encoded tokenizer;
    Done (Next (input, tokenizer, cin, cout ++ [Decoded decoded])).

(** [main] on the contents [file] of [data.txt] ([None] if it cannot be
    opened) and the characters [stdin] of standard input; the result is
    the exit code and the output.  The handler of [main] catches the
    exception of the constructor; the other faults are no exceptions.
    [train] prints its log when [verbose] is set, and then the number of
    entries of [pairs] and the vocabulary size; [register_special_token]
    prints the token and its ID when the token is new. *)
Definition main `{UnorderedIteration} (fuel : nat) (file : option std_string)
    (stdin : std_string) : result (Z * list output) :=
  let cout := [OpeningFile] in
  match file with
  | None => Done (1, cout ++ [ErrorOpening])
  | Some corpus =>
      let cout := cout ++ [FileOpened; CorpusSize (size corpus)] in
      if bool_decide (corpus = []) then Done (1, cout ++ [ErrorEmpty])
      else
        match construct MAX_VOCAB_SIZE with
        | Fault InvalidArgument => Done (1, cout ++ [ErrorException])
        | Fault e => Fault e
        | Done tokenizer =>
            '(_, verbose, cin, cout) ←
              while_loop fuel (λ _, true) verbose_body
                ([], false, stream_of stdin, cout);
            '(log, tokenizer) ← train corpus false tokenizer;
            let cout :=
              cout ++ (if verbose : bool then Merged <$> log else [])
                   ++ [TrainingComplete (Z.of_nat (base.size (pairs tokenizer)))
                                        (vocab_size tokenizer)] in
            let token := str "<|endoftext|>" in
            let cout :=
              if bool_decide (is_Some (special_to_id tokenizer !! token))
              then cout
              else cout ++ [AddedSpecial token (next_id tokenizer)] in
            '(_, tokenizer) ← register_special_token token tokenizer;
            '(_, _, _, cout) ←
              while_loop fuel (λ _, true) prompt_body
                ([], tokenizer, cin, cout);
            Done (0, cout)
        end
  end.

(** Standard input made of whole lines. *)
Definition lines_text (lines : list std_string) : std_string :=
  mjoin ((λ line, line ++ [newline]) <$> lines).

(** The answers that end the first loop of [main]. *)
Definition answers : list std_string := [str "y"; str "Y"; str "n"; str "N"].

(** A line that the second loop of [main] encodes without meeting the
    special token. *)
Definition plain_line (text : std_string) : Prop :=
  (newline ∉ text) ∧ text ≠ [] ∧ text ≠ str "q" ∧
  ∀ pre post, text ≠ pre ++ str "<|endoftext|>" ++ post.

(** What the second loop prints for a line. *)
Definition echo (text : std_string) (ids : list Z) : list output :=
  [PromptText; Encoded ids; Decoded text].

(** What [main] has printed when it enters the second loop, after the
    lines [junk] and an answer: [t] is the tokenizer after [train] and
    [log] the log of [train]. *)
Definition preamble (corpus : std_string) (junk : list std_string)
    (verbose : bool) (log : list merge_event) (t : BPETokenizer)
    : list output :=
  [OpeningFile; FileOpened; CorpusSize (size corpus)]
  ++ mjoin ((λ _, [PromptVerbose; InvalidInput]) <$> junk) ++ [PromptVerbose]
  ++ (if verbose then Merged <$> log else [])
  ++ [TrainingComplete (Z.of_nat (base.size (pairs t))) (vocab_size t);
      AddedSpecial (str "<|endoftext|>") (vocab_size t)].

(** The output of a run of [main] that then reads the lines [texts] and
    the line [q]. *)
Definition transcript (corpus : std_string) (junk : list std_string)
    (verbose : bool) (log : list merge_event) (t : BPETokenizer)
    (texts : list std_string) (idss : list (list Z)) : list output :=
  preamble corpus junk verbose log t
  ++ mjoin (zip_with echo texts idss) ++ [PromptText].

(** ** What the member functions keep besides [wf]

    The bound that the constructor checked, an entry in a table of [decode]
    for every ID below the counter, and one ID spent for every entry of
    [pairs] and of [special_to_id] ([pairs.size()] is what [train] prints
    as the number of merges). *)
Record dense (t : BPETokenizer) : Prop := {
  dense_max : 256 < max_vocab_size t;
  dense_known : ∀ id, 0 ≤ id < next_id t → known t id;
  dense_sizes :
    Z.of_nat (base.size (pairs t)) + Z.of_nat (base.size (special_to_id t))
    ≤ next_id t - 256
}.

(** * Proofs *)

Lemma vec_at_lookup (v : list Z) (k : nat) x :
  v !! k = Some x → vec_at v (Z.of_nat k) = Done x.
Proof.
  intros H. unfold vec_at.
  destruct (Z.leb_spec 0 (Z.of_nat k)); [|lia].
  by rewrite Nat2Z.id, H.
Qed.

Lemma vec_at_succ (v : list Z) (k : nat) x :
  v !! S k = Some x → vec_at v (Z.of_nat k + 1) = Done x.
Proof.
  intros H. replace (Z.of_nat k + 1) with (Z.of_nat (S k)) by lia.
  by apply vec_at_lookup.
Qed.

Lemma size_t_sub_pos (n : nat) :
  (0 < n)%nat → size_t_sub (Z.of_nat n) 1 = Z.of_nat n - 1.
Proof. intros H. unfold size_t_sub. destruct (Z.leb_spec 1 (Z.of_nat n)); lia. Qed.

Lemma drop_cons_lookup {A} (l : list A) k a t :
  drop k l = a :: t → l !! k = Some a ∧ drop (S k) l = t ∧ (k < length l)%nat.
Proof.
  intros H.
  assert (Hk : l !! k = Some a).
  { rewrite <- (Nat.add_0_r k), <- lookup_drop, H. done. }
  split; [done|]. split; [|by eapply lookup_lt_Some].
  rewrite (drop_S _ _ _ Hk) in H. by inversion H.
Qed.

Lemma merge_pair_loop indices pair new_index fuel k merged :
  (k ≤ length indices)%nat → (length indices - k ≤ fuel)%nat →
  while_loop fuel (merge_pair_cond indices)
    (merge_pair_body indices pair new_index) (merged, Z.of_nat k)
  = Done (merged ++ rewrite_spec pair new_index (drop k indices),
          size indices).
Proof.
  revert k merged. induction fuel as [fuel IH] using lt_wf_ind.
  intros k merged Hk Hfuel.
  destruct (drop k indices) as [|a t] eqn:Hd.
  - (* i = size: the loop is left *)
    apply (f_equal length) in Hd. rewrite length_drop in Hd. simpl in Hd.
    assert (k = length indices) as -> by lia.
    destruct fuel; simpl; unfold merge_pair_cond, size; simpl;
      rewrite Z.ltb_irrefl, app_nil_r; done.
  - apply drop_cons_lookup in Hd as (Ha & Hd & Hlt).
    destruct fuel as [|fuel]; [lia|].
    cbn [while_loop]. unfold merge_pair_cond at 1. cbn [snd]. unfold size at 1.
    destruct (Z.ltb_spec (Z.of_nat k) (Z.of_nat (length indices))); [|lia].
    unfold merge_pair_body at 1. unfold size at 1.
    rewrite size_t_sub_pos by lia.
    destruct t as [|b r].
    + (* last element *)
      apply (f_equal length) in Hd. rewrite length_drop in Hd. simpl in Hd.
      destruct (Z.ltb_spec (Z.of_nat k) (Z.of_nat (length indices) - 1)); [lia|].
      rewrite (vec_at_lookup _ _ _ Ha). cbn [mbind result_bind].
      replace (Z.of_nat k + 1) with (Z.of_nat (S k)) by lia.
      rewrite IH; [|lia..].
      rewrite <- app_assoc. simpl.
      rewrite (drop_ge indices (S k)) by lia. done.
    + pose proof Hd as Hd'.
      apply drop_cons_lookup in Hd' as (Hb & Hd' & Hlt').
      destruct (Z.ltb_spec (Z.of_nat k) (Z.of_nat (length indices) - 1)); [|lia].
      rewrite (vec_at_lookup _ _ _ Ha), (vec_at_succ _ _ _ Hb). cbn [mbind result_bind].
      cbn [rewrite_spec].
      destruct (decide ((a, b) = pair)).
      * replace (Z.of_nat k + 2) with (Z.of_nat (S (S k))) by lia.
        rewrite IH; [|lia..]. by rewrite <- app_assoc, Hd'.
      * replace (Z.of_nat k + 1) with (Z.of_nat (S k)) by lia.
        rewrite IH; [|lia..]. by rewrite <- app_assoc, Hd.
Qed.

Lemma merge_pair_spec indices pair new_index :
  merge_pair indices pair new_index
  = Done (rewrite_spec pair new_index indices).
Proof.
  unfold merge_pair.
  change 0 with (Z.of_nat 0).
  rewrite merge_pair_loop by lia. done.
Qed.

(** Induction along the two-step recursion of the passes. *)
Lemma pass_ind (P : list Z → Prop) :
  P [] → (∀ a, P [a]) →
  (∀ a b r, P r → P (b :: r) → P (a :: b :: r)) →
  ∀ l, P l.
Proof.
  intros Hnil Hone Hstep l.
  cut (P l ∧ ∀ a, P (a :: l)); [by intros []|].
  induction l as [|b r [IH1 IH2]]; [by split|].
  split; [apply IH2|]. intros a. apply Hstep; [done|apply IH2].
Qed.

Lemma rewrite_spec_cons2 p n a b r :
  rewrite_spec p n (a :: b :: r)
  = if decide ((a, b) = p) then n :: rewrite_spec p n r
    else a :: rewrite_spec p n (b :: r).
Proof. done. Qed.

Lemma rewrite_spec_length p n l :
  (length (rewrite_spec p n l) ≤ length l)%nat.
Proof.
  induction l as [| |a b r IH1 IH2] using pass_ind; [done..|].
  cbn [rewrite_spec]. destruct (decide ((a, b) = p)); cbn in *; lia.
Qed.

Lemma rewrite_spec_nonempty p n l : l ≠ [] → rewrite_spec p n l ≠ [].
Proof.
  destruct l as [|a [|b r]]; [done..|]. intros _. cbn [rewrite_spec].
  by destruct (decide ((a, b) = p)).
Qed.

Lemma rewrite_spec_elem p n l x :
  x ∈ rewrite_spec p n l → x = n ∨ x ∈ l.
Proof.
  induction l as [| |a b r IH1 IH2] using pass_ind; [by right..|].
  cbn [rewrite_spec]. destruct (decide ((a, b) = p)).
  - intros [->|Hx]%elem_of_cons; [by left|].
    destruct (IH1 Hx); [by left|]. right. by do 2 right.
  - intros [->|Hx]%elem_of_cons; [right; left|].
    destruct (IH2 Hx); [by left|]. right. by right.
Qed.

Lemma rewrite_spec_head p n b r :
  ∃ h tl, rewrite_spec p n (b :: r) = h :: tl ∧ (h = n ∨ h = b).
Proof.
  destruct r as [|c r]; [by eauto|]. cbn [rewrite_spec].
  destruct (decide ((b, c) = p)); eauto.
Qed.

Lemma adjacent_pairs_cons a h tl :
  adjacent_pairs (a :: h :: tl) = (a, h) :: adjacent_pairs (h :: tl).
Proof. done. Qed.

(** Neighbours after the rewrite: one of them is the new ID, or they were
    neighbours before and are not the merged pair. *)
Lemma rewrite_spec_adjacent p n l q :
  q ∈ adjacent_pairs (rewrite_spec p n l) →
  q.1 = n ∨ q.2 = n ∨ (q ∈ adjacent_pairs l ∧ q ≠ p).
Proof.
  induction l as [| |a b r IH1 IH2] using pass_ind;
    [by intros ?%elem_of_nil..|].
  rewrite rewrite_spec_cons2. destruct (decide ((a, b) = p)) as [Hp|Hp].
  - destruct (rewrite_spec p n r) as [|h tl] eqn:Hr;
      [by intros ?%elem_of_nil|].
    rewrite adjacent_pairs_cons. intros [->|Hq]%elem_of_cons; [by left|].
    destruct (IH1 Hq) as [?|[?|[Hin ?]]]; [by left|by right; left|].
    do 2 right. split; [|done].
    destruct r as [|c r]; [by apply elem_of_nil in Hin|].
    rewrite !adjacent_pairs_cons. by do 2 right.
  - destruct (rewrite_spec_head p n b r) as (h & tl & Hr & Hh).
    rewrite Hr in IH2 |- *.
    rewrite adjacent_pairs_cons. intros [->|Hq]%elem_of_cons.
    + destruct Hh as [->| ->]; [by right; left|].
      do 2 right. split; [left|done].
    + destruct (IH2 Hq) as [?|[?|[Hin ?]]]; [by left|by right; left|].
      do 2 right. split; [|done]. rewrite adjacent_pairs_cons. by right.
Qed.

(** The rewrite of a sequence is the rewrite of its parts when the first
    part does not end in the first ID of the pair. *)
Lemma rewrite_spec_app p n pre l :
  last pre ≠ Some p.1 →
  rewrite_spec p n (pre ++ l) = rewrite_spec p n pre ++ rewrite_spec p n l.
Proof.
  induction pre as [| |a b r IH1 IH2] using pass_ind; intros Hlast.
  - done.
  - destruct l as [|c l]; [done|]. cbn [app]. rewrite rewrite_spec_cons2.
    rewrite decide_False; [done|]. intros <-. by destruct Hlast.
  - cbn [app]. rewrite !rewrite_spec_cons2.
    destruct (decide ((a, b) = p)).
    + rewrite IH1; [done|]. by destruct r.
    + change (b :: r ++ l) with ((b :: r) ++ l). by rewrite IH2.
Qed.

Lemma rewrite_spec_run3 x n post :
  head post ≠ Some x →
  rewrite_spec (x, x) n (x :: x :: x :: post) = n :: x :: rewrite_spec (x, x) n post.
Proof.
  intros Hhead. rewrite rewrite_spec_cons2, decide_True by done.
  destruct post as [|y post]; [done|]. rewrite rewrite_spec_cons2.
  rewrite decide_False; [done|]. intros [= <-]. by destruct Hhead.
Qed.

(** C6: [merge_pair] is the single left-to-right pass without overlap that
    the specification describes ([rewrite_spec]); with the selected pair
    [(x, x)], a run of three occurrences of [x] (anywhere in the sequence)
    yields the new ID followed by one [x] that is left over. *)
Theorem merge_pair_single_pass :
  (∀ indices pair new_index,
     merge_pair indices pair new_index
     = Done (rewrite_spec pair new_index indices)) ∧
  (∀ x new_index, merge_pair [x; x; x] (x, x) new_index = Done [new_index; x]) ∧
  (∀ pre post x new_index,
     last pre ≠ Some x → head post ≠ Some x →
     merge_pair (pre ++ [x; x; x] ++ post) (x, x) new_index
     = Done (rewrite_spec (x, x) new_index pre ++ [new_index; x]
             ++ rewrite_spec (x, x) new_index post)).
Proof.
  split; [apply merge_pair_spec|]. split.
  - intros x n. rewrite merge_pair_spec. simpl.
    rewrite decide_True by done. done.
  - intros pre post x n Hlast Hhead.
    rewrite merge_pair_spec, rewrite_spec_app by done. cbn [app].
    by rewrite rewrite_spec_run3.
Qed.

Lemma merge_pair_single_pass_witness :
  merge_pair ([7; 5] ++ [9; 9; 9] ++ [5; 9; 9]) (9, 9) 256
  = Done (rewrite_spec (9, 9) 256 [7; 5] ++ [256; 9]
          ++ rewrite_spec (9, 9) 256 [5; 9; 9]).
Proof.
  apply (proj2 (proj2 merge_pair_single_pass) [7; 5] [5; 9; 9] 9 256);
    discriminate.
Defined.

(** ** Reasoning about loops *)

Section while_loop.
Context {St : Type} (cond : St → bool) (body : St → result (ctl St)).

(** A property kept by every iteration holds when the loop is left. *)
Lemma while_loop_inv (P : St → Prop) :
  (∀ s s', P s → cond s = true → body s = Done (Next s') → P s') →
  ∀ fuel s r, P s → while_loop fuel cond body s = Done r →
    (P r ∧ cond r = false) ∨
    (∃ s0, P s0 ∧ cond s0 = true ∧ body s0 = Done (Break r)).
Proof.
  intros Hstep fuel. induction fuel as [|fuel IH]; intros s r HP Hrun;
    cbn in Hrun; destruct (cond s) eqn:Hc; simplify_eq; eauto.
  destruct (body s) as [[s'|s']|e] eqn:Hb; simplify_eq; eauto 6.
Qed.

(** A loop whose iterations decrease a measure below the bound ends. *)
Lemma while_loop_total (P : St → Prop) (μ : St → nat) :
  (∀ s, P s → cond s = true →
     (0 < μ s)%nat ∧
     ∃ c, body s = Done c ∧ ∀ s', c = Next s' → P s' ∧ (μ s' < μ s)%nat) →
  ∀ fuel s, P s → (μ s ≤ fuel)%nat →
    ∃ r, while_loop fuel cond body s = Done r.
Proof.
  intros Hstep fuel. induction fuel as [|fuel IH]; intros s HP Hμ;
    cbn; destruct (cond s) eqn:Hc; eauto;
    destruct (Hstep s HP Hc) as (Hpos & c & Hb & Hnext); [lia|].
  rewrite Hb. destruct c as [s'|s']; eauto.
  destruct (Hnext s' eq_refl). apply IH; [done|lia].
Qed.
(** Under the same conditions the bound of the loop is not reached,
whatever else the body does. *)
Lemma while_loop_fuel (P : St → Prop) (μ : St → nat) :
  (∀ s, P s → cond s = true →
     (0 < μ s)%nat ∧ body s ≠ Fault OutOfFuel ∧
     ∀ s', body s = Done (Next s') → P s' ∧ (μ s' < μ s)%nat) →
  ∀ fuel s, P s → (μ s ≤ fuel)%nat →
    while_loop fuel cond body s ≠ Fault OutOfFuel.
Proof.
  intros Hstep fuel. induction fuel as [|fuel IH]; intros s HP Hμ;
    cbn; destruct (cond s) eqn:Hc; try done;
    destruct (Hstep s HP Hc) as (Hpos & Hb & Hnext); [lia|].
  destruct (body s) as [[s'|s']|e] eqn:Hbody; [|done|congruence].
  destruct (Hnext s' eq_refl). apply IH; [done|lia].
Qed.
End while_loop.

Lemma while_M_O {L} cond (body : L → M (ctl L)) l t :
  while_M 0 cond body l t = if cond l t then Fault OutOfFuel else Done (l, t).
Proof. done. Qed.

Lemma while_M_S {L} fuel cond (body : L → M (ctl L)) l t :
  while_M (S fuel) cond body l t
  = if cond l t then
      match body l t with
      | Done (Next l', t') => while_M fuel cond body l' t'
      | Done (Break l', t') => Done (l', t')
      | Fault e => Fault e
      end
    else Done (l, t).
Proof.
  unfold while_M. cbn. destruct (cond l t); [|done].
  by destruct (body l t) as [[[?|?] ?]|?].
Qed.

Lemma while_M_inv {L} cond (body : L → M (ctl L)) (P : L → BPETokenizer → Prop) :
  (∀ l t l' t', P l t → cond l t = true →
     body l t = Done (Next l', t') → P l' t') →
  ∀ fuel l t l' t', P l t → while_M fuel cond body l t = Done (l', t') →
    (P l' t' ∧ cond l' t' = false) ∨
    (∃ l0 t0, P l0 t0 ∧ cond l0 t0 = true ∧ body l0 t0 = Done (Break l', t')).
Proof.
  intros Hstep fuel l t l' t' HP Hrun. unfold while_M in Hrun. cbn in Hrun.
  eapply (while_loop_inv _ _ (λ s, P s.1 s.2)) in Hrun; [| |done].
  - destruct Hrun as [?|([l0 t0] & ? & ? & Hb)]; [by left|right].
    exists l0, t0. cbn in *.
    destruct (body l0 t0) as [[[?|?] ?]|?]; by simplify_eq.
  - intros [l1 t1] [l2 t2] ? ? Hb. cbn in *. eapply Hstep; [done..|].
    destruct (body l1 t1) as [[[?|?] ?]|?]; by simplify_eq.
Qed.

Lemma while_M_fuel {L} cond (body : L → M (ctl L))
    (P : L → BPETokenizer → Prop) (μ : L → BPETokenizer → nat) :
  (∀ l t, P l t → cond l t = true →
     (0 < μ l t)%nat ∧ body l t ≠ Fault OutOfFuel ∧
     ∀ l' t', body l t = Done (Next l', t') → P l' t' ∧ (μ l' t' < μ l t)%nat) →
  ∀ fuel l t, P l t → (μ l t ≤ fuel)%nat →
    while_M fuel cond body l t ≠ Fault OutOfFuel.
Proof.
  intros Hstep fuel l t HP Hμ. unfold while_M. cbn.
  apply (while_loop_fuel _ _ (λ s, P s.1 s.2) (λ s, μ s.1 s.2)); [|done..].
  intros [l1 t1] HP1 Hc1. cbn in *.
  destruct (Hstep l1 t1 HP1 Hc1) as (Hpos & Hb & Hnext).
  split; [done|]. split.
  - destruct (body l1 t1) as [[[?|?] ?]|e]; [done..|].
    intros [= ->]. by destruct Hb.
  - intros [l2 t2] Hb2. apply Hnext.
    destruct (body l1 t1) as [[[?|?] ?]|?]; by simplify_eq.
Qed.

Lemma while_M_total {L} cond (body : L → M (ctl L))
    (P : L → BPETokenizer → Prop) (μ : L → BPETokenizer → nat) :
  (∀ l t, P l t → cond l t = true →
     (0 < μ l t)%nat ∧
     ∃ c t', body l t = Done (c, t') ∧
       ∀ l', c = Next l' → P l' t' ∧ (μ l' t' < μ l t)%nat) →
  ∀ fuel l t, P l t → (μ l t ≤ fuel)%nat →
    ∃ l' t', while_M fuel cond body l t = Done (l', t').
Proof.
  intros Hstep fuel l t HP Hμ. unfold while_M. cbn.
  destruct (while_loop_total (λ s, cond s.1 s.2)
    (λ s, match body s.1 s.2 with
          | Done (Next l', t') => Done (Next (l', t'))
          | Done (Break l', t') => Done (Break (l', t'))
          | Fault e => Fault e
          end) (λ s, P s.1 s.2) (λ s, μ s.1 s.2)) with (fuel := fuel) (s := (l, t))
    as [[l' t'] Hr]; [|done|done|by eauto].
  intros [l1 t1] HP1 Hc1. cbn in *.
  destruct (Hstep l1 t1 HP1 Hc1) as (Hpos & c & t2 & Hb & Hnext).
  split; [done|]. rewrite Hb. destruct c as [l2|l2].
  - eexists. split; [done|]. intros [l3 t3] ?. simplify_eq. by apply Hnext.
  - eexists. split; [done|]. by intros [l3 t3] ?.
Qed.

(** ** The state monad *)

Lemma M_bind_unfold {A B} (m : M A) (k : A → M B) t :
  (m ≫= k) t = match m t with Done (a, t') => k a t' | Fault e => Fault e end.
Proof. done. Qed.

Lemma set_pairs_same t : set_pairs (λ _, pairs t) t = t.
Proof. by destruct t. Qed.
Lemma set_id_to_token_same t : set_id_to_token (λ _, id_to_token t) t = t.
Proof. by destruct t. Qed.
Lemma set_special_to_id_same t : set_special_to_id (λ _, special_to_id t) t = t.
Proof. by destruct t. Qed.
Lemma set_id_to_special_same t : set_id_to_special (λ _, id_to_special t) t = t.
Proof. by destruct t. Qed.

Lemma index_or_insert_Some `{Countable K} {V} (d : V) k (m : gmap K V) v :
  m !! k = Some v → index_or_insert d k m = (v, m).
Proof. intros Hk. unfold index_or_insert. by rewrite Hk. Qed.

Lemma index_or_insert_None `{Countable K} {V} (d : V) k (m : gmap K V) :
  m !! k = None → index_or_insert d k m = (d, <[k := d]> m).
Proof. intros Hk. unfold index_or_insert. by rewrite Hk. Qed.

Lemma pairs_index_Some k v t :
  pairs t !! k = Some v → pairs_index k t = Done (v, t).
Proof.
  intros Hk. unfold pairs_index.
  by rewrite (index_or_insert_Some _ _ _ _ Hk), set_pairs_same.
Qed.

Lemma id_to_token_index_Some k v t :
  id_to_token t !! k = Some v → id_to_token_index k t = Done (v, t).
Proof.
  intros Hk. unfold id_to_token_index.
  by rewrite (index_or_insert_Some _ _ _ _ Hk), set_id_to_token_same.
Qed.

Lemma special_to_id_index_Some k v t :
  special_to_id t !! k = Some v → special_to_id_index k t = Done (v, t).
Proof.
  intros Hk. unfold special_to_id_index.
  by rewrite (index_or_insert_Some _ _ _ _ Hk), set_special_to_id_same.
Qed.

Lemma id_to_special_index_Some k v t :
  id_to_special t !! k = Some v → id_to_special_index k t = Done (v, t).
Proof.
  intros Hk. unfold id_to_special_index.
  by rewrite (index_or_insert_Some _ _ _ _ Hk), set_id_to_special_same.
Qed.

(** ** register_special_token *)

Lemma register_registered token id t :
  special_to_id t !! token = Some id →
  register_special_token token t = Done (tt, t).
Proof.
  intros Hid. unfold register_special_token.
  rewrite M_bind_unfold. unfold gets at 1.
  rewrite Hid, bool_decide_eq_true_2 by eauto. done.
Qed.

Lemma register_fresh token t :
  special_to_id t !! token = None → next_id t < INT_MAX →
  register_special_token token t
  = Done (tt, set_next_id (next_id t + 1)
                (set_id_to_special <[next_id t := token]>
                   (set_special_to_id <[token := next_id t]> t))).
Proof.
  intros Hid Hn. unfold register_special_token.
  rewrite M_bind_unfold. unfold gets at 1.
  rewrite Hid, bool_decide_eq_false_2 by apply is_Some_None.
  unfold gets, modify, lift, int_incr. rewrite !M_bind_unfold. cbn.
  destruct (Z.ltb_spec (next_id t) INT_MAX); [done|lia].
Qed.

Lemma register_overflow token t :
  special_to_id t !! token = None → INT_MAX ≤ next_id t →
  register_special_token token t = Fault SignedOverflow.
Proof.
  intros Hid Hn. unfold register_special_token.
  rewrite M_bind_unfold. unfold gets at 1.
  rewrite Hid, bool_decide_eq_false_2 by apply is_Some_None.
  unfold gets, modify, lift, int_incr. rewrite !M_bind_unfold. cbn.
  destruct (Z.ltb_spec (next_id t) INT_MAX); [lia|done].
Qed.

Lemma register_Done token t t1 :
  register_special_token token t = Done (tt, t1) →
  ∃ id, special_to_id t1 !! token = Some id.
Proof.
  intros Hreg.
  destruct (special_to_id t !! token) as [id|] eqn:Hid.
  - rewrite (register_registered _ _ _ Hid) in Hreg.
    inversion Hreg; subst. eauto.
  - destruct (Z.lt_ge_cases (next_id t) INT_MAX) as [Hn|Hn].
    + rewrite register_fresh in Hreg by done. inversion Hreg; subst.
      exists (next_id t). cbn. apply lookup_insert_eq.
    + by rewrite register_overflow in Hreg.
Qed.

(** C10: registering a special token a second time changes nothing: the
    token keeps the ID that the first call gave it, no ID is consumed and
    [vocab_size] is the same. *)
Theorem register_special_token_idempotent token t t1 :
  register_special_token token t = Done (tt, t1) →
  ∃ id t2,
    special_to_id t1 !! token = Some id ∧
    register_special_token token t1 = Done (tt, t2) ∧
    special_to_id t2 !! token = Some id ∧
    next_id t2 = next_id t1 ∧
    vocab_size t2 = vocab_size t1 ∧
    t2 = t1.
Proof.
  intros Hreg. destruct (register_Done _ _ _ Hreg) as [id Hid].
  exists id, t1. by rewrite (register_registered _ _ _ Hid).
Qed.

Lemma register_special_token_idempotent_witness :
  ∃ id t2,
    special_to_id tokenizer_with_END !! str "<END>" = Some id ∧
    register_special_token (str "<END>") tokenizer_with_END = Done (tt, t2) ∧
    special_to_id t2 !! str "<END>" = Some id ∧
    next_id t2 = next_id tokenizer_with_END ∧
    vocab_size t2 = vocab_size tokenizer_with_END ∧
    t2 = tokenizer_with_END.
Proof.
  apply (register_special_token_idempotent (str "<END>") (reset 1000)).
  vm_compute. reflexivity.
Defined.

(** ** decode *)

Lemma token_text_touch t id j :
  token_text (decode_touch t id) j = token_text t j.
Proof.
  unfold decode_touch, token_text.
  destruct (id_to_special t !! id) eqn:Hs; [done|].
  destruct (id_to_token t !! id) eqn:Ht; [done|]. cbn.
  destruct (id_to_special t !! j); [done|].
  destruct (decide (id = j)) as [->|Hne].
  - by rewrite lookup_insert_eq, Ht.
  - by rewrite lookup_insert_ne.
Qed.

Lemma decode_id_spec decoded id t :
  decode_id decoded id t
  = Done (decoded ++ token_text t id, decode_touch t id).
Proof.
  unfold decode_id, token_text, decode_touch.
  rewrite M_bind_unfold. unfold gets at 1.
  destruct (id_to_special t !! id) as [s|] eqn:Hs.
  - rewrite bool_decide_eq_true_2 by eauto.
    rewrite M_bind_unfold, (id_to_special_index_Some _ _ _ Hs). done.
  - rewrite bool_decide_eq_false_2 by apply is_Some_None.
    rewrite M_bind_unfold.
    destruct (id_to_token t !! id) as [s|] eqn:Ht.
    + by rewrite (id_to_token_index_Some _ _ _ Ht).
    + unfold id_to_token_index.
      by rewrite (index_or_insert_None _ _ _ Ht).
Qed.

Lemma decode_from decoded ids t :
  for_each decode_id decoded ids t
  = Done (decoded ++ mjoin (token_text t <$> ids), foldl decode_touch t ids).
Proof.
  revert decoded t. induction ids as [|id ids IH]; intros decoded t.
  - cbn. by rewrite app_nil_r.
  - cbn [for_each]. rewrite M_bind_unfold, decode_id_spec, IH.
    assert (token_text (decode_touch t id) <$> ids = token_text t <$> ids)
      as -> by (apply list_fmap_ext; intros _ j _; apply token_text_touch).
    cbn. by rewrite <- app_assoc.
Qed.

Lemma decode_spec ids t :
  decode ids t = Done (mjoin (token_text t <$> ids), foldl decode_touch t ids).
Proof. unfold decode. by rewrite decode_from. Qed.

(** C2 (as the code has it): [decode] reports no error.  For every
    sequence it returns the concatenation of the texts of the IDs, and an
    ID that is in neither table contributes the empty text and is entered
    into [id_to_token] with the empty token. *)
Theorem decode_unknown_id_silent :
  (∀ ids t,
     decode ids t
     = Done (mjoin (token_text t <$> ids), foldl decode_touch t ids)) ∧
  (∀ id t,
     id_to_special t !! id = None → id_to_token t !! id = None →
     token_text t id = [] ∧
     decode [id] t = Done ([], set_id_to_token <[id := []]> t)).
Proof.
  split; [apply decode_spec|].
  intros id t Hs Ht. rewrite decode_spec.
  unfold token_text. cbn. unfold decode_touch. by rewrite Hs, Ht.
Qed.

Lemma decode_unknown_id_silent_witness :
  token_text (reset 1000) 300 = [] ∧
  decode [300] (reset 1000)
  = Done ([], set_id_to_token <[300 := []]> (reset 1000)).
Proof.
  apply (proj2 decode_unknown_id_silent 300 (reset 1000)); reflexivity.
Defined.

(** C2 (as stated) fails: 300 is in no table of a new tokenizer, and
    [decode] returns a text for a sequence that contains it. *)
Lemma decode_unknown_id_no_error :
  id_to_special (reset 1000) !! 300 = None ∧
  id_to_token (reset 1000) !! 300 = None ∧
  pairs (reset 1000) = ∅ ∧
  ∃ t', decode [97; 300; 98] (reset 1000) = Done (str "ab", t').
Proof.
  split; [reflexivity|]. split; [reflexivity|]. split; [reflexivity|].
  eexists. rewrite decode_spec. reflexivity.
Qed.

(** ** most_frequent_pair *)

Lemma vec_at_Done v i x :
  vec_at v i = Done x → 0 ≤ i ∧ v !! Z.to_nat i = Some x.
Proof.
  unfold vec_at. destruct (Z.leb_spec 0 i); [|done].
  destruct (v !! Z.to_nat i); [|done]. intros [= ->]. done.
Qed.

Lemma vec_at_Fault v i e : vec_at v i = Fault e → e = OutOfBounds.
Proof.
  unfold vec_at. destruct (0 <=? i); [|congruence].
  destruct (v !! Z.to_nat i); congruence.
Qed.

Lemma vec_at_Z v i x :
  0 ≤ i → v !! Z.to_nat i = Some x → vec_at v i = Done x.
Proof.
  intros Hi Hx. unfold vec_at. destruct (Z.leb_spec 0 i); [|lia]. by rewrite Hx.
Qed.

Lemma adjacent_pairs_lookup l k a b :
  l !! k = Some a → l !! S k = Some b → (a, b) ∈ adjacent_pairs l.
Proof.
  revert k. induction l as [|x l IH]; intros k Ha Hb; [done|].
  destruct l as [|y l]; [done|]. cbn [adjacent_pairs].
  destruct k as [|k]; cbn in Ha, Hb; simplify_eq; [left|right; eauto].
Qed.

Lemma adjacent_pairs_elem l a b :
  (a, b) ∈ adjacent_pairs l → a ∈ l ∧ b ∈ l.
Proof.
  induction l as [|x l IH]; [by intros ?%elem_of_nil|].
  destruct l as [|y l]; [by intros ?%elem_of_nil|]. cbn [adjacent_pairs].
  intros [ [= -> ->] | Hin]%elem_of_cons.
  - split; [left|right; left].
  - destruct (IH Hin). split; by right.
Qed.

Lemma most_frequent_pair_empty `{UnorderedIteration} :
  most_frequent_pair [] = Fault OutOfBounds.
Proof. done. Qed.

Lemma max_element_in x l : max_element x l ∈ x :: l.
Proof.
  unfold max_element. revert x. induction l as [|y l IH]; intros x; [left|].
  cbn. destruct (x.2 <? y.2).
  - right. apply IH.
  - pose proof (IH x) as [->|?]%elem_of_cons; [left|by do 2 right].
Qed.

Lemma count_loop_keys indices fuel s :
  while_loop fuel (count_cond indices) (count_body indices) (∅, 0) = Done s →
  ∀ p, is_Some (s.1 !! p) → p ∈ adjacent_pairs indices.
Proof.
  intros Hrun.
  eapply (while_loop_inv _ _
    (λ s, 0 ≤ s.2 ∧ ∀ p, is_Some (s.1 !! p) → p ∈ adjacent_pairs indices))
    in Hrun.
  - destruct Hrun as [[[_ ?] _]|(s0 & _ & _ & Hb)]; [done|].
    destruct s0 as [counts i]. cbn in Hb.
    destruct (vec_at indices i); [|done]. cbn in Hb.
    destruct (vec_at indices (i + 1)); [|done]. cbn in Hb.
    by destruct (int_incr _).
  - intros [counts i] [counts' i'] [Hi Hkeys] _ Hb. cbn in *.
    destruct (vec_at indices i) as [a|] eqn:Ha; [|done]. cbn in Hb.
    destruct (vec_at indices (i + 1)) as [b|] eqn:Hb'; [|done]. cbn in Hb.
    destruct (int_incr _) as [c|]; [|done]. cbn in Hb. simplify_eq.
    split; [lia|]. intros p Hp.
    destruct (decide (p = (a, b))) as [->|Hne].
    + apply vec_at_Done in Ha as [_ Ha], Hb' as [_ Hb'].
      replace (Z.to_nat (i + 1)) with (S (Z.to_nat i)) in Hb' by lia.
      by eapply adjacent_pairs_lookup.
    + rewrite lookup_insert_ne in Hp by done. auto.
  - split; [done|]. intros p [? Hp]. cbn in Hp. by rewrite lookup_empty in Hp.
Qed.

(** What [most_frequent_pair] returns is the marker [(-1, -1)] with count
    0 or a pair of neighbours of the sequence. *)
Lemma most_frequent_pair_Done `{UnorderedIteration} indices p c :
  most_frequent_pair indices = Done (p, c) →
  (p = (-1, -1) ∧ c = 0) ∨ p ∈ adjacent_pairs indices.
Proof.
  unfold most_frequent_pair.
  destruct (while_loop _ _ _ _) as [s|] eqn:Hrun; [|done]. cbn.
  pose proof (count_loop_keys _ _ _ Hrun) as Hkeys.
  destruct (iter_counts (map_to_list s.1)) as [|x l] eqn:Hit.
  - intros [= <- <-]. by left.
  - intros [= Hmax]. right. apply Hkeys. exists c.
    apply elem_of_map_to_list. rewrite <- (iter_counts_perm (map_to_list s.1)).
    rewrite Hit, <- Hmax. apply max_element_in.
Qed.

(** On a sequence that is not empty and whose length fits an [int],
    [most_frequent_pair] returns. *)
Lemma most_frequent_pair_total `{UnorderedIteration} indices :
  indices ≠ [] → size indices ≤ INT_MAX →
  ∃ p c, most_frequent_pair indices = Done (p, c).
Proof.
  intros Hne Hlen. unfold most_frequent_pair.
  assert (Hpos : (0 < length indices)%nat) by (destruct indices; [done|cbn; lia]).
  destruct (while_loop_total (count_cond indices) (count_body indices)
    (λ s, 0 ≤ s.2 ∧ ∀ p c, s.1 !! p = Some c → 0 ≤ c ≤ s.2)
    (λ s, Z.to_nat (size indices - 1 - s.2)))
    with (fuel := S (length indices)) (s := ((∅ : gmap (Z * Z) Z), 0))
    as [s Hs].
  - intros [counts i] [Hi Hc]. unfold count_cond, size. cbn [fst snd] in *.
    rewrite size_t_sub_pos by done. intros Hlt%Z.ltb_lt.
    split; [unfold size; lia|].
    assert (is_Some (indices !! Z.to_nat i)) as [a Ha]
      by (apply lookup_lt_is_Some; lia).
    assert (is_Some (indices !! S (Z.to_nat i))) as [b Hb]
      by (apply lookup_lt_is_Some; lia).
    unfold count_body.
    rewrite (vec_at_Z _ _ _ Hi Ha). cbn.
    rewrite (vec_at_Z indices (i + 1) b);
      [|lia|by replace (Z.to_nat (i + 1)) with (S (Z.to_nat i)) by lia].
    cbn.
    assert (0 ≤ default 0 (counts !! (a, b)) ≤ i) as Hold.
    { destruct (counts !! (a, b)) as [c|] eqn:Hab; cbn; [eauto|lia]. }
    unfold int_incr, size in *.
    destruct (Z.ltb_spec (default 0 (counts !! (a, b))) INT_MAX); [|lia]. cbn.
    eexists. split; [done|]. intros s' [= <-]. cbn. split; [|lia].
    split; [lia|]. intros p c.
    destruct (decide (p = (a, b))) as [->|Hp].
    + rewrite lookup_insert_eq. intros [= <-]. lia.
    + rewrite lookup_insert_ne by done. intros ?%Hc. lia.
  - split; [done|]. intros p c. cbn. by rewrite lookup_empty.
  - cbn. unfold size. lia.
  - rewrite Hs. cbn.
    destruct (iter_counts (map_to_list s.1)) as [|[p c] l]; [by eauto|].
    destruct (max_element (p, c) l). eauto.
Qed.

Lemma most_frequent_pair_fuel `{UnorderedIteration} indices :
  most_frequent_pair indices ≠ Fault OutOfFuel.
Proof.
  destruct indices as [|x indices]; [done|]. unfold most_frequent_pair.
  pose proof (while_loop_fuel (count_cond (x :: indices))
    (count_body (x :: indices)) (λ s, 0 ≤ s.2)
    (λ s, Z.to_nat (size (x :: indices) - 1 - s.2))) as Hfuel.
  destruct (while_loop _ _ _ _) as [s|e] eqn:Hrun.
  - cbn. by destruct (iter_counts _).
  - cbn. intros [= ->]. revert Hrun. apply Hfuel.
    + intros [counts i] Hi. unfold count_cond, size. cbn [fst snd] in *.
      rewrite size_t_sub_pos by (cbn; lia). intros Hlt%Z.ltb_lt.
      split; [lia|]. unfold count_body.
      destruct (vec_at (x :: indices) i) as [a|e] eqn:Ha;
        [|by apply vec_at_Fault in Ha as ->].
      cbn.
      destruct (vec_at (x :: indices) (i + 1)) as [b|e] eqn:Hb;
        [|by apply vec_at_Fault in Hb as ->].
      cbn.
      unfold int_incr. destruct (_ <? INT_MAX); [|done]. cbn [mbind result_bind].
      split; [done|]. intros s' [= <-]. cbn [fst snd length] in *. unfold size. lia.
    + done.
    + unfold size. cbn. lia.
Qed.

(** ** train *)

Lemma id_to_token_index_spec k t :
  id_to_token_index k t = Done (token_or_empty t k, token_touch k t).
Proof.
  unfold id_to_token_index, token_or_empty, token_touch, index_or_insert.
  destruct (id_to_token t !! k); [|done]. by rewrite set_id_to_token_same.
Qed.

Lemma token_or_empty_touch k t j :
  token_or_empty (token_touch k t) j = token_or_empty t j.
Proof.
  unfold token_or_empty, token_touch.
  destruct (id_to_token t !! k) eqn:Hk; [done|]. cbn.
  destruct (decide (k = j)) as [->|Hne].
  - by rewrite lookup_insert_eq, Hk.
  - by rewrite lookup_insert_ne.
Qed.

Lemma next_id_touch k t : next_id (token_touch k t) = next_id t.
Proof. unfold token_touch. by destruct (id_to_token t !! k). Qed.

Lemma token_touch_known k t :
  is_Some (id_to_token t !! k) → token_touch k t = t.
Proof. intros [? Hk]. unfold token_touch. by rewrite Hk. Qed.

(** One iteration of the loop of [train]. *)
Lemma train_body_run `{UnorderedIteration} stop_early indices log t :
  train_body stop_early (indices, log) t =
  match most_frequent_pair indices with
  | Fault e => Fault e
  | Done (p, c) =>
      if bool_decide (p.1 = -1 ∧ p.2 = -1) then Done (Break (indices, log), t)
      else if stop_early && (c =? 1) then Done (Break (indices, log), t)
      else if next_id t <? INT_MAX then
        Done (Next (rewrite_spec p (next_id t) indices,
                    log ++ [(p, next_id t,
                             token_or_empty t p.1 ++ token_or_empty t p.2)]),
              merged_state p t)
      else Fault SignedOverflow
  end.
Proof.
  unfold train_body. rewrite M_bind_unfold. unfold lift at 1.
  destruct (most_frequent_pair indices) as [[p c]|e]; [|done].
  destruct (bool_decide (p.1 = -1 ∧ p.2 = -1)); [done|].
  destruct (stop_early && (c =? 1)); [done|].
  rewrite M_bind_unfold. unfold gets at 1.
  rewrite M_bind_unfold. unfold lift at 1. rewrite merge_pair_spec.
  rewrite M_bind_unfold, id_to_token_index_spec.
  rewrite M_bind_unfold, id_to_token_index_spec.
  rewrite token_or_empty_touch.
  unfold gets, modify, lift, int_incr. rewrite !M_bind_unfold. cbn.
  rewrite !next_id_touch.
  destruct (next_id t <? INT_MAX); done.
Qed.

Lemma train_unfold `{UnorderedIteration} input stop_early t :
  train input stop_early t =
  match while_M (Z.to_nat (max_vocab_size t - next_id t)) train_cond
          (train_body stop_early) (string_to_byte input, []) t with
  | Done (l, t') => Done (l.2, t')
  | Fault e => Fault e
  end.
Proof.
  unfold train. rewrite M_bind_unfold.
  by destruct (while_M _ _ _ _ _) as [[[??]?]|?].
Qed.

(** C3 (what the code does): on the empty byte sequence [train] reads
    past the end of the sequence as soon as the vocabulary has room for a
    merge ([indices.size() - 1] wraps around in [most_frequent_pair]); it
    returns, with no merge, only when the vocabulary is already full. *)
Theorem train_empty_input `{UnorderedIteration} stop_early t :
  (vocab_size t < max_vocab_size t →
   train [] stop_early t = Fault OutOfBounds) ∧
  (max_vocab_size t ≤ vocab_size t →
   train [] stop_early t = Done ([], t)).
Proof.
  unfold vocab_size. split; intros Hroom; rewrite train_unfold.
  - destruct (Z.to_nat (max_vocab_size t - next_id t)) as [|fuel] eqn:Hfuel;
      [lia|].
    rewrite while_M_S. unfold train_cond at 1, vocab_size.
    destruct (Z.ltb_spec (next_id t) (max_vocab_size t)); [|lia].
    by rewrite train_body_run, most_frequent_pair_empty.
  - replace (Z.to_nat (max_vocab_size t - next_id t)) with 0%nat by lia.
    rewrite while_M_O. unfold train_cond, vocab_size.
    destruct (Z.ltb_spec (next_id t) (max_vocab_size t)); [lia|done].
Qed.

Lemma train_empty_input_witness :
  @train listing_order [] false (reset 257) = Fault OutOfBounds ∧
  @train listing_order [] false full_tokenizer = Done ([], full_tokenizer).
Proof.
  split.
  - apply (proj1 (@train_empty_input listing_order false (reset 257))).
    vm_compute. reflexivity.
  - apply (proj2 (@train_empty_input listing_order false full_tokenizer)).
    vm_compute. discriminate.
Defined.

Lemma train_run_inv `{UnorderedIteration} stop_early
    (P : list Z * list merge_event → BPETokenizer → Prop) input t log t' :
  P (string_to_byte input, []) t →
  (∀ indices log s p c,
     P (indices, log) s → next_id s < max_vocab_size s →
     most_frequent_pair indices = Done (p, c) →
     ¬ (p.1 = -1 ∧ p.2 = -1) → next_id s < INT_MAX →
     P (rewrite_spec p (next_id s) indices,
        log ++ [(p, next_id s, token_or_empty s p.1 ++ token_or_empty s p.2)])
       (merged_state p s)) →
  train input stop_early t = Done (log, t') →
  ∃ indices, P (indices, log) t'.
Proof.
  intros Hinit Hstep. rewrite train_unfold.
  destruct (while_M _ _ _ _ _) as [[[indices log'] t'']|] eqn:Hrun; [|done].
  intros [= -> ->]. exists indices.
  eapply (while_M_inv _ _ P) in Hrun; [| |done].
  - destruct Hrun as [[? _]|(l0 & t0 & HP & _ & Hb)]; [done|].
    destruct l0 as [ind0 log0]. rewrite train_body_run in Hb.
    destruct (most_frequent_pair ind0) as [[p c]|]; [|done].
    destruct (bool_decide _); [by simplify_eq|].
    destruct (stop_early && _); [by simplify_eq|].
    by destruct (next_id t0 <? INT_MAX).
  - intros [ind1 log1] s1 [ind2 log2] s2 HP Hc Hb.
    unfold train_cond, vocab_size in Hc. apply Z.ltb_lt in Hc.
    rewrite train_body_run in Hb.
    destruct (most_frequent_pair ind1) as [[p c]|] eqn:Hmf; [|done].
    destruct (bool_decide (p.1 = -1 ∧ p.2 = -1)) eqn:Hsent; [done|].
    apply bool_decide_eq_false in Hsent.
    destruct (stop_early && _); [done|].
    destruct (Z.ltb_spec (next_id s1) INT_MAX); [|done].
    simplify_eq. by eapply Hstep.
Qed.

Lemma next_id_merged p s : next_id (merged_state p s) = next_id s + 1.
Proof. done. Qed.

Lemma max_vocab_size_merged p s :
  max_vocab_size (merged_state p s) = max_vocab_size s.
Proof.
  unfold merged_state, token_touch. cbn.
  destruct (id_to_token s !! p.1); cbn;
    destruct (_ !! p.2); done.
Qed.

Lemma pairs_merged p s :
  pairs (merged_state p s) = <[p := next_id s]> (pairs s).
Proof.
  unfold merged_state, token_touch. cbn.
  destruct (id_to_token s !! p.1); cbn;
    destruct (_ !! p.2); done.
Qed.

(** On a corpus that is not empty and whose length fits an [int], [train]
    returns. *)
Lemma train_total `{UnorderedIteration} input stop_early t :
  input ≠ [] → size input ≤ INT_MAX → max_vocab_size t ≤ INT_MAX →
  ∃ log t', train input stop_early t = Done (log, t').
Proof.
  intros Hne Hlen Hmax. rewrite train_unfold.
  destruct (while_M_total train_cond (train_body stop_early)
    (λ l s, l.1 ≠ [] ∧ size l.1 ≤ INT_MAX ∧ max_vocab_size s = max_vocab_size t)
    (λ l s, Z.to_nat (max_vocab_size t - next_id s)))
    with (fuel := Z.to_nat (max_vocab_size t - next_id t))
         (l := (string_to_byte input, @nil merge_event)) (t := t)
    as ([ind log] & t' & Hrun).
  - intros [ind log] s (Hind & Hsz & Hm). cbn [fst] in *.
    unfold train_cond, vocab_size. rewrite Hm. intros Hc%Z.ltb_lt.
    split; [lia|]. rewrite train_body_run.
    destruct (most_frequent_pair_total ind Hind Hsz) as (p & c & ->).
    destruct (bool_decide _); [by do 2 eexists|].
    destruct (stop_early && _); [by do 2 eexists|].
    destruct (Z.ltb_spec (next_id s) INT_MAX); [|lia].
    do 2 eexists. split; [done|]. intros l' [= <-]. cbn [fst].
    rewrite next_id_merged, max_vocab_size_merged.
    split; [|lia]. split; [by apply rewrite_spec_nonempty|]. split; [|done].
    pose proof (rewrite_spec_length p (next_id s) ind). unfold size in *. lia.
  - cbn. split; [by destruct input|]. split; [|done].
    unfold size, string_to_byte in *. by rewrite length_map.
  - done.
  - rewrite Hrun. eauto.
Qed.

Lemma train_fuel `{UnorderedIteration} input stop_early t :
  train input stop_early t ≠ Fault OutOfFuel.
Proof.
  rewrite train_unfold.
  pose proof (while_M_fuel train_cond (train_body stop_early)
    (λ _ s, max_vocab_size s = max_vocab_size t)
    (λ _ s, Z.to_nat (max_vocab_size t - next_id s))
    ) as Hfuel.
  destruct (while_M _ _ _ _ _) as [[l t']|e] eqn:Hrun; [done|].
  intros [= ->]. revert Hrun. apply Hfuel; [|done..].
  intros [ind log] s Hm. unfold train_cond, vocab_size. rewrite Hm.
  intros Hc%Z.ltb_lt. split; [lia|]. rewrite train_body_run.
  pose proof (most_frequent_pair_fuel ind) as Hmf.
  destruct (most_frequent_pair ind) as [[p c]|e];
    [|by split; [intros [= ->]|]].
  destruct (bool_decide _); [done|].
  destruct (stop_early && _); [done|].
  destruct (next_id s <? INT_MAX); [|done]. split; [done|].
  intros l' t' [= <- <-]. rewrite next_id_merged, max_vocab_size_merged.
  split; [done|lia].
Qed.

(** C7 (as the code has it): [train] returns on every corpus that is not
    empty (and fits an [int]); when it returns, [vocab_size] has not gone
    down, has grown by exactly the number of accepted merges, the merge
    number [j] of the call got the ID [vocab_size + j], and [vocab_size]
    is at most [max_vocab_size] unless it was above it before the call. *)
Theorem train_vocab_growth `{UnorderedIteration} input stop_early t :
  (input ≠ [] → size input ≤ INT_MAX → max_vocab_size t ≤ INT_MAX →
   ∃ log t', train input stop_early t = Done (log, t')) ∧
  (∀ log t', train input stop_early t = Done (log, t') →
     max_vocab_size t' = max_vocab_size t ∧
     vocab_size t ≤ vocab_size t' ∧
     vocab_size t' = vocab_size t + size log ∧
     vocab_size t' ≤ Z.max (max_vocab_size t) (vocab_size t) ∧
     ∀ j e, log !! j = Some e → e.1.2 = vocab_size t + Z.of_nat j).
Proof.
  split; [apply train_total|]. intros log t' Hrun. unfold vocab_size, size.
  destruct (train_run_inv stop_early
    (λ l s, max_vocab_size s = max_vocab_size t ∧
            next_id s = next_id t + Z.of_nat (length l.2) ∧
            next_id s ≤ Z.max (max_vocab_size t) (next_id t) ∧
            ∀ j e, l.2 !! j = Some e → e.1.2 = next_id t + Z.of_nat j)
    input t log t') as (ind & Hm & Hn & Hle & Hids); [| |done|].
  - cbn. split; [done|]. split; [lia|]. split; [lia|]. by intros j e.
  - intros ind lg s p c (Hm & Hn & Hle & Hids) Hroom _ _ _. cbn [fst snd] in *.
    rewrite next_id_merged, max_vocab_size_merged, length_app. cbn [length].
    split; [done|]. split; [lia|]. split; [lia|]. intros j e.
    destruct (decide (j < length lg)%nat) as [Hj|Hj].
    + rewrite lookup_app_l by done. apply Hids.
    + rewrite lookup_app_r by lia.
      destruct (j - length lg)%nat as [|k] eqn:Hk; [|done].
      intros [= <-]. cbn. lia.
  - cbn [snd] in *. repeat split; [done|lia|done|done|done].
Qed.

Lemma train_vocab_growth_witness :
  ∃ log t',
    @train listing_order (str "aaaa") false (reset 257) = Done (log, t') ∧
    max_vocab_size t' = max_vocab_size (reset 257) ∧
    vocab_size (reset 257) ≤ vocab_size t' ∧
    vocab_size t' = vocab_size (reset 257) + size log ∧
    vocab_size t'
    ≤ Z.max (max_vocab_size (reset 257)) (vocab_size (reset 257)) ∧
    ∀ j e, log !! j = Some e → e.1.2 = vocab_size (reset 257) + Z.of_nat j.
Proof.
  destruct (proj1 (@train_vocab_growth listing_order (str "aaaa") false
                     (reset 257))) as (log & t' & Hrun);
    [done|by vm_compute|by vm_compute|].
  exists log, t'. split; [done|].
  by apply (proj2 (@train_vocab_growth listing_order (str "aaaa") false
                     (reset 257))).
Defined.

(** C7 (as stated) fails: special tokens take IDs without regard to
    [max_vocab_size], so [vocab_size] can be above it before and after
    [train]. *)
Lemma train_above_max_vocab_size :
  (t0 ← construct 257;
   '(_, t1) ← register_special_token (str "<A>") t0;
   '(_, t2) ← register_special_token (str "<B>") t1;
   '(log, t3) ← @train listing_order (str "ab") false t2;
   Done (log, max_vocab_size t3, vocab_size t2, vocab_size t3))
  = Done ([], 257, 258, 258).
Proof. vm_compute. reflexivity. Qed.

Lemma record_merges_snoc m log e :
  record_merges m (log ++ [e]) = <[e.1.1 := e.1.2]> (record_merges m log).
Proof. unfold record_merges. by rewrite foldl_app. Qed.

(** C8 (as the code has it): within one call of [train] no pair is
    selected twice, so the call records pairwise distinct keys; the merge
    table after the call is the table before it with the entries of the
    call written over it in order, so a key that an earlier call recorded
    and this call selects again gets the new ID. *)
Theorem train_call_distinct_keys `{UnorderedIteration} input stop_early
    t log t' :
  256 ≤ next_id t →
  train input stop_early t = Done (log, t') →
  NoDup (log.*1.*1) ∧ pairs t' = record_merges (pairs t) log.
Proof.
  intros Hn Hrun.
  destruct (train_run_inv stop_early
    (λ l s, (∀ x, x ∈ l.1 → x < next_id s) ∧
            NoDup (l.2.*1.*1) ∧
            (∀ q, q ∈ l.2.*1.*1 →
               (q ∉ adjacent_pairs l.1) ∧ q.1 < next_id s ∧ q.2 < next_id s) ∧
            pairs s = record_merges (pairs t) l.2)
    input t log t') as (ind & _ & Hnd & _ & Hpairs); [| |done|done].
  - cbn. split.
    { intros x (c & -> & _)%list_elem_of_fmap. unfold byte_to_int.
      pose proof (nat_ascii_bounded c). lia. }
    split; [constructor|]. split; [by intros q ?%elem_of_nil|done].
  - intros ind lg s p c (Hlt & Hnd & Hlog & Hpairs) _ Hmf Hsent _.
    cbn [fst snd] in *. rewrite next_id_merged, pairs_merged.
    destruct (most_frequent_pair_Done _ _ _ Hmf) as [[-> _]|Hadj];
      [by destruct Hsent|].
    destruct p as [a b]. destruct (adjacent_pairs_elem _ _ _ Hadj) as [Ha Hb].
    apply Hlt in Ha, Hb.
    split.
    { intros x [->|Hx]%rewrite_spec_elem; [lia|]. apply Hlt in Hx. lia. }
    rewrite !fmap_app. cbn [fmap list_fmap fst].
    split.
    { apply NoDup_app. split; [done|]. split; [|apply NoDup_singleton].
      intros q Hq ->%list_elem_of_singleton. by destruct (Hlog _ Hq). }
    split.
    { intros q [Hq| ->%list_elem_of_singleton]%elem_of_app.
      - destruct (Hlog _ Hq) as (Hnadj & ? & ?).
        split; [|lia]. intros [?|[?|[? _]]]%rewrite_spec_adjacent; [lia..|done].
      - cbn. split; [|lia].
        intros [?|[?|[_ ?]]]%rewrite_spec_adjacent; cbn in *; [lia..|done]. }
    by rewrite record_merges_snoc, Hpairs.
Qed.

Lemma train_call_distinct_keys_witness :
  ∃ log t',
    @train listing_order (str "abababcdcd") false (reset 300) = Done (log, t') ∧
    NoDup (log.*1.*1) ∧
    pairs t' = record_merges (pairs (reset 300)) log.
Proof.
  destruct (@train listing_order (str "abababcdcd") false (reset 300))
    as [[log t']|e] eqn:Hrun; [|by vm_compute in Hrun].
  exists log, t'. split; [done|].
  apply (@train_call_distinct_keys listing_order (str "abababcdcd") false
           (reset 300)); [by vm_compute|done].
Defined.

(** C8 (as stated) fails: a second call of [train] starts again from the
    bytes of its corpus, selects the pair (97, 97) that the first call
    recorded with the ID 256, and records it again with the ID 257. *)
Lemma train_twice_overwrites :
  ('(log1, t1) ← @train listing_order (str "aa") false (reset 1000);
   '(log2, t2) ← @train listing_order (str "aa") false t1;
   Done (log1, pairs t1 !! (97, 97), log2, pairs t2 !! (97, 97)))
  = Done ([((97, 97), 256, str "aa")], Some 256,
          [((97, 97), 257, str "aa")], Some 257).
Proof. vm_compute. reflexivity. Qed.

(** ** _encode_non_special *)

Lemma merge_pass_cons2 m a b r :
  merge_pass m (a :: b :: r)
  = match m !! (a, b) with
    | Some v => (v :: (merge_pass m r).1, true)
    | None => (a :: (merge_pass m (b :: r)).1, (merge_pass m (b :: r)).2)
    end.
Proof. done. Qed.

Lemma merge_pass_length m l : (length (merge_pass m l).1 ≤ length l)%nat.
Proof.
  induction l as [| |a b r IH1 IH2] using pass_ind; [done..|].
  rewrite merge_pass_cons2. destruct (m !! (a, b)); cbn in *; lia.
Qed.

Lemma merge_pass_changed m l :
  (merge_pass m l).2 = true → (length (merge_pass m l).1 < length l)%nat.
Proof.
  induction l as [| |a b r IH1 IH2] using pass_ind; [done..|].
  rewrite merge_pass_cons2. destruct (m !! (a, b)); cbn [fst snd length].
  - intros _. pose proof (merge_pass_length m r). lia.
  - intros ?%IH2. cbn in *. lia.
Qed.

Lemma merge_pass_unchanged m l :
  (merge_pass m l).2 = false →
  (merge_pass m l).1 = l ∧ ∀ q, q ∈ adjacent_pairs l → m !! q = None.
Proof.
  induction l as [| |a b r IH1 IH2] using pass_ind;
    [by split; [|intros ? ?%elem_of_nil]..|].
  rewrite merge_pass_cons2, adjacent_pairs_cons.
  destruct (m !! (a, b)) eqn:Hab; cbn [fst snd]; [done|].
  intros [Heq Hkeys]%IH2. split; [by rewrite Heq|].
  intros q [->|?]%elem_of_cons; auto.
Qed.

Lemma merge_pass_nonempty m l : l ≠ [] → (merge_pass m l).1 ≠ [].
Proof.
  destruct l as [|a [|b r]]; [done..|]. intros _.
  rewrite merge_pass_cons2. by destruct (m !! (a, b)).
Qed.

Lemma while_M_false {L} fuel cond (body : L → M (ctl L)) l t :
  cond l t = false → while_M fuel cond body l t = Done (l, t).
Proof.
  intros Hc. destruct fuel; [rewrite while_M_O|rewrite while_M_S];
    by rewrite Hc.
Qed.

Lemma vec_at_middle pre a rest :
  vec_at (pre ++ a :: rest) (size pre) = Done a.
Proof. apply vec_at_lookup, list_lookup_middle. done. Qed.

Lemma vec_at_middle_succ pre a b rest :
  vec_at (pre ++ a :: b :: rest) (size pre + 1) = Done b.
Proof.
  apply vec_at_succ.
  replace (pre ++ a :: b :: rest) with ((pre ++ [a]) ++ b :: rest)
    by by rewrite <- app_assoc.
  apply list_lookup_middle. rewrite length_app. cbn. lia.
Qed.

(** One iteration of the inner loop at a position that has a right
    neighbour. *)
Lemma pass_body_run pre a b r changes_made t :
  pass_body (pre ++ a :: b :: r, size pre, changes_made) t =
  Done (Next match pairs t !! (a, b) with
             | Some v => (pre ++ v :: r, size pre + 1, true)
             | None => (pre ++ a :: b :: r, size pre + 1, changes_made)
             end, t).
Proof.
  unfold pass_body. rewrite M_bind_unfold. unfold lift at 1.
  rewrite vec_at_middle. rewrite M_bind_unfold. unfold lift at 1.
  rewrite vec_at_middle_succ. rewrite M_bind_unfold. unfold gets at 1.
  destruct (pairs t !! (a, b)) as [v|] eqn:Hab.
  - rewrite bool_decide_eq_true_2 by eauto.
    rewrite M_bind_unfold, (pairs_index_Some _ _ _ Hab).
    rewrite M_bind_unfold. unfold lift at 1, vec_set, size.
    rewrite length_app. cbn [length].
    destruct (Z.leb_spec 0 (Z.of_nat (length pre))); [|lia].
    destruct (Z.ltb_spec (Z.of_nat (length pre))
                (Z.of_nat (length pre + S (S (length r))))); [|lia].
    cbn [andb]. rewrite Nat2Z.id.
    rewrite <- (Nat.add_0_r (length pre)) at 1. rewrite insert_app_r.
    cbn [insert list_insert].
    rewrite M_bind_unfold. unfold lift at 1, vec_erase, size.
    rewrite length_app. cbn [length].
    destruct (Z.leb_spec 0 (Z.of_nat (length pre) + 1)); [|lia].
    destruct (Z.ltb_spec (Z.of_nat (length pre) + 1)
                (Z.of_nat (length pre + S (S (length r))))); [|lia].
    cbn [andb].
    replace (Z.to_nat (Z.of_nat (length pre) + 1))
      with (length (pre ++ [v])) by (rewrite length_app; cbn; lia).
    replace (pre ++ v :: b :: r) with ((pre ++ [v]) ++ b :: r)
      by by rewrite <- app_assoc.
    rewrite delete_middle, <- app_assoc. done.
  - by rewrite bool_decide_eq_false_2 by apply is_Some_None.
Qed.

(** The inner loop from position [length pre] on: the elements before the
    position stay, the rest is rewritten as [merge_pass] says, and the
    object is not changed. *)
Lemma pass_loop t fuel pre rest changes_made :
  pre ++ rest ≠ [] → (length rest ≤ fuel)%nat →
  ∃ i, while_M fuel pass_cond pass_body (pre ++ rest, size pre, changes_made) t
       = Done ((pre ++ (merge_pass (pairs t) rest).1, i,
                changes_made || (merge_pass (pairs t) rest).2), t).
Proof.
  revert fuel pre changes_made.
  induction rest as [| |a b r IH1 IH2] using pass_ind;
    intros fuel pre changes_made Hne Hfuel.
  - exists (size pre). rewrite while_M_false; [by rewrite orb_false_r|].
    unfold pass_cond, size. cbn [fst snd]. rewrite app_nil_r in *.
    rewrite size_t_sub_pos by (destruct pre; [done|cbn; lia]).
    apply Z.ltb_ge. lia.
  - exists (size pre). rewrite while_M_false; [by rewrite orb_false_r|].
    unfold pass_cond, size. cbn [fst snd].
    rewrite size_t_sub_pos by (rewrite length_app; cbn; lia).
    apply Z.ltb_ge. rewrite length_app. cbn. lia.
  - destruct fuel as [|fuel]; [cbn in Hfuel; lia|].
    rewrite while_M_S. unfold pass_cond at 1, size at 1 2. cbn [fst snd].
    rewrite size_t_sub_pos by (rewrite length_app; cbn; lia).
    destruct (Z.ltb_spec (Z.of_nat (length pre))
                (Z.of_nat (length (pre ++ a :: b :: r)) - 1)) as [_|Hge];
      [|rewrite length_app in Hge; cbn in Hge; lia].
    fold (size pre). rewrite pass_body_run, merge_pass_cons2.
    destruct (pairs t !! (a, b)) as [v|].
    + replace (pre ++ v :: r) with ((pre ++ [v]) ++ r)
        by by rewrite <- app_assoc.
      replace (size pre + 1) with (size (pre ++ [v]))
        by (unfold size; rewrite length_app; cbn; lia).
      destruct (IH1 fuel (pre ++ [v]) true) as [i ->].
      { by destruct pre. }
      { cbn in Hfuel. lia. }
      exists i. cbn [fst snd]. by rewrite <- app_assoc, orb_true_r.
    + replace (pre ++ a :: b :: r) with ((pre ++ [a]) ++ b :: r)
        by by rewrite <- app_assoc.
      replace (size pre + 1) with (size (pre ++ [a]))
        by (unfold size; rewrite length_app; cbn; lia).
      destruct (IH2 fuel (pre ++ [a]) changes_made) as [i ->].
      { by destruct pre. }
      { cbn in Hfuel |- *. lia. }
      exists i. cbn [fst snd]. by rewrite <- !app_assoc.
Qed.

Lemma encode_pass_run indices changes_made t :
  indices ≠ [] →
  encode_pass (indices, changes_made) t
  = Done (Next (merge_pass (pairs t) indices), t).
Proof.
  intros Hne. unfold encode_pass. rewrite M_bind_unfold.
  destruct (pass_loop t (S (length indices)) [] indices false) as [i Hrun];
    [done|lia|].
  cbn [app] in Hrun. change (size []) with 0 in Hrun. rewrite Hrun.
  cbn. by destruct (merge_pass (pairs t) indices).
Qed.

Lemma encode_loop t fuel l :
  l ≠ [] → (length l < fuel)%nat →
  ∃ ids,
    while_M fuel (λ l _, l.2) encode_pass (l, true) t = Done ((ids, false), t) ∧
    passes (pairs t) l ids ∧
    merge_pass (pairs t) ids = (ids, false).
Proof.
  revert l. induction fuel as [|fuel IH]; intros l Hne Hfuel; [lia|].
  rewrite while_M_S. cbn [snd]. rewrite encode_pass_run by done.
  destruct (merge_pass (pairs t) l) as [l' ch] eqn:Hpass.
  pose proof (merge_pass_nonempty (pairs t) l Hne) as Hne'.
  rewrite Hpass in Hne'. cbn in Hne'.
  destruct ch.
  - pose proof (merge_pass_changed (pairs t) l) as Hlt.
    rewrite Hpass in Hlt. cbn in Hlt.
    destruct (IH l' Hne') as (ids & Hrun & Hp & Hst); [lia|].
    exists ids. split; [done|]. split; [|done]. by eapply passes_step.
  - rewrite while_M_false by done.
    pose proof (merge_pass_unchanged (pairs t) l) as Hun.
    rewrite Hpass in Hun. cbn in Hun. destruct Hun as [-> _]; [done|].
    exists l. split; [done|]. split; [constructor|done].
Qed.

Lemma encode_non_special_run input t :
  input ≠ [] →
  ∃ ids,
    _encode_non_special input t = Done (ids, t) ∧
    passes (pairs t) (string_to_byte input) ids ∧
    merge_pass (pairs t) ids = (ids, false).
Proof.
  intros Hne. unfold _encode_non_special, do_while_M.
  assert (Hb : string_to_byte input ≠ []) by by destruct input.
  rewrite !M_bind_unfold, encode_pass_run by done.
  destruct (merge_pass (pairs t) (string_to_byte input)) as [l ch] eqn:Hpass.
  pose proof (merge_pass_nonempty (pairs t) _ Hb) as Hne'.
  rewrite Hpass in Hne'. cbn in Hne'.
  destruct ch.
  - pose proof (merge_pass_changed (pairs t) (string_to_byte input)) as Hlt.
    rewrite Hpass in Hlt. cbn in Hlt.
    destruct (encode_loop t (length (string_to_byte input)) l Hne')
      as (ids & -> & Hp & Hst); [lia|].
    exists ids. split; [done|]. split; [|done]. by eapply passes_step.
  - rewrite while_M_false by done.
    pose proof (merge_pass_unchanged (pairs t) (string_to_byte input)) as Hun.
    rewrite Hpass in Hun. cbn in Hun. destruct Hun as [-> _]; [done|].
    exists (string_to_byte input). split; [done|]. split; [constructor|done].
Qed.

Lemma encode_non_special_empty t :
  _encode_non_special [] t = Fault OutOfBounds.
Proof. done. Qed.

(** [tokenizer_after_aa] is what [train] leaves. *)
Example train_aa :
  @train listing_order (str "aa") false (reset 1000)
  = Done ([((97, 97), 256, str "aa")], tokenizer_after_aa).
Proof. vm_compute. reflexivity. Qed.

(** C5: on a span that is not empty, [_encode_non_special] turns the span
    into its bytes and runs left-to-right passes over the merge table, each
    of which replaces something, until a pass replaces nothing; the
    sequence it returns holds no pair of neighbours that is a key of the
    merge table.  On the empty span it reads past the end of an empty
    sequence ([indices.size() - 1] wraps around) instead of returning the
    empty sequence. *)
Theorem encode_non_special_fixpoint t :
  _encode_non_special [] t = Fault OutOfBounds ∧
  ∀ input,
    input ≠ [] →
    ∃ ids,
      _encode_non_special input t = Done (ids, t) ∧
      passes (pairs t) (string_to_byte input) ids ∧
      merge_pass (pairs t) ids = (ids, false) ∧
      ∀ q, q ∈ adjacent_pairs ids → pairs t !! q = None.
Proof.
  split; [apply encode_non_special_empty|]. intros input Hne.
  destruct (encode_non_special_run input t Hne) as (ids & Hrun & Hp & Hst).
  exists ids. split; [done|]. split; [done|]. split; [done|].
  apply (merge_pass_unchanged (pairs t) ids). by rewrite Hst.
Qed.

Lemma encode_non_special_fixpoint_witness :
  _encode_non_special [] tokenizer_after_aa = Fault OutOfBounds ∧
  _encode_non_special (str "aaaaa") tokenizer_after_aa
  = Done ([256; 256; 97], tokenizer_after_aa) ∧
  passes (pairs tokenizer_after_aa) (string_to_byte (str "aaaaa"))
    [256; 256; 97] ∧
  merge_pass (pairs tokenizer_after_aa) [256; 256; 97]
  = ([256; 256; 97], false) ∧
  ∀ q, q ∈ adjacent_pairs [256; 256; 97] →
       pairs tokenizer_after_aa !! q = None.
Proof.
  destruct (encode_non_special_fixpoint tokenizer_after_aa) as [Hempty Hfix].
  split; [exact Hempty|].
  destruct (Hfix (str "aaaaa")) as (ids & Hrun & Hp & Hst & Hq);
    [discriminate|].
  assert (_encode_non_special (str "aaaaa") tokenizer_after_aa
          = Done ([256; 256; 97], tokenizer_after_aa)) as Hrun'
    by (vm_compute; reflexivity).
  pose proof (f_equal (λ r, match r with Done (i, _) => i | Fault _ => [] end)
                (eq_trans (eq_sym Hrun) Hrun')) as Heq.
  cbv beta iota in Heq. rewrite <- Heq.
  exact (conj Hrun (conj Hp (conj Hst Hq))).
Defined.

(** ** encode leaves the object as it is *)

Lemma encode_non_special_frame input t ids t' :
  _encode_non_special input t = Done (ids, t') → t' = t.
Proof.
  destruct input as [|c input].
  - by rewrite encode_non_special_empty.
  - destruct (encode_non_special_run (c :: input) t) as (ids' & -> & _);
      [done|]. by intros [= _ <-].
Qed.

Lemma encode_split_frame indices split t ids t' :
  encode_split indices split t = Done (ids, t') → t' = t.
Proof.
  unfold encode_split. rewrite M_bind_unfold. unfold gets at 1.
  destruct (special_to_id t !! split) as [id|] eqn:Hid.
  - rewrite bool_decide_eq_true_2 by eauto.
    rewrite M_bind_unfold, (special_to_id_index_Some _ _ _ Hid).
    by intros [= _ <-].
  - rewrite bool_decide_eq_false_2 by apply is_Some_None.
    rewrite M_bind_unfold.
    destruct (_encode_non_special split t) as [[ns t1]|] eqn:Hns; [|done].
    apply encode_non_special_frame in Hns as ->. by intros [= _ <-].
Qed.

Lemma encode_splits_frame splits indices t ids t' :
  for_each encode_split indices splits t = Done (ids, t') → t' = t.
Proof.
  revert indices t. induction splits as [|split splits IH]; intros indices t.
  - by intros [= _ <-].
  - cbn [for_each]. rewrite M_bind_unfold.
    destruct (encode_split indices split t) as [[ids1 t1]|] eqn:H1; [|done].
    apply encode_split_frame in H1 as ->. apply IH.
Qed.

Lemma encode_unfold `{UnorderedIteration} input t :
  encode input t =
  if bool_decide (special_to_id t = ∅) then _encode_non_special input t
  else
    match regex_compile (build_pattern
            (iter_specials (map_to_list (special_to_id t))).*1) with
    | Fault e => Fault e
    | Done special_pattern =>
        match token_iterator (S (length input)) special_pattern true input with
        | Fault e => Fault e
        | Done splits => for_each encode_split [] splits t
        end
    end.
Proof.
  unfold encode. rewrite M_bind_unfold. unfold gets at 1.
  destruct (bool_decide (special_to_id t = ∅)); [done|].
  rewrite M_bind_unfold. unfold gets at 1.
  rewrite M_bind_unfold. unfold lift at 1.
  destruct (regex_compile _); [|done].
  rewrite M_bind_unfold. unfold lift at 1.
  by destruct (token_iterator _ _ _ _).
Qed.

Lemma encode_frame `{UnorderedIteration} input t ids t' :
  encode input t = Done (ids, t') → t' = t.
Proof.
  rewrite encode_unfold.
  destruct (bool_decide _); [by apply encode_non_special_frame|].
  destruct (regex_compile _); [|done].
  destruct (token_iterator _ _ _ _); [|done].
  by apply encode_splits_frame.
Qed.

Lemma encode_with_fragment `{UnorderedIteration} input :
  encode input = @encode_with _ fragment_regex input.
Proof. reflexivity. Qed.

Lemma encode_with_unfold `{UnorderedIteration} `{RegexLibrary} input t :
  encode_with input t =
  if bool_decide (special_to_id t = ∅) then _encode_non_special input t
  else
    match regex_construct (build_pattern
            (iter_specials (map_to_list (special_to_id t))).*1) with
    | Fault e => Fault e
    | Done special_pattern =>
        match regex_tokens special_pattern input with
        | Fault e => Fault e
        | Done splits => for_each encode_split [] splits t
        end
    end.
Proof.
  unfold encode_with. rewrite M_bind_unfold. unfold gets at 1.
  destruct (bool_decide (special_to_id t = ∅)); [done|].
  rewrite M_bind_unfold. unfold gets at 1.
  rewrite M_bind_unfold. unfold lift at 1.
  destruct (regex_construct _); [|done].
  rewrite M_bind_unfold. unfold lift at 1.
  by destruct (regex_tokens _ _).
Qed.

Lemma encode_with_frame `{UnorderedIteration} `{RegexLibrary} input t ids t' :
  encode_with input t = Done (ids, t') → t' = t.
Proof.
  rewrite encode_with_unfold.
  destruct (bool_decide _); [by apply encode_non_special_frame|].
  destruct (regex_construct _); [|done].
  destruct (regex_tokens _ _); [|done].
  by apply encode_splits_frame.
Qed.

(** C9: [encode] does not change the object: whenever it returns, the
    ID table, the merge table, the tables of the special tokens and the ID
    counter are what they were.  This holds whatever the regex library
    does with the pattern, that is for every state and all special tokens
    ([encode_with]), and for the fragment of [encode]. *)
Theorem encode_leaves_vocabulary `{UnorderedIteration} `{RegexLibrary}
    input t ids t' :
  encode_with input t = Done (ids, t') ∨ encode input t = Done (ids, t') →
  t' = t ∧
  id_to_token t' = id_to_token t ∧ pairs t' = pairs t ∧
  special_to_id t' = special_to_id t ∧ id_to_special t' = id_to_special t ∧
  next_id t' = next_id t.
Proof. by intros [->%encode_with_frame| ->%encode_frame]. Qed.

Lemma encode_leaves_vocabulary_witness :
  ∃ ids t',
    @encode_with listing_order digit_class_regex (str "abc")
      tokenizer_with_digit_class = Done (ids, t') ∧
    t' = tokenizer_with_digit_class ∧
    id_to_token t' = id_to_token tokenizer_with_digit_class ∧
    pairs t' = pairs tokenizer_with_digit_class ∧
    special_to_id t' = special_to_id tokenizer_with_digit_class ∧
    id_to_special t' = id_to_special tokenizer_with_digit_class ∧
    next_id t' = next_id tokenizer_with_digit_class.
Proof.
  destruct (@encode_with listing_order digit_class_regex (str "abc")
              tokenizer_with_digit_class)
    as [[ids t']|e] eqn:Hrun; [|by vm_compute in Hrun].
  exists ids, t'. split; [done|].
  apply (@encode_leaves_vocabulary listing_order digit_class_regex (str "abc")
           tokenizer_with_digit_class ids).
  by left.
Defined.

(** A state outside the fragment: the member functions build
    [tokenizer_with_digit_class], and the pattern of its special token is
    one that [regex_compile] does not read; [encode_with] covers it. *)
Example digit_class_reachable : @reachable listing_order tokenizer_with_digit_class.
Proof.
  apply (reach_register (str "\d") (reset 1000)).
  - by apply (reach_construct 1000).
  - vm_compute. reflexivity.
Qed.

Example encode_outside_fragment input :
  @encode listing_order input tokenizer_with_digit_class
  = Fault RegexUnsupported.
Proof. rewrite encode_unfold. reflexivity. Qed.

(** ** Well-formed objects *)

Lemma reset_tokens_lookup (f : nat → std_string) l (m : gmap Z std_string) n :
  n ∈ l → foldl (λ m i, <[Z.of_nat i := f i]> m) m l !! Z.of_nat n = Some (f n).
Proof.
  induction l as [|x l IH] using rev_ind; [by intros ?%elem_of_nil|].
  rewrite foldl_app. cbn. intros [Hn| ->%list_elem_of_singleton]%elem_of_app.
  - destruct (decide (x = n)) as [->|Hne]; [apply lookup_insert_eq|].
    rewrite lookup_insert_ne by lia. by apply IH.
  - apply lookup_insert_eq.
Qed.

Lemma int_to_byte_to_int c : int_to_byte (byte_to_int c) = c.
Proof.
  unfold int_to_byte, byte_to_int. pose proof (nat_ascii_bounded c).
  rewrite Z.mod_small by lia. by rewrite Nat2Z.id, ascii_nat_embedding.
Qed.

Lemma wf_reset max : wf (reset max).
Proof.
  split; unfold reset;
    cbn [id_to_token pairs id_to_special special_to_id next_id]; try done.
  intros c. unfold byte_to_int.
  rewrite (reset_tokens_lookup (λ i, [int_to_byte (Z.of_nat i)])).
  - f_equal. f_equal. apply int_to_byte_to_int.
  - apply elem_of_seq. pose proof (nat_ascii_bounded c). lia.
Qed.

Lemma wf_register token t t' :
  wf t → register_special_token token t = Done (tt, t') → wf t'.
Proof.
  intros Hwf Hreg.
  destruct (special_to_id t !! token) as [id|] eqn:Hid.
  { rewrite (register_registered _ _ _ Hid) in Hreg. by simplify_eq. }
  destruct (Z.lt_ge_cases (next_id t) INT_MAX) as [Hn|Hn];
    [|by rewrite register_overflow in Hreg].
  rewrite register_fresh in Hreg by done. simplify_eq.
  destruct Hwf as [W1 W2 W3 W4 W5]. split; cbn.
  - lia.
  - done.
  - intros id s. destruct (decide (next_id t = id)) as [<-|Hne].
    + intros _. lia.
    + rewrite lookup_insert_ne by done. intros ?%W3. lia.
  - intros tok id. destruct (decide (token = tok)) as [->|Hne].
    + rewrite lookup_insert_eq. intros [= <-]. apply lookup_insert_eq.
    + rewrite lookup_insert_ne by done. intros Htok.
      pose proof (W4 _ _ Htok) as Hs. pose proof (W3 _ _ Hs).
      rewrite lookup_insert_ne by lia. done.
  - intros a b v Hab. destruct (W5 _ _ _ Hab) as (?&?&?&?&?&?&?).
    rewrite !lookup_insert_ne by lia. repeat split; [lia..|done|done|done|done].
Qed.

Lemma wf_decode_touch t id : wf t → wf (decode_touch t id).
Proof.
  intros Hwf. unfold decode_touch.
  destruct (id_to_special t !! id) eqn:Hs; [done|].
  destruct (id_to_token t !! id) eqn:Ht; [done|].
  assert (Hkeep : ∀ j tok, id_to_token t !! j = Some tok →
                           <[id := []]> (id_to_token t) !! j = Some tok).
  { intros j tok Hj. rewrite lookup_insert_ne; [done|]. by intros ->; simplify_eq. }
  destruct Hwf as [W1 W2 W3 W4 W5]. split; cbn; [done|auto|done|done|].
  intros a b v Hab. destruct (W5 _ _ _ Hab) as (?&?&?&?&?&?&ta&tb&?&?&?).
  repeat split; [done..|]. exists ta, tb. auto.
Qed.

Lemma wf_decode ids t s t' : wf t → decode ids t = Done (s, t') → wf t'.
Proof.
  rewrite decode_spec. intros Hwf [= _ <-]. revert t Hwf.
  induction ids as [|id ids IH]; intros t Hwf; [done|].
  cbn. by apply IH, wf_decode_touch.
Qed.

Lemma merged_state_known p t :
  is_Some (id_to_token t !! p.1) → is_Some (id_to_token t !! p.2) →
  merged_state p t
  = set_next_id (next_id t + 1)
      (set_id_to_token
         <[next_id t := token_or_empty t p.1 ++ token_or_empty t p.2]>
         (set_pairs <[p := next_id t]> t)).
Proof.
  intros H1 H2. unfold merged_state.
  by rewrite (token_touch_known _ _ H1), (token_touch_known _ _ H2).
Qed.

Lemma wf_merged a b t :
  wf t → symbol_id t a → symbol_id t b →
  wf (merged_state (a, b) t) ∧
  symbol_id (merged_state (a, b) t) (next_id t) ∧
  ∀ x, symbol_id t x → symbol_id (merged_state (a, b) t) x.
Proof.
  intros [W1 W2 W3 W4 W5] (Ha & Has & [ta Hta]) (Hb & Hbs & [tb Htb]).
  rewrite merged_state_known by (cbn; eauto).
  unfold token_or_empty. cbn [fst snd]. rewrite Hta, Htb. cbn [default].
  assert (Hfresh : id_to_special t !! next_id t = None).
  { destruct (id_to_special t !! next_id t) eqn:Hs; [|done].
    apply W3 in Hs. lia. }
  split; [split; cbn|split].
  - lia.
  - intros c. rewrite lookup_insert_ne; [done|].
    unfold byte_to_int. pose proof (nat_ascii_bounded c). lia.
  - intros id s ?%W3. lia.
  - done.
  - intros a' b' v. destruct (decide ((a, b) = (a', b'))) as [[= <- <-]|Hne].
    + rewrite lookup_insert_eq. intros [= <-].
      repeat split; [lia..|done|done|done|].
      exists ta, tb. rewrite !lookup_insert_ne by lia.
      by rewrite lookup_insert_eq.
    + rewrite lookup_insert_ne by done. intros Hab.
      destruct (W5 _ _ _ Hab) as (?&?&?&?&?&?&ta'&tb'&?&?&?).
      repeat split; [lia..|done|done|done|].
      exists ta', tb'. by rewrite !lookup_insert_ne by lia.
  - unfold symbol_id. cbn. rewrite lookup_insert_eq. split; [lia|eauto].
  - intros x (Hx & Hxs & Hxt). unfold symbol_id. cbn.
    rewrite lookup_insert_ne by lia. split; [lia|done].
Qed.

Lemma wf_train `{UnorderedIteration} input stop_early t log t' :
  wf t → train input stop_early t = Done (log, t') → wf t'.
Proof.
  intros Hwf Hrun.
  destruct (train_run_inv stop_early
    (λ l s, wf s ∧ ∀ x, x ∈ l.1 → symbol_id s x) input t log t')
    as (ind & Hwf' & _); [| |done|done].
  - cbn. split; [done|].
    intros x (c & -> & _)%list_elem_of_fmap. unfold symbol_id.
    rewrite (wf_bytes _ Hwf). split; [|split; [|by eauto]].
    + pose proof (wf_next_id _ Hwf). unfold byte_to_int.
      pose proof (nat_ascii_bounded c). lia.
    + destruct (id_to_special t !! byte_to_int c) eqn:Hs; [|done].
      apply (wf_special_ids _ Hwf) in Hs. unfold byte_to_int in Hs.
      pose proof (nat_ascii_bounded c). lia.
  - intros ind lg s [a b] c [Hwfs Hsym] _ Hmf Hsent _. cbn [fst snd] in *.
    destruct (most_frequent_pair_Done _ _ _ Hmf) as [[[= -> ->] _]|Hadj];
      [by destruct Hsent|].
    destruct (adjacent_pairs_elem _ _ _ Hadj) as [Ha Hb].
    destruct (wf_merged a b s Hwfs (Hsym _ Ha) (Hsym _ Hb))
      as (Hwf' & Hnew & Hold).
    split; [done|]. intros x [->|Hx]%rewrite_spec_elem; auto.
Qed.

Lemma reachable_wf `{UnorderedIteration} t : reachable t → wf t.
Proof.
  induction 1 as [max t Hc| | | |input t ids t' _ IH Henc|].
  - unfold construct in Hc. destruct (max <=? 256); [done|].
    simplify_eq. apply wf_reset.
  - apply wf_reset.
  - by eapply wf_register.
  - by eapply wf_train.
  - by apply encode_frame in Henc as ->.
  - by eapply wf_decode.
Qed.

(** ** The pattern of the special tokens *)

Lemma syntax_char_cases c :
  c ∈ regex_syntax_chars ↔ c = backslash ∨ c ∈ escaped_class.
Proof.
  unfold regex_syntax_chars, escaped_class, backslash, str.
  cbn [list_ascii_of_string]. rewrite !elem_of_cons, !elem_of_nil. tauto.
Qed.

Lemma bar_escaped : "|"%char ∈ escaped_class.
Proof. unfold escaped_class, str. cbn. rewrite !elem_of_cons. tauto. Qed.

Lemma paren_escaped : ")"%char ∈ escaped_class.
Proof. unfold escaped_class, str. cbn. rewrite !elem_of_cons. tauto. Qed.

Lemma escape_cons c token :
  escape (c :: token)
  = (if bool_decide (c ∈ escaped_class) then [backslash; c] else [c])
      ++ escape token.
Proof. done. Qed.

Lemma escape_nonempty token : token ≠ [] → escape token ≠ [].
Proof.
  destruct token as [|c token]; [done|]. intros _. rewrite escape_cons.
  by destruct (bool_decide _).
Qed.

(** Reading an escaped literal gives the literal back. *)
Lemma parse_escape token cur rest :
  backslash ∉ token →
  parse_alternatives cur (escape token ++ rest)
  = parse_alternatives (cur ++ token) rest.
Proof.
  revert cur. induction token as [|c token IH]; intros cur Hbs.
  - by rewrite app_nil_r.
  - apply not_elem_of_cons in Hbs as [Hc Hbs].
    rewrite escape_cons. destruct (bool_decide_reflect (c ∈ escaped_class)) as [Hesc|Hesc].
    + cbn [app parse_alternatives].
      rewrite bool_decide_eq_true_2 by done.
      rewrite bool_decide_eq_true_2 by (apply syntax_char_cases; by right).
      rewrite IH by done. by rewrite <- app_assoc.
    + cbn [app parse_alternatives].
      rewrite bool_decide_eq_false_2 by done.
      rewrite bool_decide_eq_false_2
        by (intros ->; apply Hesc, bar_escaped).
      rewrite bool_decide_eq_false_2
        by (intros ->; apply Hesc, paren_escaped).
      rewrite bool_decide_eq_false_2
        by (intros [?|?]%syntax_char_cases; done).
      rewrite IH by done. by rewrite <- app_assoc.
Qed.

Lemma parse_tail tokens cur :
  cur ≠ [] → Forall literal tokens →
  parse_alternatives cur (pattern_tail tokens) = Some (cur :: tokens).
Proof.
  revert cur. induction tokens as [|token tokens IH]; intros cur Hcur Hlit.
  - unfold pattern_tail. cbn [fmap list_fmap mjoin list_join app parse_alternatives].
    rewrite bool_decide_eq_false_2 by done.
    rewrite bool_decide_eq_false_2 by done.
    rewrite bool_decide_eq_true_2 by done.
    by rewrite bool_decide_eq_false_2 by done.
  - apply Forall_cons in Hlit as [[Hne Hbs] Hlit].
    unfold pattern_tail. cbn [fmap list_fmap mjoin list_join app].
    rewrite <- app_assoc. cbn [app parse_alternatives].
    rewrite bool_decide_eq_false_2 by done.
    rewrite bool_decide_eq_true_2 by done.
    rewrite bool_decide_eq_false_2 by done.
    rewrite parse_escape by done. cbn [app].
    fold (pattern_tail tokens). by rewrite IH.
Qed.

Lemma build_pattern_fold tokens acc :
  1 < size acc → Forall literal tokens →
  foldl (λ pattern token,
           (if 1 <? size pattern then pattern ++ str "|" else pattern)
             ++ escape token) acc tokens
  = acc ++ mjoin ((λ token, "|"%char :: escape token) <$> tokens).
Proof.
  revert acc. induction tokens as [|token tokens IH]; intros acc Hacc Hlit.
  - cbn. by rewrite app_nil_r.
  - apply Forall_cons in Hlit as [_ Hlit]. cbn [foldl].
    destruct (Z.ltb_spec 1 (size acc)); [|lia].
    rewrite IH; [|unfold size in *; rewrite !length_app; lia|done].
    cbn. by rewrite <- !app_assoc.
Qed.

Lemma regex_compile_literals token tokens :
  Forall literal (token :: tokens) →
  regex_compile (build_pattern (token :: tokens)) = Done (token :: tokens).
Proof.
  intros [[Hne Hbs] Hlit]%Forall_cons. unfold build_pattern. cbn [foldl].
  change (1 <? size (str "(")) with false. cbv iota.
  rewrite build_pattern_fold; [|..|done].
  - change (str "(") with ["("%char]. rewrite <- !app_assoc. cbn [app].
    unfold regex_compile. rewrite bool_decide_eq_true_2 by done.
    rewrite parse_escape by done. cbn [app].
    change (str ")") with [")"%char]. fold (pattern_tail tokens).
    by rewrite parse_tail.
  - apply escape_nonempty in Hne. unfold size. rewrite length_app.
    destruct (escape token); [done|]. cbn. lia.
Qed.

Lemma elem_of_specials `{UnorderedIteration} t token :
  token ∈ specials t ↔ is_Some (special_to_id t !! token).
Proof.
  unfold specials. rewrite iter_specials_perm, list_elem_of_fmap. split.
  - intros ([tok id] & -> & Hin%elem_of_map_to_list). eauto.
  - intros [id Hid]. exists (token, id). split; [done|].
    by apply elem_of_map_to_list.
Qed.

Lemma specials_literal `{UnorderedIteration} t :
  literal_tokens t → Forall literal (specials t).
Proof. intros Hlit. apply Forall_forall. intros token ?%elem_of_specials. auto. Qed.

Lemma specials_nonempty `{UnorderedIteration} t :
  special_to_id t ≠ ∅ → specials t ≠ [].
Proof.
  intros Hne Hnil. apply Hne, map_eq. intros token. rewrite lookup_empty.
  destruct (special_to_id t !! token) eqn:Hid; [|done].
  assert (token ∈ specials t) as Hin by (apply elem_of_specials; eauto).
  rewrite Hnil in Hin. by apply elem_of_nil in Hin.
Qed.

(** ** Searching for the special tokens *)

Lemma match_here_Some alts s m rest :
  match_here alts s = Some (m, rest) → m ∈ alts ∧ s = m ++ rest.
Proof.
  induction alts as [|a alts IH]; [done|]. cbn [match_here].
  destruct (bool_decide_reflect (take (length a) s = a)) as [Ha|Ha].
  - intros [= <- <-]. split; [left|]. by rewrite <- Ha at 1; rewrite take_drop.
  - intros [? ?]%IH. split; [by right|done].
Qed.

Lemma match_here_prefix alts a rest :
  a ∈ alts → is_Some (match_here alts (a ++ rest)).
Proof.
  induction alts as [|a' alts IH]; [by intros ?%elem_of_nil|].
  cbn [match_here]. destruct (bool_decide _) eqn:Hdec; [by eauto|].
  apply bool_decide_eq_false in Hdec.
  intros [->|?]%elem_of_cons; [|auto].
  destruct Hdec. by rewrite take_app_length.
Qed.

Lemma regex_search_Some alts s pre m rest :
  regex_search alts s = Some (pre, m, rest) →
  m ∈ alts ∧ s = pre ++ m ++ rest.
Proof.
  revert pre. induction s as [|c s IH]; intros pre; cbn [regex_search].
  - destruct (match_here alts []) as [[m' rest']|] eqn:Hm; [|done].
    intros [= <- <- <-]. by apply match_here_Some in Hm.
  - destruct (match_here alts (c :: s)) as [[m' rest']|] eqn:Hm.
    + intros [= <- <- <-]. by apply match_here_Some in Hm.
    + destruct (regex_search alts s) as [[[pre' m'] rest']|]; [|done].
      cbn. intros [= <- <- <-]. destruct (IH pre' eq_refl) as [? ->]. done.
Qed.

Lemma regex_search_None alts s :
  (∀ a pre rest, a ∈ alts → s ≠ pre ++ a ++ rest) →
  regex_search alts s = None.
Proof.
  intros Hno. destruct (regex_search alts s) as [[[pre m] rest]|] eqn:Hs;
    [|done].
  apply regex_search_Some in Hs as [Hm ->]. by destruct (Hno m pre rest).
Qed.

Lemma regex_search_prefix alts a rest :
  a ∈ alts → ∃ m rest', regex_search alts (a ++ rest) = Some ([], m, rest').
Proof.
  intros [[m rest'] Hm]%(match_here_prefix _ _ rest).
  exists m, rest'. destruct (a ++ rest); cbn [regex_search]; by rewrite Hm.
Qed.

(** The token iterator ends, and its pieces put together are the input. *)
Lemma token_iterator_total alts fuel first s :
  Forall (λ a, a ≠ []) alts → (length s < fuel)%nat →
  ∃ pieces, token_iterator fuel alts first s = Done pieces ∧
            mjoin pieces = s.
Proof.
  intros Halts. revert first s.
  induction fuel as [|fuel IH]; intros first s Hfuel; [lia|].
  cbn [token_iterator].
  destruct (regex_search alts s) as [[[pre m] rest]|] eqn:Hs.
  - apply regex_search_Some in Hs as [Hm ->].
    assert (m ≠ []) by by eapply Forall_forall in Halts.
    destruct (IH false rest) as (pieces & -> & Hj).
    { rewrite !length_app in Hfuel. destruct m; [done|]. cbn in Hfuel. lia. }
    eexists. split; [done|]. cbn. by rewrite <- Hj.
  - destruct (first || bool_decide (s ≠ [])) eqn:Hf.
    + eexists. split; [done|]. cbn. by rewrite app_nil_r.
    + apply orb_false_elim in Hf as [_ Hf]. apply bool_decide_eq_false in Hf.
      eexists. split; [done|]. cbn. by destruct s; [|destruct Hf].
Qed.

(** A pattern of the fragment has no empty alternative. *)
Lemma parse_alternatives_nonempty p cur alts :
  parse_alternatives cur p = Some alts → Forall (λ a, a ≠ []) alts.
Proof.
  remember (length p) as n eqn:Hn. revert p cur alts Hn.
  induction n as [n IH] using lt_wf_ind. intros [|c p] cur alts Hn; [done|].
  cbn [parse_alternatives length] in *.
  destruct (bool_decide (c = backslash)).
  { destruct p as [|d p]; [done|]. destruct (bool_decide _); [|done].
    apply (IH (length p)); [cbn in Hn; lia|done]. }
  destruct (bool_decide (c = "|"%char)).
  { destruct (bool_decide_reflect (cur = [])); [done|].
    destruct (parse_alternatives [] p) as [alts'|] eqn:Hp; [|done].
    intros [= <-]. apply Forall_cons. split; [done|].
    by apply (IH (length p)) in Hp; [|lia|]. }
  destruct (bool_decide (c = ")"%char)).
  { destruct (bool_decide_reflect (cur = [])); [done|].
    destruct p; [|done]. intros [= <-]. by apply Forall_singleton. }
  destruct (bool_decide _); [done|].
  apply (IH (length p)); [lia|done].
Qed.

Lemma regex_compile_nonempty pattern alts :
  regex_compile pattern = Done alts → Forall (λ a, a ≠ []) alts.
Proof.
  unfold regex_compile. destruct pattern as [|c p]; [done|].
  destruct (bool_decide _); [|done].
  destruct (parse_alternatives [] p) eqn:Hp; [|done].
  intros [= <-]. by eapply parse_alternatives_nonempty.
Qed.

Lemma encode_non_special_fuel input t :
  _encode_non_special input t ≠ Fault OutOfFuel.
Proof.
  destruct input as [|c input]; [done|].
  by destruct (encode_non_special_run (c :: input) t) as (ids & -> & _).
Qed.

(** The bounds of the loops of [encode] are not reached. *)
Lemma encode_fuel `{UnorderedIteration} input t :
  encode input t ≠ Fault OutOfFuel.
Proof.
  rewrite encode_unfold.
  destruct (bool_decide _); [apply encode_non_special_fuel|].
  destruct (regex_compile _) as [alts|e] eqn:Hre.
  2:{ intros [= ->]. revert Hre. unfold regex_compile.
      destruct (build_pattern _) as [|c p]; [done|].
      destruct (bool_decide _); [|done].
      by destruct (parse_alternatives [] p). }
  apply regex_compile_nonempty in Hre.
  destruct (token_iterator_total alts (S (length input)) true input Hre)
    as (pieces & -> & _); [lia|].
  generalize (@nil Z). induction pieces as [|split pieces IH]; intros acc; [done|].
  cbn [for_each]. rewrite M_bind_unfold.
  destruct (encode_split acc split t) as [[acc' t']|e] eqn:Hsplit.
  - apply encode_split_frame in Hsplit as ->. apply IH.
  - intros [= ->]. revert Hsplit. unfold encode_split.
    rewrite M_bind_unfold. unfold gets at 1.
    destruct (special_to_id t !! split) as [id|] eqn:Hid.
    + rewrite bool_decide_eq_true_2 by eauto.
      by rewrite M_bind_unfold, (special_to_id_index_Some _ _ _ Hid).
    + rewrite bool_decide_eq_false_2 by apply is_Some_None.
      rewrite M_bind_unfold. pose proof (encode_non_special_fuel split t).
      destruct (_encode_non_special split t) as [[? ?]|]; [done|congruence].
Qed.

(** ** The text of an encoded sequence *)

Lemma join_fmap_cons {A B} (f : A → list B) x l :
  mjoin (f <$> x :: l) = f x ++ mjoin (f <$> l).
Proof. done. Qed.

Section round_trip.
Context `{UnorderedIteration} (t : BPETokenizer) (Hwf : wf t).

Lemma byte_not_special c : id_to_special t !! byte_to_int c = None.
Proof.
  destruct (id_to_special t !! byte_to_int c) eqn:Hs; [|done].
  apply (wf_special_ids _ Hwf) in Hs. unfold byte_to_int in Hs.
  pose proof (nat_ascii_bounded c). lia.
Qed.

Lemma token_text_byte c : token_text t (byte_to_int c) = [c].
Proof.
  unfold token_text. by rewrite byte_not_special, (wf_bytes _ Hwf).
Qed.

Lemma token_text_pair a b v :
  pairs t !! (a, b) = Some v →
  token_text t v = token_text t a ++ token_text t b.
Proof.
  intros (_ & _ & _ & Ha & Hb & Hv & ta & tb & Hta & Htb & Htv)%(wf_pairs _ Hwf).
  unfold token_text. by rewrite Ha, Hb, Hv, Hta, Htb, Htv.
Qed.

Lemma token_text_special token id :
  special_to_id t !! token = Some id → token_text t id = token.
Proof.
  intros Hs%(wf_special_inverse _ Hwf). unfold token_text. by rewrite Hs.
Qed.

Lemma bytes_text input :
  mjoin (token_text t <$> string_to_byte input) = input.
Proof.
  induction input as [|c input IH]; [done|].
  cbn. rewrite token_text_byte. cbn. f_equal. apply IH.
Qed.

Lemma bytes_known input : Forall (known t) (string_to_byte input).
Proof.
  apply Forall_forall. intros x (c & -> & _)%list_elem_of_fmap.
  right. rewrite (wf_bytes _ Hwf). eauto.
Qed.

Lemma merge_pass_text l :
  mjoin (token_text t <$> (merge_pass (pairs t) l).1)
  = mjoin (token_text t <$> l).
Proof.
  induction l as [| |a b r IH1 IH2] using pass_ind; [done..|].
  rewrite merge_pass_cons2.
  destruct (pairs t !! (a, b)) as [v|] eqn:Hab; cbn [fst].
  - rewrite !join_fmap_cons, IH1, (token_text_pair _ _ _ Hab).
    by rewrite <- app_assoc.
  - rewrite (join_fmap_cons _ a (b :: r)), join_fmap_cons. by rewrite IH2.
Qed.

Lemma merge_pass_known l :
  Forall (known t) l → Forall (known t) (merge_pass (pairs t) l).1.
Proof.
  induction l as [| |a b r IH1 IH2] using pass_ind; [done..|].
  intros [Ha [Hb Hr]%Forall_cons]%Forall_cons. rewrite merge_pass_cons2.
  destruct (pairs t !! (a, b)) as [v|] eqn:Hab; cbn [fst].
  - apply Forall_cons. split; [|auto].
    apply (wf_pairs _ Hwf) in Hab as (_&_&_&_&_&_&ta&tb&_&_&Hv).
    right. eauto.
  - apply Forall_cons. split; [done|]. apply IH2. by apply Forall_cons.
Qed.

Lemma passes_text l l' :
  passes (pairs t) l l' →
  mjoin (token_text t <$> l') = mjoin (token_text t <$> l) ∧
  (Forall (known t) l → Forall (known t) l').
Proof.
  induction 1 as [|l l' l'' Hpass _ [IHtext IHknown]]; [done|].
  pose proof (merge_pass_text l) as Htext.
  pose proof (merge_pass_known l) as Hknown.
  rewrite Hpass in Htext, Hknown. cbn in Htext, Hknown.
  split; [by rewrite IHtext|auto].
Qed.

Lemma decode_known ids : Forall (known t) ids → foldl decode_touch t ids = t.
Proof.
  induction 1 as [|id ids Hid _ IH]; [done|]. cbn.
  assert (decode_touch t id = t) as ->; [|done].
  unfold decode_touch. destruct Hid as [[? ->]|[? ->]]; [done|].
  by destruct (id_to_special t !! id).
Qed.

Lemma encode_non_special_text input :
  input ≠ [] →
  ∃ ids, _encode_non_special input t = Done (ids, t) ∧
         mjoin (token_text t <$> ids) = input ∧ Forall (known t) ids.
Proof.
  intros Hne. destruct (encode_non_special_run input t Hne)
    as (ids & Hrun & Hp & _).
  destruct (passes_text _ _ Hp) as [Htext Hknown].
  exists ids. split; [done|]. split; [by rewrite Htext, bytes_text|].
  apply Hknown, bytes_known.
Qed.

Lemma encode_split_text indices split :
  split ≠ [] ∨ is_Some (special_to_id t !! split) →
  ∃ ids, encode_split indices split t = Done (indices ++ ids, t) ∧
         mjoin (token_text t <$> ids) = split ∧ Forall (known t) ids.
Proof.
  intros Hsplit. unfold encode_split. rewrite M_bind_unfold. unfold gets at 1.
  destruct (special_to_id t !! split) as [id|] eqn:Hid.
  - rewrite bool_decide_eq_true_2 by eauto.
    rewrite M_bind_unfold, (special_to_id_index_Some _ _ _ Hid).
    exists [id]. split; [done|]. cbn.
    rewrite (token_text_special _ _ Hid), app_nil_r. split; [done|].
    apply Forall_singleton. left.
    rewrite (wf_special_inverse _ Hwf _ _ Hid). eauto.
  - rewrite bool_decide_eq_false_2 by apply is_Some_None.
    destruct Hsplit as [Hne|[? ?]]; [|done].
    destruct (encode_non_special_text split Hne) as (ids & Hrun & ? & ?).
    rewrite M_bind_unfold, Hrun. by exists ids.
Qed.

Lemma encode_splits_text splits indices :
  (∀ split, split ∈ splits →
            split ≠ [] ∨ is_Some (special_to_id t !! split)) →
  ∃ ids, for_each encode_split indices splits t = Done (indices ++ ids, t) ∧
         mjoin (token_text t <$> ids) = mjoin splits ∧ Forall (known t) ids.
Proof.
  revert indices. induction splits as [|split splits IH]; intros indices Hs.
  - exists []. by rewrite app_nil_r.
  - destruct (encode_split_text indices split) as (ids1 & Hrun1 & Ht1 & Hk1);
      [apply Hs; left|].
    destruct (IH (indices ++ ids1)) as (ids2 & Hrun2 & Ht2 & Hk2);
      [intros ? ?; apply Hs; by right|].
    exists (ids1 ++ ids2). cbn [for_each].
    rewrite M_bind_unfold, Hrun1, Hrun2, <- app_assoc. split; [done|].
    split; [|by apply Forall_app].
    rewrite fmap_app, join_app, Ht1, Ht2. done.
Qed.

Lemma encode_with_specials input :
  literal_tokens t → special_to_id t ≠ ∅ →
  encode input t =
  match token_iterator (S (length input)) (specials t) true input with
  | Fault e => Fault e
  | Done splits => for_each encode_split [] splits t
  end.
Proof.
  intros Hlit Hne. rewrite encode_unfold.
  rewrite bool_decide_eq_false_2 by done. fold (specials t).
  pose proof (specials_literal t Hlit) as Hall.
  pose proof (specials_nonempty t Hne) as Hnil.
  destruct (specials t) as [|token tokens]; [done|].
  by rewrite regex_compile_literals.
Qed.

(** [decode] gives back the input of [encode] whenever the search for the
    special tokens leaves no empty piece that is not itself a special
    token. *)
Lemma encode_decode_pieces input pieces :
  literal_tokens t → special_to_id t ≠ ∅ →
  token_iterator (S (length input)) (specials t) true input = Done pieces →
  [] ∉ pieces →
  ∃ ids, encode input t = Done (ids, t) ∧ decode ids t = Done (input, t).
Proof.
  intros Hlit Hne Hit Hpieces.
  destruct (token_iterator_total (specials t) (S (length input)) true input)
    as (pieces' & Hit' & Hjoin); [|lia|].
  { eapply Forall_impl; [by apply specials_literal|]. by intros ? []. }
  rewrite Hit in Hit'. simplify_eq.
  destruct (encode_splits_text pieces' []) as (ids & Hrun & Htext & Hknown).
  { intros split Hin. left. by intros ->. }
  exists ids. rewrite encode_with_specials, Hit by done. split; [done|].
  by rewrite decode_spec, Htext, decode_known.
Qed.

(** [decode] gives back every text that is not empty and holds no special
    token. *)
Lemma encode_decode_plain input :
  literal_tokens t → input ≠ [] →
  (∀ token pre rest,
     is_Some (special_to_id t !! token) → input ≠ pre ++ token ++ rest) →
  ∃ ids, encode input t = Done (ids, t) ∧ decode ids t = Done (input, t).
Proof.
  intros Hlit Hne Hplain.
  destruct (decide (special_to_id t = ∅)) as [Hempty|Hsome].
  - destruct (encode_non_special_text input Hne) as (ids & Hrun & Htext & Hk).
    exists ids. rewrite encode_unfold, bool_decide_eq_true_2 by done.
    split; [done|]. by rewrite decode_spec, Htext, decode_known.
  - apply (encode_decode_pieces input [input]); [done..| |].
    + cbn [token_iterator]. rewrite regex_search_None; [done|].
      intros a pre rest Ha%elem_of_specials. by apply Hplain.
    + intros ?%list_elem_of_singleton. by subst.
Qed.

Lemma encode_empty_fault :
  literal_tokens t → encode [] t = Fault OutOfBounds.
Proof.
  intros Hlit. destruct (decide (special_to_id t = ∅)) as [Hempty|Hsome].
  - by rewrite encode_unfold, bool_decide_eq_true_2.
  - rewrite encode_with_specials by done.
    cbn [length token_iterator]. rewrite regex_search_None.
    + cbn [orb for_each]. rewrite M_bind_unfold. unfold encode_split.
      rewrite M_bind_unfold. unfold gets at 1.
      destruct (special_to_id t !! []) eqn:Hnil.
      { by destruct (Hlit []); eauto. }
      by rewrite bool_decide_eq_false_2 by apply is_Some_None.
    + intros a pre rest [Hne _]%elem_of_specials%Hlit Heq.
      symmetry in Heq. apply app_eq_nil in Heq as [_ [? _]%app_eq_nil]. done.
Qed.

(** An empty piece that is not a special token makes [encode] read past
    the end of an empty sequence. *)
Lemma encode_splits_fault splits indices :
  special_to_id t !! [] = None → [] ∈ splits →
  for_each encode_split indices splits t = Fault OutOfBounds.
Proof.
  intros Hnil. revert indices.
  induction splits as [|split splits IH]; intros indices Hin;
    [by apply elem_of_nil in Hin|].
  cbn [for_each]. rewrite M_bind_unfold.
  destruct (decide (split = [])) as [->|Hne].
  - unfold encode_split. rewrite M_bind_unfold. unfold gets at 1.
    by rewrite Hnil, bool_decide_eq_false_2 by apply is_Some_None.
  - destruct (encode_split_text indices split) as (ids & -> & _); [by left|].
    apply IH. by apply elem_of_cons in Hin as [?|?].
Qed.

Lemma token_iterator_leading alts a rest pieces :
  a ∈ alts →
  token_iterator (S (length (a ++ rest))) alts true (a ++ rest) = Done pieces →
  [] ∈ pieces.
Proof.
  intros Ha. cbn [token_iterator].
  destruct (regex_search_prefix alts a rest Ha) as (m & rest' & ->).
  destruct (token_iterator _ _ _ _); [|done]. intros [= <-]. left.
Qed.

End round_trip.

Lemma literal_tokens_with_END : literal_tokens tokenizer_with_END.
Proof.
  intros token [id Hid]. unfold tokenizer_with_END in Hid. cbn in Hid.
  apply lookup_insert_Some in Hid as [[<- _]|[_ Hid]]; [|done].
  split; [done|]. by apply (bool_decide_unpack _).
Defined.

Lemma wf_with_END : wf tokenizer_with_END.
Proof.
  apply (wf_register (str "<END>") (reset 1000)); [apply wf_reset|].
  vm_compute. reflexivity.
Defined.

Lemma wf_with_digit_class : wf tokenizer_with_digit_class.
Proof.
  apply (wf_register (str "\d") (reset 1000)); [apply wf_reset|].
  vm_compute. reflexivity.
Defined.

(** C1: [decode] gives back every text that is not empty and holds no
    special token, in every well-formed state; on the empty text [encode]
    reads past the end of an empty sequence ([indices.size() - 1] wraps
    around in [_encode_non_special]) instead of returning the empty
    sequence. *)
Theorem encode_decode_plain_text `{UnorderedIteration} t :
  wf t → literal_tokens t →
  encode [] t = Fault OutOfBounds ∧
  ∀ input,
    input ≠ [] →
    (∀ token pre rest,
       is_Some (special_to_id t !! token) → input ≠ pre ++ token ++ rest) →
    ∃ ids, encode input t = Done (ids, t) ∧ decode ids t = Done (input, t).
Proof.
  intros Hwf Hlit. split; [by apply encode_empty_fault|].
  intros input. by apply encode_decode_plain.
Qed.

Lemma encode_decode_plain_text_witness :
  @encode listing_order [] tokenizer_with_END = Fault OutOfBounds ∧
  ∃ ids,
    @encode listing_order (str "aaaa") tokenizer_with_END
    = Done (ids, tokenizer_with_END) ∧
    decode ids tokenizer_with_END = Done (str "aaaa", tokenizer_with_END).
Proof.
  destruct (@encode_decode_plain_text listing_order tokenizer_with_END
              wf_with_END literal_tokens_with_END) as [Hempty Hplain].
  split; [done|]. apply Hplain; [done|].
  intros token pre rest [id Hid]. unfold tokenizer_with_END in Hid. cbn in Hid.
  apply lookup_insert_Some in Hid as [[<- _]|[_ Hid]]; [|done].
  intros Heq.
  assert (Hnot : "<"%char ∉ str "aaaa") by by apply (bool_decide_unpack _).
  apply Hnot. rewrite Heq, !elem_of_app. right. left. left.
Defined.

(** C4: with special tokens registered, [encode] cuts the text into
    pieces.  When no piece is empty, [decode] gives the text back.  When a
    piece is empty, [encode] reads past the end of an empty sequence; this
    is so for every text that begins with a special token (and for two
    special tokens side by side, see [encode_adjacent_special_tokens]). *)
Theorem encode_decode_special_tokens `{UnorderedIteration} t input :
  wf t → literal_tokens t → special_to_id t ≠ ∅ →
  ∃ pieces,
    token_iterator (S (length input)) (specials t) true input = Done pieces ∧
    mjoin pieces = input ∧
    ([] ∉ pieces →
     ∃ ids, encode input t = Done (ids, t) ∧ decode ids t = Done (input, t)) ∧
    ([] ∈ pieces → encode input t = Fault OutOfBounds) ∧
    (∀ token rest,
       is_Some (special_to_id t !! token) → input = token ++ rest →
       [] ∈ pieces).
Proof.
  intros Hwf Hlit Hsome.
  destruct (token_iterator_total (specials t) (S (length input)) true input)
    as (pieces & Hit & Hjoin); [|lia|].
  { eapply Forall_impl; [by apply specials_literal|]. by intros ? []. }
  exists pieces. split; [done|]. split; [done|]. split; [|split].
  - by apply encode_decode_pieces.
  - intros Hin. rewrite encode_with_specials, Hit by done.
    apply encode_splits_fault; [done| |done].
    destruct (special_to_id t !! []) eqn:Hnil; [|done].
    by destruct (Hlit []); eauto.
  - intros token rest Htok%elem_of_specials ->.
    by eapply token_iterator_leading.
Qed.

Lemma encode_decode_special_tokens_witness :
  ∃ pieces,
    token_iterator (S (length (str "<END>a")))
      (@specials listing_order tokenizer_with_END) true (str "<END>a")
    = Done pieces ∧
    [] ∈ pieces ∧
    @encode listing_order (str "<END>a") tokenizer_with_END
    = Fault OutOfBounds.
Proof.
  destruct (@encode_decode_special_tokens listing_order tokenizer_with_END
              (str "<END>a") wf_with_END literal_tokens_with_END)
    as (pieces & Hit & _ & _ & Hfault & Hlead); [done|].
  exists pieces. split; [done|].
  assert ([] ∈ pieces) as Hin.
  { apply (Hlead (str "<END>") (str "a")); [|done].
    exists 256. reflexivity. }
  split; [done|]. by apply Hfault.
Defined.

(** Two special tokens side by side leave an empty piece between them. *)
Example encode_adjacent_special_tokens :
  @encode listing_order (str "a<END><END>a") tokenizer_with_END
  = Fault OutOfBounds.
Proof. vm_compute. reflexivity. Qed.

(** A special token at the end of the text leaves no empty piece. *)
Example encode_trailing_special_token :
  ∃ t', @encode listing_order (str "a<END>") tokenizer_with_END
        = Done ([97; 256], tokenizer_with_END) ∧
        decode [97; 256] tokenizer_with_END = Done (str "a<END>", t').
Proof.
  eexists. split; [vm_compute; reflexivity|].
  rewrite decode_spec. reflexivity.
Qed.

(** ** The scenarios of the specification *)

(** Scenario A: the corpus "aaaa" with room for one merge. *)
Example scenario_A :
  ('(log, t) ← @train listing_order (str "aaaa") false (reset 257);
   '(ids, _) ← @encode listing_order (str "aaaa") t;
   '(text, _) ← decode [256; 256] t;
   Done (log, pairs t !! (97, 97), vocab_size t, ids, text))
  = Done ([((97, 97), 256, str "aa")], Some 256, 257, [256; 256], str "aaaa").
Proof. vm_compute. reflexivity. Qed.

(** Scenario B: a special token registered after the training of A. *)
Example scenario_B :
  ('(_, t) ← @train listing_order (str "aaaa") false (reset 257);
   '(_, t) ← register_special_token (str "<END>") t;
   '(ids, _) ← @encode listing_order (str "a<END>a") t;
   '(text, _) ← decode ids t;
   Done (special_to_id t !! str "<END>", ids, text))
  = Done (Some 257, [97; 257; 97], str "a<END>a").
Proof. vm_compute. reflexivity. Qed.

(** Scenario C: the constructor refuses 256 and accepts 257. *)
Example scenario_C :
  construct 256 = Fault InvalidArgument ∧ construct 257 = Done (reset 257).
Proof. done. Qed.

(** Scenario E: with [stop_early] no merge is made when the most frequent
    pair occurs once. *)
Example scenario_E :
  @train listing_order (str "ab") true (reset 1000) = Done ([], reset 1000).
Proof. vm_compute. reflexivity. Qed.

(** * Further properties of the code *)

(** ** Constructor and reset *)

Lemma reset_tokens_lookup_None (f : nat → std_string) l (m : gmap Z std_string) k :
  m !! k = None → (∀ n, n ∈ l → Z.of_nat n ≠ k) →
  foldl (λ m i, <[Z.of_nat i := f i]> m) m l !! k = None.
Proof.
  intros Hm. induction l as [|x l IH] using rev_ind; intros Hl; [done|].
  rewrite foldl_app. cbn. rewrite lookup_insert_ne.
  - apply IH. intros n Hn. apply Hl, elem_of_app. by left.
  - apply Hl, elem_of_app. right. left.
Qed.

Lemma reset_id_to_token max id :
  id_to_token (reset max) !! id
  = if bool_decide (0 ≤ id < 256) then Some [int_to_byte id] else None.
Proof.
  unfold reset. cbn [id_to_token].
  destruct (bool_decide_reflect (0 ≤ id < 256)) as [Hid|Hid].
  - rewrite <- (Z2Nat.id id) at 1 by lia.
    rewrite (reset_tokens_lookup (λ i, [int_to_byte (Z.of_nat i)])).
    + by rewrite Z2Nat.id by lia.
    + apply elem_of_seq. lia.
  - apply reset_tokens_lookup_None; [done|].
    intros n Hn%elem_of_seq. lia.
Qed.

(** X1: the constructor throws exactly when the maximum is at most 256;
    otherwise the new object is well formed, has the vocabulary size 256,
    no merge rule, no special token, and the token of an ID is the one
    byte of that value for the IDs 0 to 255 and absent for every other
    ID. *)
Theorem construct_initial_state max :
  (max ≤ 256 → construct max = Fault InvalidArgument) ∧
  (256 < max → construct max = Done (reset max)) ∧
  wf (reset max) ∧
  vocab_size (reset max) = 256 ∧ max_vocab_size (reset max) = max ∧
  pairs (reset max) = ∅ ∧ special_to_id (reset max) = ∅ ∧
  id_to_special (reset max) = ∅ ∧
  ∀ id, id_to_token (reset max) !! id
        = if bool_decide (0 ≤ id < 256) then Some [int_to_byte id] else None.
Proof.
  unfold construct. split; [|split].
  - intros Hmax. by destruct (Z.leb_spec max 256); [|lia].
  - intros Hmax. by destruct (Z.leb_spec max 256); [lia|].
  - split; [apply wf_reset|]. repeat split. apply reset_id_to_token.
Qed.

Lemma construct_initial_state_witness :
  construct 256 = Fault InvalidArgument ∧ construct 257 = Done (reset 257).
Proof.
  split.
  - apply (proj1 (construct_initial_state 256)). lia.
  - apply (proj1 (proj2 (construct_initial_state 257))). lia.
Defined.

(** ** string_to_byte *)

Lemma byte_to_int_range c : 0 ≤ byte_to_int c < 256.
Proof. unfold byte_to_int. pose proof (nat_ascii_bounded c). lia. Qed.

Lemma byte_to_int_inj c c' : byte_to_int c = byte_to_int c' → c = c'.
Proof.
  intros Heq. by rewrite <- (int_to_byte_to_int c), Heq, int_to_byte_to_int.
Qed.

(** X2: [string_to_byte] gives one value per byte, every value is a byte
    value (0 to 255), different strings give different sequences, and
    [decode] of a well-formed object turns the sequence back into the
    string without changing the object. *)
Theorem string_to_byte_bytes input :
  length (string_to_byte input) = length input ∧
  Forall (λ x, 0 ≤ x < 256) (string_to_byte input) ∧
  (∀ input', string_to_byte input = string_to_byte input' → input = input') ∧
  (∀ t, wf t → decode (string_to_byte input) t = Done (input, t)).
Proof.
  split; [apply length_map|]. split; [|split].
  - apply Forall_forall. intros x (c & -> & _)%list_elem_of_fmap.
    apply byte_to_int_range.
  - induction input as [|c input IH]; intros [|c' input']; try done.
    cbn. intros [= Hc%byte_to_int_inj Hrest]. f_equal; auto.
  - intros t Hwf.
    by rewrite decode_spec, (bytes_text t Hwf), (decode_known t _ (bytes_known t Hwf input)).
Qed.

Lemma string_to_byte_bytes_witness :
  str "ab" = str "ab" ∧
  decode (string_to_byte (str "ab")) tokenizer_with_END
  = Done (str "ab", tokenizer_with_END).
Proof.
  split.
  - by apply (proj1 (proj2 (proj2 (string_to_byte_bytes (str "ab")))) (str "ab")).
  - apply (proj2 (proj2 (proj2 (string_to_byte_bytes (str "ab"))))).
    apply wf_with_END.
Defined.

(** ** decode *)

Lemma known_touch t id j : known t j → known (decode_touch t id) j.
Proof.
  unfold decode_touch.
  destruct (id_to_special t !! id) eqn:Hs; [done|].
  destruct (id_to_token t !! id) eqn:Ht; [done|].
  intros [?|[tok Hj]]; [by left|right]. cbn.
  rewrite lookup_insert_ne; [eauto|]. intros ->. by simplify_eq.
Qed.

Lemma known_touch_self t id : known (decode_touch t id) id.
Proof.
  unfold decode_touch.
  destruct (id_to_special t !! id) eqn:Hs; [left; eauto|].
  destruct (id_to_token t !! id) eqn:Ht; [right; eauto|].
  right. cbn. rewrite lookup_insert_eq. eauto.
Qed.

Lemma known_touches t ids j : known t j → known (foldl decode_touch t ids) j.
Proof.
  revert t. induction ids as [|id ids IH]; intros t Hj; [done|].
  cbn. by apply IH, known_touch.
Qed.

Lemma touches_known t ids : Forall (known (foldl decode_touch t ids)) ids.
Proof.
  revert t. induction ids as [|id ids IH]; intros t; [done|].
  cbn. apply Forall_cons. split; [|apply IH].
  apply known_touches, known_touch_self.
Qed.

Lemma decode_touch_frame t id :
  pairs (decode_touch t id) = pairs t ∧
  special_to_id (decode_touch t id) = special_to_id t ∧
  id_to_special (decode_touch t id) = id_to_special t ∧
  next_id (decode_touch t id) = next_id t ∧
  max_vocab_size (decode_touch t id) = max_vocab_size t ∧
  id_to_token t ⊆ id_to_token (decode_touch t id).
Proof.
  unfold decode_touch.
  destruct (id_to_special t !! id) eqn:Hs; [done|].
  destruct (id_to_token t !! id) eqn:Ht; [done|]. cbn.
  repeat split. by apply insert_subseteq.
Qed.

Lemma decode_touches_frame t ids :
  pairs (foldl decode_touch t ids) = pairs t ∧
  special_to_id (foldl decode_touch t ids) = special_to_id t ∧
  id_to_special (foldl decode_touch t ids) = id_to_special t ∧
  next_id (foldl decode_touch t ids) = next_id t ∧
  max_vocab_size (foldl decode_touch t ids) = max_vocab_size t ∧
  id_to_token t ⊆ id_to_token (foldl decode_touch t ids).
Proof.
  revert t. induction ids as [|id ids IH]; intros t; [done|]. cbn.
  destruct (IH (decode_touch t id)) as (-> & -> & -> & -> & -> & Hsub).
  destruct (decode_touch_frame t id) as (-> & -> & -> & -> & -> & Hsub').
  repeat split. by etrans.
Qed.

Lemma token_text_touches t ids j :
  token_text (foldl decode_touch t ids) j = token_text t j.
Proof.
  revert t. induction ids as [|id ids IH]; intros t; [done|].
  cbn. by rewrite IH, token_text_touch.
Qed.

Lemma texts_touches t ids l :
  mjoin (token_text (foldl decode_touch t ids) <$> l)
  = mjoin (token_text t <$> l).
Proof.
  f_equal. apply list_fmap_ext. intros _ j _. apply token_text_touches.
Qed.

(** X3: [decode] never fails and is compositional: the text of a
    concatenation is the concatenation of the texts.  It changes nothing
    but [id_to_token], which it only extends, and decoding the same
    sequence again gives the same text and changes nothing any more. *)
Theorem decode_composes t l1 l2 :
  ∃ s1 t1 s2 t2,
    decode l1 t = Done (s1, t1) ∧ decode l2 t1 = Done (s2, t2) ∧
    decode (l1 ++ l2) t = Done (s1 ++ s2, t2) ∧
    decode (l1 ++ l2) t2 = Done (s1 ++ s2, t2) ∧
    pairs t2 = pairs t ∧ special_to_id t2 = special_to_id t ∧
    id_to_special t2 = id_to_special t ∧ next_id t2 = next_id t ∧
    max_vocab_size t2 = max_vocab_size t ∧
    id_to_token t ⊆ id_to_token t2.
Proof.
  eexists _, _, _, _. rewrite !decode_spec.
  split; [done|]. split; [done|].
  rewrite !texts_touches, <- foldl_app, fmap_app, join_app.
  split; [done|]. split.
  - f_equal. f_equal. apply decode_known, touches_known.
  - apply decode_touches_frame.
Qed.

(** ** pair_hash *)

(** X4: the hash of a pair does not depend on the order of its two IDs,
    and every pair of two equal IDs has the hash 0, whatever [std::hash]
    is. *)
Theorem pair_hash_symmetric hash a b :
  pair_hash hash (a, b) = pair_hash hash (b, a) ∧ pair_hash hash (a, a) = 0.
Proof.
  unfold pair_hash. cbn. split; [apply Z.lxor_comm|apply Z.lxor_nilpotent].
Qed.

(** ** most_frequent_pair *)

Lemma count_pairs_lookup m l q :
  default 0 (count_pairs m l !! q)
  = default 0 (m !! q) + size (filter (λ q', q' = q) l).
Proof.
  revert m. induction l as [|x l IH]; intros m.
  { rewrite filter_nil. unfold count_pairs, size. cbn [foldl length]. lia. }
  cbn [count_pairs foldl]. fold (count_pairs (<[x:=default 0 (m !! x) + 1]> m) l).
  rewrite IH, filter_cons. unfold size.
  destruct (decide (x = q)) as [->|Hne].
  - rewrite lookup_insert_eq. cbn. lia.
  - rewrite lookup_insert_ne by done. lia.
Qed.

Lemma count_pairs_key m l q :
  is_Some (count_pairs m l !! q) ↔ is_Some (m !! q) ∨ q ∈ l.
Proof.
  revert m. induction l as [|x l IH]; intros m.
  - cbn. split; [by left|]. by intros [?|?%elem_of_nil].
  - cbn [count_pairs foldl]. fold (count_pairs (<[x:=default 0 (m !! x) + 1]> m) l).
    rewrite IH, elem_of_cons. destruct (decide (x = q)) as [->|Hne].
    + rewrite lookup_insert_eq. split; [by right; left|eauto].
    + rewrite lookup_insert_ne by done.
      split; [intros [?|?]; auto|intros [?|[?|?]]; auto; done].
Qed.

(** The counting loop from position [k] on, when no count can overflow. *)
Lemma count_loop_run indices fuel k counts :
  size indices ≤ INT_MAX → (k < length indices)%nat →
  (length indices - 1 - k ≤ fuel)%nat →
  (∀ q, default 0 (counts !! q) ≤ Z.of_nat k) →
  while_loop fuel (count_cond indices) (count_body indices) (counts, Z.of_nat k)
  = Done (count_pairs counts (adjacent_pairs (drop k indices)),
          size indices - 1).
Proof.
  intros Hmax. revert k counts. induction fuel as [fuel IH] using lt_wf_ind.
  intros k counts Hk Hfuel Hcounts.
  destruct (drop k indices) as [|a t] eqn:Hd.
  { apply (f_equal length) in Hd. rewrite length_drop in Hd. cbn in Hd. lia. }
  apply drop_cons_lookup in Hd as (Ha & Hd & _).
  destruct t as [|b r].
  - apply (f_equal length) in Hd. rewrite length_drop in Hd. cbn in Hd.
    assert (Z.of_nat k = size indices - 1) as Hlast by (unfold size; lia).
    destruct fuel; cbn [while_loop]; unfold count_cond, size; cbn [snd];
      rewrite size_t_sub_pos by lia;
      (destruct (Z.ltb_spec (Z.of_nat k) (Z.of_nat (length indices) - 1));
       [lia|]); cbn; by rewrite Hlast.
  - pose proof Hd as Hd'. apply drop_cons_lookup in Hd' as (Hb & _ & Hlt).
    destruct fuel as [|fuel]; [lia|].
    cbn [while_loop]. unfold count_cond at 1, size at 1. cbn [snd].
    rewrite size_t_sub_pos by lia.
    destruct (Z.ltb_spec (Z.of_nat k) (Z.of_nat (length indices) - 1)); [|lia].
    unfold count_body at 1.
    rewrite (vec_at_lookup _ _ _ Ha), (vec_at_succ _ _ _ Hb).
    cbn [mbind result_bind]. unfold int_incr.
    pose proof (Hcounts (a, b)). unfold size in Hmax.
    destruct (Z.ltb_spec (default 0 (counts !! (a, b))) INT_MAX); [|lia].
    cbn [mbind result_bind].
    replace (Z.of_nat k + 1) with (Z.of_nat (S k)) by lia.
    rewrite IH; [by rewrite Hd|lia|lia|lia|].
    intros q. destruct (decide ((a, b) = q)) as [<-|Hne].
    + rewrite lookup_insert_eq. cbn. lia.
    + rewrite lookup_insert_ne by done. specialize (Hcounts q). lia.
Qed.

Lemma max_element_ge x l : x.2 ≤ (max_element x l).2.
Proof.
  unfold max_element. revert x. induction l as [|z l IH]; intros x; [done|].
  cbn [foldl]. destruct (Z.ltb_spec x.2 z.2); [|apply IH].
  etrans; [|apply IH]. lia.
Qed.

Lemma max_element_max x l y : y ∈ x :: l → y.2 ≤ (max_element x l).2.
Proof.
  revert x. induction l as [|z l IH]; intros x.
  - by intros ->%list_elem_of_singleton.
  - intros [->|Hy]%elem_of_cons.
    + apply max_element_ge.
    + unfold max_element in *. cbn [foldl].
      destruct (Z.ltb_spec x.2 z.2); [by apply IH|].
      apply elem_of_cons in Hy as [->|Hy].
      * etrans; [done|]. apply (max_element_ge x l).
      * apply IH. by right.
Qed.

Lemma occurrences_pos p l : p ∈ adjacent_pairs l ↔ 1 ≤ occurrences p l.
Proof.
  unfold occurrences, size. split.
  - intros Hin.
    assert (p ∈ filter (λ q, q = p) (adjacent_pairs l)) as Hf
      by by apply list_elem_of_filter.
    destruct (filter _ _); [by apply elem_of_nil in Hf|cbn; lia].
  - intros Hocc.
    destruct (filter (λ q, q = p) (adjacent_pairs l)) as [|q f] eqn:Hf;
      [cbn in Hocc; lia|].
    assert (q ∈ filter (λ q, q = p) (adjacent_pairs l)) as Hq
      by (rewrite Hf; left).
    by apply list_elem_of_filter in Hq as [-> ?].
Qed.

Lemma most_frequent_pair_run `{UnorderedIteration} indices :
  (2 ≤ length indices)%nat → size indices ≤ INT_MAX →
  ∃ p c, most_frequent_pair indices = Done (p, c) ∧
         p ∈ adjacent_pairs indices ∧
         c = occurrences p indices ∧ 1 ≤ c ∧
         ∀ q, occurrences q indices ≤ c.
Proof.
  intros Hlen Hmax. unfold most_frequent_pair.
  pose proof (count_loop_run indices (S (length indices)) 0 ∅) as Hrun.
  change (Z.of_nat 0) with 0 in Hrun. rewrite Hrun; [|done|lia|lia|]; cycle 1.
  { intros q. by rewrite lookup_empty. }
  clear Hrun. cbn [mbind result_bind fst]. rewrite drop_0.
  set (counts := count_pairs ∅ (adjacent_pairs indices)).
  assert (Hcount : ∀ q, default 0 (counts !! q) = occurrences q indices).
  { intros q. unfold counts. rewrite count_pairs_lookup, lookup_empty.
    cbn. unfold occurrences. lia. }
  assert (Hkey : ∀ q k, counts !! q = Some k →
                        q ∈ adjacent_pairs indices ∧ k = occurrences q indices).
  { intros q k Hq. split.
    - assert (is_Some (counts !! q)) as Hs by eauto.
      apply count_pairs_key in Hs as [[? Hs]|?]; [|done].
      by rewrite lookup_empty in Hs.
    - by rewrite <- Hcount, Hq. }
  destruct (iter_counts (map_to_list counts)) as [|x l] eqn:Hit.
  { exfalso. destruct indices as [|a [|b r]]; [cbn in Hlen; lia..|].
    assert (is_Some (counts !! (a, b))) as [k Hk].
    { apply count_pairs_key. right. left. }
    apply elem_of_map_to_list in Hk.
    rewrite <- (iter_counts_perm (map_to_list counts)), Hit in Hk.
    by apply elem_of_nil in Hk. }
  destruct (max_element x l) as [p c] eqn:Hmax_el.
  assert (counts !! p = Some c) as Hp.
  { apply elem_of_map_to_list.
    rewrite <- (iter_counts_perm (map_to_list counts)), Hit, <- Hmax_el.
    apply max_element_in. }
  destruct (Hkey _ _ Hp) as [Hadj ->].
  exists p, (occurrences p indices). split; [done|]. split; [done|].
  split; [done|]. split; [by apply occurrences_pos|].
  intros q. destruct (counts !! q) as [k|] eqn:Hq.
  + destruct (Hkey _ _ Hq) as [_ ->].
    apply elem_of_map_to_list in Hq.
    rewrite <- (iter_counts_perm (map_to_list counts)), Hit in Hq.
    apply max_element_max in Hq. by rewrite Hmax_el in Hq.
  + rewrite <- Hcount, Hq. cbn. apply occurrences_pos in Hadj. lia.
Qed.

(** X5: on a sequence of one ID [most_frequent_pair] returns the marker
    [((-1, -1), 0)].  On a sequence of at least two IDs (whose length fits
    an [int]) it returns a pair of neighbours together with the number of
    times this pair occurs, and no pair of neighbours occurs more often;
    this holds for every iteration order of the table of counts. *)
Theorem most_frequent_pair_most_frequent `{UnorderedIteration} :
  (∀ x, most_frequent_pair [x] = Done ((-1, -1), 0)) ∧
  (∀ indices,
     (2 ≤ length indices)%nat → size indices ≤ INT_MAX →
     ∃ p c, most_frequent_pair indices = Done (p, c) ∧
            p ∈ adjacent_pairs indices ∧
            c = occurrences p indices ∧ 1 ≤ c ∧
            ∀ q, occurrences q indices ≤ c).
Proof.
  split.
  - intros x. unfold most_frequent_pair.
    assert (while_loop (S (length [x])) (count_cond [x]) (count_body [x])
              (∅, 0) = Done (∅, 0)) as -> by done.
    cbn [mbind result_bind fst]. rewrite map_to_list_empty.
    pose proof (iter_counts_perm []) as Hperm.
    apply Permutation_nil_r in Hperm. by rewrite Hperm.
  - apply most_frequent_pair_run.
Qed.

Lemma most_frequent_pair_most_frequent_witness :
  ∃ p c, @most_frequent_pair listing_order [1; 2; 1; 2; 3] = Done (p, c) ∧
         p ∈ adjacent_pairs [1; 2; 1; 2; 3] ∧
         c = occurrences p [1; 2; 1; 2; 3] ∧ 1 ≤ c ∧
         ∀ q, occurrences q [1; 2; 1; 2; 3] ≤ c.
Proof.
  apply (proj2 (@most_frequent_pair_most_frequent listing_order)
           [1; 2; 1; 2; 3]); [cbn; lia|by vm_compute].
Defined.

(** ** merge_pair *)

Lemma rewrite_spec_absent p n l :
  p ∉ adjacent_pairs l → rewrite_spec p n l = l.
Proof.
  induction l as [| |a b r IH1 IH2] using pass_ind; [done..|].
  rewrite adjacent_pairs_cons, rewrite_spec_cons2.
  intros [Hne Hrest]%not_elem_of_cons.
  rewrite decide_False by done. by rewrite IH2.
Qed.

Lemma rewrite_spec_present p n l :
  p ∈ adjacent_pairs l →
  (length (rewrite_spec p n l) < length l)%nat ∧ n ∈ rewrite_spec p n l.
Proof.
  induction l as [| |a b r IH1 IH2] using pass_ind;
    [by intros ?%elem_of_nil..|].
  rewrite adjacent_pairs_cons, rewrite_spec_cons2.
  destruct (decide ((a, b) = p)) as [Hp|Hp].
  - intros _. pose proof (rewrite_spec_length p n r).
    split; [cbn; lia|left].
  - intros [?|Hin]%elem_of_cons; [done|].
    destruct (IH2 Hin). split; [cbn in *; lia|by right].
Qed.

Lemma rewrite_spec_half p n l :
  (length l ≤ 2 * length (rewrite_spec p n l))%nat.
Proof.
  induction l as [| |a b r IH1 IH2] using pass_ind; [cbn; lia..|].
  rewrite rewrite_spec_cons2. destruct (decide _); cbn in *; lia.
Qed.

(** X6: what [merge_pair] does to a sequence.  It returns for every
    input.  If the pair does not occur, the sequence comes back unchanged;
    if it occurs, the result is shorter and holds the new ID.  The result
    is never shorter than half the input, holds nothing but the new ID and
    IDs of the input, and, when the new ID is neither ID of the pair, the
    pair no longer occurs in it. *)
Theorem merge_pair_effect indices p new_index :
  ∃ merged,
    merge_pair indices p new_index = Done merged ∧
    (p ∉ adjacent_pairs indices → merged = indices) ∧
    (p ∈ adjacent_pairs indices →
     (length merged < length indices)%nat ∧ new_index ∈ merged) ∧
    (length indices ≤ 2 * length merged)%nat ∧
    (∀ x, x ∈ merged → x = new_index ∨ x ∈ indices) ∧
    (new_index ≠ p.1 → new_index ≠ p.2 → p ∉ adjacent_pairs merged).
Proof.
  exists (rewrite_spec p new_index indices).
  split; [apply merge_pair_spec|]. split; [apply rewrite_spec_absent|].
  split; [apply rewrite_spec_present|]. split; [apply rewrite_spec_half|].
  split; [apply rewrite_spec_elem|].
  intros H1 H2 [?|[?|[_ ?]]]%rewrite_spec_adjacent; done.
Qed.

Lemma merge_pair_effect_witness :
  ∃ merged,
    merge_pair [1; 2; 1; 2; 3] (1, 2) 256 = Done merged ∧
    (length merged < length [1; 2; 1; 2; 3])%nat ∧ 256 ∈ merged ∧
    (1, 2) ∉ adjacent_pairs merged.
Proof.
  destruct (merge_pair_effect [1; 2; 1; 2; 3] (1, 2) 256)
    as (merged & Hrun & _ & Hpresent & _ & _ & Hgone).
  exists merged. split; [done|].
  destruct Hpresent as [Hlen Hin]; [left|].
  split; [done|]. split; [done|]. by apply Hgone.
Defined.

Lemma rewrite_spec_text {A} (f : Z → list A) a b n l :
  f n = f a ++ f b →
  mjoin (f <$> rewrite_spec (a, b) n l) = mjoin (f <$> l).
Proof.
  intros Hn. induction l as [| |x y r IH1 IH2] using pass_ind; [done..|].
  rewrite rewrite_spec_cons2. destruct (decide ((x, y) = (a, b))) as [[= -> ->]|].
  - rewrite !join_fmap_cons, IH1, Hn. by rewrite <- app_assoc.
  - rewrite (join_fmap_cons _ x (y :: r)), join_fmap_cons. by rewrite IH2.
Qed.

(** X7: [merge_pair] keeps the text of a sequence: under every expansion
    of IDs into byte strings in which the new ID stands for the
    concatenation of the two IDs of the pair, the merged sequence expands
    to the same bytes as the input. *)
Theorem merge_pair_keeps_text {A} (f : Z → list A) indices a b new_index :
  f new_index = f a ++ f b →
  ∃ merged,
    merge_pair indices (a, b) new_index = Done merged ∧
    mjoin (f <$> merged) = mjoin (f <$> indices).
Proof.
  intros Hn. eexists. split; [apply merge_pair_spec|].
  by apply rewrite_spec_text.
Qed.

Lemma merge_pair_keeps_text_witness :
  ∃ merged,
    merge_pair [97; 97; 97; 98] (97, 97) 256 = Done merged ∧
    mjoin ((λ id, if decide (id = 256) then [97; 97] else [id]) <$> merged)
    = mjoin ((λ id, if decide (id = 256) then [97; 97] else [id])
               <$> [97; 97; 97; 98]).
Proof.
  by apply (merge_pair_keeps_text
              (λ id, if decide (id = 256) then [97; 97] else [id])
              [97; 97; 97; 98] 97 97 256).
Defined.

(** ** encode *)

Lemma merge_pass_Forall (Q : Z → Prop) m l :
  (∀ a b v, m !! (a, b) = Some v → Q v) →
  Forall Q l → Forall Q (merge_pass m l).1.
Proof.
  intros Hm. induction l as [| |a b r IH1 IH2] using pass_ind; [done..|].
  intros [Ha [Hb Hr]%Forall_cons]%Forall_cons. rewrite merge_pass_cons2.
  destruct (m !! (a, b)) as [v|] eqn:Hab; cbn [fst].
  - apply Forall_cons. eauto.
  - apply Forall_cons. split; [done|]. apply IH2. by apply Forall_cons.
Qed.

Lemma passes_Forall (Q : Z → Prop) m l l' :
  (∀ a b v, m !! (a, b) = Some v → Q v) →
  passes m l l' → Forall Q l → Forall Q l'.
Proof.
  intros Hm. induction 1 as [|l l' l'' Hpass _ IH]; [done|].
  intros Hl. apply IH. pose proof (merge_pass_Forall Q m l Hm Hl) as HQ.
  by rewrite Hpass in HQ.
Qed.

Lemma passes_length m l l' :
  passes m l l' → l ≠ [] → (1 ≤ length l' ≤ length l)%nat.
Proof.
  induction 1 as [l|l l' l'' Hpass _ IH]; intros Hne.
  - destruct l; [done|cbn; lia].
  - pose proof (merge_pass_length m l) as Hlen.
    pose proof (merge_pass_nonempty m l Hne) as Hne'.
    rewrite Hpass in Hlen, Hne'. cbn in Hlen, Hne'.
    specialize (IH Hne'). lia.
Qed.

Lemma token_iterator_join fuel alts first s pieces :
  token_iterator fuel alts first s = Done pieces → mjoin pieces = s.
Proof.
  revert first s pieces. induction fuel as [|fuel IH]; intros first s pieces;
    cbn [token_iterator];
    destruct (regex_search alts s) as [[[pre m] rest]|] eqn:Hs.
  - done.
  - destruct (first || bool_decide (s ≠ [])) eqn:Hf; intros [= <-]; cbn.
    + by rewrite app_nil_r.
    + apply orb_false_elim in Hf as [_ Hf]. apply bool_decide_eq_false in Hf.
      by destruct s; [|destruct Hf].
  - apply regex_search_Some in Hs as [_ ->].
    destruct (token_iterator fuel alts false rest) as [l|] eqn:Hl; [|done].
    intros [= <-]. apply IH in Hl. cbn. by rewrite <- Hl.
  - destruct (first || bool_decide (s ≠ [])) eqn:Hf; intros [= <-]; cbn.
    + by rewrite app_nil_r.
    + apply orb_false_elim in Hf as [_ Hf]. apply bool_decide_eq_false in Hf.
      by destruct s; [|destruct Hf].
Qed.

Lemma encode_non_special_Done t input ids t' :
  wf t → _encode_non_special input t = Done (ids, t') →
  t' = t ∧ mjoin (token_text t <$> ids) = input ∧
  Forall (λ id, id < next_id t ∧ known t id) ids ∧
  (1 ≤ length ids ≤ length input)%nat.
Proof.
  intros Hwf. destruct input as [|c input];
    [by rewrite encode_non_special_empty|].
  destruct (encode_non_special_run (c :: input) t) as (ids0 & -> & Hp & _);
    [done|].
  intros [= <- <-]. split; [done|].
  destruct (passes_text t Hwf _ _ Hp) as [Htext _].
  split; [by rewrite Htext, bytes_text|]. split.
  - eapply passes_Forall; [|done|].
    + intros a b v (_&_&?&_&_&_&ta&tb&_&_&Hv)%(wf_pairs _ Hwf).
      split; [done|right; eauto].
    + apply Forall_forall. intros x (c' & -> & _)%list_elem_of_fmap.
      pose proof (byte_to_int_range c'). pose proof (wf_next_id _ Hwf).
      split; [lia|]. right. rewrite (wf_bytes _ Hwf). eauto.
  - apply passes_length in Hp; [|done].
    unfold string_to_byte in Hp. by rewrite length_map in Hp.
Qed.

Lemma encode_split_Done t indices split ids' t' :
  wf t → encode_split indices split t = Done (ids', t') →
  ∃ ids, ids' = indices ++ ids ∧ t' = t ∧
         mjoin (token_text t <$> ids) = split ∧
         Forall (λ id, id < next_id t ∧ known t id) ids.
Proof.
  intros Hwf. unfold encode_split. rewrite M_bind_unfold. unfold gets at 1.
  destruct (special_to_id t !! split) as [id|] eqn:Hid.
  - rewrite bool_decide_eq_true_2 by eauto.
    rewrite M_bind_unfold, (special_to_id_index_Some _ _ _ Hid).
    intros [= <- <-]. exists [id]. split; [done|]. split; [done|]. cbn.
    rewrite (token_text_special t Hwf _ _ Hid), app_nil_r. split; [done|].
    apply Forall_singleton.
    pose proof (wf_special_inverse _ Hwf _ _ Hid) as Hs.
    split; [apply (wf_special_ids _ Hwf) in Hs; lia|left; eauto].
  - rewrite bool_decide_eq_false_2 by apply is_Some_None.
    rewrite M_bind_unfold.
    destruct (_encode_non_special split t) as [[ids t1]|] eqn:Hns; [|done].
    apply (encode_non_special_Done _ _ _ _ Hwf) in Hns as (-> & ? & ? & _).
    intros [= <- <-]. by exists ids.
Qed.

Lemma encode_splits_Done t splits indices ids' t' :
  wf t → for_each encode_split indices splits t = Done (ids', t') →
  ∃ ids, ids' = indices ++ ids ∧ t' = t ∧
         mjoin (token_text t <$> ids) = mjoin splits ∧
         Forall (λ id, id < next_id t ∧ known t id) ids.
Proof.
  intros Hwf. revert indices.
  induction splits as [|split splits IH]; intros indices.
  - intros [= <- <-]. exists []. by rewrite app_nil_r.
  - cbn [for_each]. rewrite M_bind_unfold.
    destruct (encode_split indices split t) as [[ids1 t1]|] eqn:H1; [|done].
    destruct (encode_split_Done _ _ _ _ _ Hwf H1) as (i1 & -> & -> & Ht1 & Hk1).
    intros (i2 & -> & -> & Ht2 & Hk2)%IH.
    exists (i1 ++ i2). rewrite <- app_assoc. split; [done|]. split; [done|].
    split; [|by apply Forall_app].
    by rewrite fmap_app, join_app, Ht1, Ht2.
Qed.

Lemma encode_with_Done `{UnorderedIteration} `{RegexLibrary} t input ids t' :
  wf t →
  (∀ special_pattern pieces,
     regex_tokens special_pattern input = Done pieces → mjoin pieces = input) →
  encode_with input t = Done (ids, t') →
  t' = t ∧ decode ids t = Done (input, t) ∧
  Forall (λ id, id < vocab_size t ∧ known t id) ids.
Proof.
  intros Hwf Hjoin. rewrite encode_with_unfold.
  assert (Hgoal : t' = t → mjoin (token_text t <$> ids) = input →
                  Forall (λ id, id < next_id t ∧ known t id) ids →
                  t' = t ∧ decode ids t = Done (input, t) ∧
                  Forall (λ id, id < vocab_size t ∧ known t id) ids).
  { intros -> Htext Hk. split; [done|]. split; [|done].
    rewrite decode_spec, Htext, decode_known; [done|].
    eapply Forall_impl; [exact Hk|]. by intros ? []. }
  destruct (bool_decide _).
  - intros (? & ? & ? & _)%(encode_non_special_Done _ _ _ _ Hwf). auto.
  - destruct (regex_construct _) as [special_pattern|]; [|done].
    destruct (regex_tokens _ _) as [pieces|] eqn:Hit; [|done].
    intros (i & -> & -> & Htext & Hk)%(encode_splits_Done _ _ _ _ _ Hwf).
    apply Hjoin in Hit. rewrite Hit in Htext. by apply Hgoal.
Qed.

(** X8: whenever [encode] returns on a well-formed object, [decode] turns
    its result back into the input, and neither call changes the object;
    every ID of the result is below [vocab_size] and in one of the tables
    of [decode].  This needs no assumption on the special tokens or on the
    order of iteration: it holds for [encode] and, with the library as a
    parameter, for every regex library whose token iterator yields pieces
    that make up the input. *)
Theorem encode_then_decode `{UnorderedIteration} `{RegexLibrary}
    t input ids t' :
  wf t →
  encode input t = Done (ids, t') ∨
  (encode_with input t = Done (ids, t') ∧
   ∀ special_pattern pieces,
     regex_tokens special_pattern input = Done pieces →
     mjoin pieces = input) →
  t' = t ∧ decode ids t = Done (input, t) ∧
  Forall (λ id, id < vocab_size t ∧ known t id) ids.
Proof.
  intros Hwf [Hrun|[Hrun Hjoin]].
  - apply (@encode_with_Done _ fragment_regex t input ids t' Hwf); [|exact Hrun].
    intros special_pattern pieces. apply token_iterator_join.
  - by apply encode_with_Done.
Qed.

Lemma encode_then_decode_witness :
  (∃ ids,
     @encode listing_order (str "a<END>a") tokenizer_with_END
     = Done (ids, tokenizer_with_END) ∧
     decode ids tokenizer_with_END = Done (str "a<END>a", tokenizer_with_END) ∧
     Forall (λ id, id < vocab_size tokenizer_with_END
                   ∧ known tokenizer_with_END id) ids) ∧
  (∃ ids,
     @encode_with listing_order digit_class_regex (str "abc")
       tokenizer_with_digit_class
     = Done (ids, tokenizer_with_digit_class) ∧
     decode ids tokenizer_with_digit_class
     = Done (str "abc", tokenizer_with_digit_class) ∧
     Forall (λ id, id < vocab_size tokenizer_with_digit_class
                   ∧ known tokenizer_with_digit_class id) ids).
Proof.
  split.
  - destruct (@encode listing_order (str "a<END>a") tokenizer_with_END)
      as [[ids t']|e] eqn:Hrun; [|by vm_compute in Hrun].
    destruct (@encode_then_decode listing_order fragment_regex
                tokenizer_with_END (str "a<END>a") ids t' wf_with_END
                (or_introl Hrun)) as (Heq & Hdec & Hids).
    exists ids. split; [by rewrite <- Heq|]. split; assumption.
  - destruct (@encode_with listing_order digit_class_regex (str "abc")
                tokenizer_with_digit_class)
      as [[ids t']|e] eqn:Hrun; [|by vm_compute in Hrun].
    destruct (@encode_then_decode listing_order digit_class_regex
                tokenizer_with_digit_class (str "abc") ids t'
                wf_with_digit_class) as (Heq & Hdec & Hids).
    + right. split; [exact Hrun|]. intros [] pieces. cbn.
      destruct (bool_decide _); [|done]. by intros [= <-].
    + exists ids. split; [by rewrite <- Heq|]. split; assumption.
Defined.

(** X23: when [encode] returns, with special tokens registered and the
    regex library as a parameter.  If the library accepts the pattern and
    yields the pieces, [encode] returns on a well-formed object when every
    piece is a special token or not empty, and its result has the text of
    the pieces; if a piece is empty (and the empty string is no special
    token) it reads past the end of an empty sequence. *)
Theorem encode_with_returns `{UnorderedIteration} `{RegexLibrary}
    t input special_pattern pieces :
  wf t → special_to_id t ≠ ∅ →
  regex_construct (build_pattern (specials t)) = Done special_pattern →
  regex_tokens special_pattern input = Done pieces →
  ((∀ piece, piece ∈ pieces →
      piece ≠ [] ∨ is_Some (special_to_id t !! piece)) →
   ∃ ids, encode_with input t = Done (ids, t) ∧
          mjoin (token_text t <$> ids) = mjoin pieces) ∧
  ([] ∈ pieces → special_to_id t !! [] = None →
   encode_with input t = Fault OutOfBounds).
Proof.
  intros Hwf Hne Hre Hit. rewrite encode_with_unfold.
  rewrite bool_decide_eq_false_2 by done. fold (specials t).
  rewrite Hre, Hit. split.
  - intros Hpieces.
    destruct (encode_splits_text t Hwf pieces [] Hpieces)
      as (ids & Hrun & Htext & _).
    by exists ids.
  - intros Hin Hnil. by apply encode_splits_fault.
Qed.

Lemma encode_with_returns_witness :
  ∃ ids, @encode_with listing_order digit_class_regex (str "abc")
           tokenizer_with_digit_class
         = Done (ids, tokenizer_with_digit_class) ∧
         mjoin (token_text tokenizer_with_digit_class <$> ids)
         = mjoin [str "abc"].
Proof.
  destruct (@encode_with_returns listing_order digit_class_regex
              tokenizer_with_digit_class (str "abc") tt [str "abc"])
    as [Hreturns _].
  - exact wf_with_digit_class.
  - apply (bool_decide_unpack _). by vm_compute.
  - vm_compute. reflexivity.
  - vm_compute. reflexivity.
  - apply Hreturns. intros piece ->%list_elem_of_singleton. by left.
Defined.

Lemma merge_pass_absent m l :
  (∀ q, q ∈ adjacent_pairs l → m !! q = None) → merge_pass m l = (l, false).
Proof.
  induction l as [| |a b r IH1 IH2] using pass_ind; [done..|].
  rewrite adjacent_pairs_cons, merge_pass_cons2. intros Hq.
  rewrite (Hq (a, b)) by left. rewrite IH2; [done|].
  intros q ?. apply Hq. by right.
Qed.

(** X9: on a span that is not empty [_encode_non_special] returns between
    one ID and as many IDs as the span has bytes, and it returns the bytes
    of the span as they are exactly when no two neighbouring bytes are a
    key of the merge table (in particular on a new tokenizer). *)
Theorem encode_non_special_bytes input t :
  input ≠ [] →
  ∃ ids,
    _encode_non_special input t = Done (ids, t) ∧
    (1 ≤ length ids ≤ length input)%nat ∧
    (ids = string_to_byte input ↔
     ∀ q, q ∈ adjacent_pairs (string_to_byte input) → pairs t !! q = None).
Proof.
  intros Hne. destruct (encode_non_special_run input t Hne)
    as (ids & Hrun & Hp & Hst).
  exists ids. split; [done|]. split.
  - apply passes_length in Hp; [|by destruct input].
    unfold string_to_byte in Hp. by rewrite length_map in Hp.
  - split.
    + intros ->. apply (merge_pass_unchanged (pairs t)). by rewrite Hst.
    + intros Habsent%merge_pass_absent.
      inversion Hp as [|? l' ? Hpass]; [done|]. subst. congruence.
Qed.

Lemma encode_non_special_bytes_witness :
  ∃ ids,
    _encode_non_special (str "abc") (reset 1000) = Done (ids, reset 1000) ∧
    (1 ≤ length ids ≤ length (str "abc"))%nat ∧
    (ids = string_to_byte (str "abc") ↔
     ∀ q, q ∈ adjacent_pairs (string_to_byte (str "abc")) →
          pairs (reset 1000) !! q = None).
Proof. by apply (encode_non_special_bytes (str "abc") (reset 1000)). Defined.

Lemma merge_pass_single p n l :
  merge_pass {[p := n]} l
  = (rewrite_spec p n l, bool_decide (p ∈ adjacent_pairs l)).
Proof.
  induction l as [| |a b r IH1 IH2] using pass_ind.
  - cbn. by rewrite bool_decide_eq_false_2 by apply not_elem_of_nil.
  - cbn. by rewrite bool_decide_eq_false_2 by apply not_elem_of_nil.
  - rewrite merge_pass_cons2, rewrite_spec_cons2, adjacent_pairs_cons.
    destruct (decide ((a, b) = p)) as [<-|Hne].
    + rewrite lookup_singleton_eq, IH1. cbn.
      by rewrite bool_decide_eq_true_2 by left.
    + rewrite lookup_singleton_ne by done. rewrite IH2. cbn. f_equal.
      apply bool_decide_ext. rewrite elem_of_cons.
      split; [by right|]. by intros [->|?].
Qed.

(** X10: with a merge table of one rule the encoder does what the trainer
    did: on a span that is not empty [_encode_non_special] returns the
    result of [merge_pair] for that rule on the bytes of the span (when
    the ID of the rule is neither ID of its pair). *)
Theorem encode_single_rule input t a b n :
  pairs t = {[(a, b) := n]} → n ≠ a → n ≠ b → input ≠ [] →
  ∃ ids,
    merge_pair (string_to_byte input) (a, b) n = Done ids ∧
    _encode_non_special input t = Done (ids, t).
Proof.
  intros Hpairs Ha Hb Hne.
  exists (rewrite_spec (a, b) n (string_to_byte input)).
  split; [apply merge_pair_spec|].
  destruct (encode_non_special_run input t Hne) as (ids & -> & Hp & Hst).
  do 2 f_equal. rewrite Hpairs in Hp, Hst. clear Hpairs Hne.
  assert (Hstable : merge_pass {[(a, b) := n]}
                      (rewrite_spec (a, b) n (string_to_byte input))
                    = (rewrite_spec (a, b) n (string_to_byte input), false)).
  { apply merge_pass_absent. intros q Hq.
    apply lookup_singleton_None. intros <-.
    apply rewrite_spec_adjacent in Hq as [?|[?|[_ ?]]]; done. }
  inversion Hp as [|? l' ? Hpass Hrest]; subst.
  - rewrite merge_pass_single in Hst. by injection Hst as -> _.
  - rewrite merge_pass_single in Hpass. injection Hpass as <- _.
    inversion Hrest as [|? l'' ? Hpass' _]; subst; [done|]. congruence.
Qed.

Lemma encode_single_rule_witness :
  ∃ ids,
    merge_pair (string_to_byte (str "aaab")) (97, 97) 256 = Done ids ∧
    _encode_non_special (str "aaab") (set_pairs (λ _, {[(97, 97) := 256]})
                                          (reset 1000))
    = Done (ids, set_pairs (λ _, {[(97, 97) := 256]}) (reset 1000)).
Proof.
  by apply (encode_single_rule (str "aaab")
              (set_pairs (λ _, {[(97, 97) := 256]}) (reset 1000)) 97 97 256).
Defined.

(** ** train *)

Lemma train_run_exit `{UnorderedIteration} stop_early
    (P : list Z * list merge_event → BPETokenizer → Prop) input t log t' :
  P (string_to_byte input, []) t →
  (∀ indices log s p c,
     P (indices, log) s → next_id s < max_vocab_size s →
     most_frequent_pair indices = Done (p, c) →
     ¬ (p.1 = -1 ∧ p.2 = -1) → next_id s < INT_MAX →
     P (rewrite_spec p (next_id s) indices,
        log ++ [(p, next_id s, token_or_empty s p.1 ++ token_or_empty s p.2)])
       (merged_state p s)) →
  train input stop_early t = Done (log, t') →
  ∃ indices,
    P (indices, log) t' ∧
    (max_vocab_size t' ≤ next_id t' ∨
     ∃ p c, most_frequent_pair indices = Done (p, c) ∧
            ((p.1 = -1 ∧ p.2 = -1) ∨ (stop_early = true ∧ c = 1))).
Proof.
  intros Hinit Hstep. rewrite train_unfold.
  destruct (while_M _ _ _ _ _) as [[[indices log'] t'']|] eqn:Hrun; [|done].
  intros [= -> ->]. exists indices.
  eapply (while_M_inv _ _ P) in Hrun; [| |done].
  - destruct Hrun as [[? Hc]|(l0 & t0 & HP & _ & Hb)].
    { split; [done|]. left. unfold train_cond, vocab_size in Hc.
      by apply Z.ltb_ge in Hc. }
    destruct l0 as [ind0 log0]. rewrite train_body_run in Hb.
    destruct (most_frequent_pair ind0) as [[p c]|] eqn:Hmf; [|done].
    destruct (bool_decide (p.1 = -1 ∧ p.2 = -1)) eqn:Hsent.
    { simplify_eq. split; [done|]. right. exists p, c.
      apply bool_decide_eq_true in Hsent. auto. }
    destruct stop_early; cbn [andb] in Hb.
    + destruct (Z.eqb_spec c 1) as [->|].
      { simplify_eq. split; [done|]. right. exists p, 1. auto. }
      by destruct (next_id t0 <? INT_MAX).
    + by destruct (next_id t0 <? INT_MAX).
  - intros [ind1 log1] s1 [ind2 log2] s2 HP Hc Hb.
    unfold train_cond, vocab_size in Hc. apply Z.ltb_lt in Hc.
    rewrite train_body_run in Hb.
    destruct (most_frequent_pair ind1) as [[p c]|] eqn:Hmf; [|done].
    destruct (bool_decide (p.1 = -1 ∧ p.2 = -1)) eqn:Hsent; [done|].
    apply bool_decide_eq_false in Hsent.
    destruct (stop_early && _); [done|].
    destruct (Z.ltb_spec (next_id s1) INT_MAX); [|done].
    simplify_eq. by eapply Hstep.
Qed.

Lemma replay_snoc log e indices :
  replay (log ++ [e]) indices = rewrite_spec e.1.1 e.1.2 (replay log indices).
Proof. unfold replay. by rewrite foldl_app. Qed.

Lemma token_text_merged a b s x :
  wf s → symbol_id s a → symbol_id s b → symbol_id s x →
  token_text (merged_state (a, b) s) x = token_text s x.
Proof.
  intros Hwf (_ & _ & Ha) (_ & _ & Hb) (Hx & Hxs & Hxt).
  rewrite merged_state_known by done. unfold token_text. cbn.
  rewrite Hxs. by rewrite lookup_insert_ne by lia.
Qed.

Lemma token_text_merged_new a b s :
  wf s → symbol_id s a → symbol_id s b →
  token_text (merged_state (a, b) s) (next_id s)
  = token_text s a ++ token_text s b.
Proof.
  intros Hwf (_ & Has & [ta Hta]) (_ & Hbs & [tb Htb]).
  rewrite merged_state_known by (cbn; eauto). unfold token_text. cbn.
  destruct (id_to_special s !! next_id s) eqn:Hs.
  { apply (wf_special_ids _ Hwf) in Hs. lia. }
  rewrite lookup_insert_eq, Has, Hbs. unfold token_or_empty.
  by rewrite Hta, Htb.
Qed.

(** X11: what [train] leaves behind on a well-formed object.  The object
    is well formed again.  Every line of the log is in the tables: the
    pair maps to the new ID, the new ID has the logged token, and that
    token is the text of the first ID of the pair followed by the text of
    the second.  The corpus rewritten by the merges of the log still
    decodes to the corpus. *)
Theorem train_records_log `{UnorderedIteration} input stop_early t log t' :
  wf t → train input stop_early t = Done (log, t') →
  wf t' ∧
  (∀ a b n token, ((a, b), n, token) ∈ log →
     pairs t' !! (a, b) = Some n ∧ id_to_token t' !! n = Some token ∧
     token = token_text t' a ++ token_text t' b ∧
     vocab_size t ≤ n < vocab_size t') ∧
  decode (replay log (string_to_byte input)) t' = Done (input, t').
Proof.
  intros Hwf Hrun.
  destruct (train_run_inv stop_early
    (λ l s, wf s ∧ next_id t ≤ next_id s ∧
            (∀ x, x ∈ l.1 → symbol_id s x) ∧
            l.1 = replay l.2 (string_to_byte input) ∧
            mjoin (token_text s <$> l.1) = input ∧
            ∀ e, e ∈ l.2 →
              (e.1.1 ∉ adjacent_pairs l.1) ∧ pairs s !! e.1.1 = Some e.1.2 ∧
              id_to_token s !! e.1.2 = Some e.2 ∧ next_id t ≤ e.1.2)
    input t log t')
    as (ind & Hwf' & _ & Hsym & Hrep & Htext & Hlog); [| |done|].
  - cbn. split; [done|]. split; [done|]. split.
    { intros x (c & -> & _)%list_elem_of_fmap. unfold symbol_id.
      rewrite (wf_bytes _ Hwf), (byte_not_special t Hwf).
      pose proof (byte_to_int_range c). pose proof (wf_next_id _ Hwf).
      split; [lia|eauto]. }
    split; [done|]. split; [apply (bytes_text t Hwf)|].
    by intros e ?%elem_of_nil.
  - intros ind lg s [a b] c (Hwfs & Hle & Hsym & Hrep & Htext & Hlog)
      _ Hmf Hsent _.
    cbn [fst snd] in *.
    destruct (most_frequent_pair_Done _ _ _ Hmf) as [[[= -> ->] _]|Hadj];
      [by destruct Hsent|].
    destruct (adjacent_pairs_elem _ _ _ Hadj) as [Ha%Hsym Hb%Hsym].
    destruct (wf_merged a b s Hwfs Ha Hb) as (Hwf' & Hnew & Hold).
    pose proof Ha as (Halt & _ & Hta). pose proof Hb as (Hblt & _ & Htb).
    rewrite next_id_merged, pairs_merged.
    split; [done|]. split; [lia|]. split.
    { intros x [->|Hx]%rewrite_spec_elem; auto. }
    split; [by rewrite replay_snoc, <- Hrep|]. split.
    { rewrite rewrite_spec_text
        by by rewrite token_text_merged_new, !token_text_merged.
      rewrite <- Htext. f_equal. apply Forall_fmap_ext, Forall_forall.
      intros x Hx. apply token_text_merged; auto. }
    intros e [He| ->%list_elem_of_singleton]%elem_of_app.
    + destruct (Hlog e He) as (Hnadj & Hkey & Htok & Hid).
      destruct e as [[[a' b'] n'] tok']. cbn [fst snd] in *.
      destruct (wf_pairs _ Hwfs _ _ _ Hkey) as (? & ? & ? & _).
      split.
      { intros [?|[?|[? _]]]%rewrite_spec_adjacent; cbn in *; [lia..|done]. }
      split.
      { rewrite lookup_insert_ne; [done|]. by intros [= <- <-]. }
      split; [|done].
      rewrite merged_state_known by done.
      cbn. by rewrite lookup_insert_ne by lia.
    + cbn [fst snd].
      split.
      { intros [?|[?|[_ ?]]]%rewrite_spec_adjacent; cbn in *; [lia..|done]. }
      split; [apply lookup_insert_eq|]. split; [|done].
      rewrite merged_state_known by done. cbn. apply lookup_insert_eq.
  - cbn [fst snd] in *. split; [done|]. split.
    + intros a b n token He. destruct (Hlog _ He) as (_ & Hkey & Htok & Hid).
      cbn [fst snd] in *. split; [done|]. split; [done|].
      destruct (wf_pairs _ Hwf' _ _ _ Hkey)
        as (_ & _ & ? & Hsa & Hsb & _ & ta & tb & Hta & Htb & Hn).
      unfold token_text, vocab_size. rewrite Hsa, Hsb, Hta, Htb. cbn.
      split; [congruence|lia].
    + rewrite decode_spec, <- Hrep, Htext, decode_known; [done|].
      apply Forall_forall. intros x (_ & _ & ?)%Hsym. by right.
Qed.

Lemma train_records_log_witness :
  ∃ log t',
    @train listing_order (str "abab") false (reset 258) = Done (log, t') ∧
    wf t' ∧
    (∀ a b n token, ((a, b), n, token) ∈ log →
       pairs t' !! (a, b) = Some n ∧ id_to_token t' !! n = Some token ∧
       token = token_text t' a ++ token_text t' b ∧
       vocab_size (reset 258) ≤ n < vocab_size t') ∧
    decode (replay log (string_to_byte (str "abab"))) t'
    = Done (str "abab", t').
Proof.
  destruct (@train listing_order (str "abab") false (reset 258))
    as [[log t']|e] eqn:Hrun; [|by vm_compute in Hrun].
  exists log, t'. split; [reflexivity|].
  exact (@train_records_log listing_order (str "abab") false (reset 258)
           log t' (wf_reset 258) Hrun).
Defined.

(** X12: why [train] stops.  When it returns with room left in the
    vocabulary, the rewritten corpus is a single ID, or [stop_early] is set
    and no pair of neighbours occurs twice in it.  (For a corpus whose
    length fits an [int] and a counter that is not negative.) *)
Theorem train_stops_when `{UnorderedIteration} input stop_early t log t' :
  0 ≤ next_id t → size input ≤ INT_MAX →
  train input stop_early t = Done (log, t') →
  max_vocab_size t' ≤ vocab_size t' ∨
  length (replay log (string_to_byte input)) = 1%nat ∨
  (stop_early = true ∧
   ∀ q, occurrences q (replay log (string_to_byte input)) ≤ 1).
Proof.
  intros Hn Hsize Hrun.
  destruct (train_run_exit stop_early
    (λ l s, next_id t ≤ next_id s ∧ (∀ x, x ∈ l.1 → 0 ≤ x) ∧
            size l.1 ≤ INT_MAX ∧ l.1 = replay l.2 (string_to_byte input))
    input t log t')
    as (ind & (_ & Hpos & Hlen & Hrep) & Hexit); [| |done|].
  - cbn. split; [done|]. split.
    { intros x (c & -> & _)%list_elem_of_fmap. apply byte_to_int_range. }
    split; [|done]. unfold size, string_to_byte in *. by rewrite length_map.
  - intros ind lg s p c (Hle & Hpos & Hlen & Hrep) _ _ _ _. cbn [fst snd] in *.
    rewrite next_id_merged. split; [lia|]. split.
    { intros x [->|Hx]%rewrite_spec_elem; [lia|auto]. }
    split; [|by rewrite replay_snoc, <- Hrep].
    pose proof (rewrite_spec_length p (next_id s) ind). unfold size in *. lia.
  - cbn [fst snd] in *. rewrite <- Hrep.
    destruct Hexit as [?|(p & c & Hmf & Hwhy)]; [by left|right].
    destruct ind as [|x [|y ind]];
      [by rewrite most_frequent_pair_empty in Hmf|by left|].
    destruct (most_frequent_pair_run (x :: y :: ind)) as (p' & c' & Hmf' & Hadj & Hc & _ & Hmost);
      [cbn; lia|done|].
    rewrite Hmf in Hmf'. injection Hmf' as <- <-.
    destruct Hwhy as [[Hp1 Hp2]|[-> ->]].
    + destruct p as [a b]. cbn in Hp1, Hp2. subst.
      apply adjacent_pairs_elem in Hadj as [Hneg%Hpos _]. lia.
    + right. split; [done|]. intros q. apply Hmost.
Qed.

Lemma train_stops_when_witness :
  ∃ log t',
    @train listing_order (str "abab") false (reset 1000) = Done (log, t') ∧
    (max_vocab_size t' ≤ vocab_size t' ∨
     length (replay log (string_to_byte (str "abab"))) = 1%nat ∨
     (false = true ∧
      ∀ q, occurrences q (replay log (string_to_byte (str "abab"))) ≤ 1)).
Proof.
  destruct (@train listing_order (str "abab") false (reset 1000))
    as [[log t']|e] eqn:Hrun; [|by vm_compute in Hrun].
  exists log, t'. split; [reflexivity|].
  apply (@train_stops_when listing_order (str "abab") false (reset 1000)
           log t'); [by vm_compute|by vm_compute|exact Hrun].
Defined.

(** ** What training and registration leave alone *)

Lemma token_touch_frame k s :
  special_to_id (token_touch k s) = special_to_id s ∧
  id_to_special (token_touch k s) = id_to_special s ∧
  ∀ id token, id_to_token s !! id = Some token →
              id_to_token (token_touch k s) !! id = Some token.
Proof.
  unfold token_touch. destruct (id_to_token s !! k) eqn:Hk; [done|]. cbn.
  repeat split. intros id token Hid.
  rewrite lookup_insert_ne; [done|]. intros ->. by simplify_eq.
Qed.

Lemma merged_state_frame p s :
  special_to_id (merged_state p s) = special_to_id s ∧
  id_to_special (merged_state p s) = id_to_special s ∧
  ∀ id token, id_to_token s !! id = Some token → id ≠ next_id s →
              id_to_token (merged_state p s) !! id = Some token.
Proof.
  unfold merged_state. cbn.
  destruct (token_touch_frame p.1 s) as (H1 & H2 & H3).
  destruct (token_touch_frame p.2 (token_touch p.1 s)) as (H4 & H5 & H6).
  rewrite H4, H1, H5, H2. repeat split. intros id token Hid Hne.
  rewrite lookup_insert_ne by done. auto.
Qed.

Lemma train_frame `{UnorderedIteration} input stop_early t log t' :
  train input stop_early t = Done (log, t') →
  special_to_id t' = special_to_id t ∧ id_to_special t' = id_to_special t ∧
  next_id t ≤ next_id t' ∧
  next_id t' ≤ Z.max (max_vocab_size t) (next_id t) ∧
  max_vocab_size t' = max_vocab_size t ∧
  ∀ id token, id_to_token t !! id = Some token → id < next_id t →
              id_to_token t' !! id = Some token.
Proof.
  intros Hrun.
  destruct (train_run_inv stop_early
    (λ _ s, special_to_id s = special_to_id t ∧
            id_to_special s = id_to_special t ∧ next_id t ≤ next_id s ∧
            next_id s ≤ Z.max (max_vocab_size t) (next_id t) ∧
            max_vocab_size s = max_vocab_size t ∧
            ∀ id token, id_to_token t !! id = Some token → id < next_id t →
                        id_to_token s !! id = Some token)
    input t log t') as (_ & Hres); [| |done|done].
  - repeat split; [lia..|auto].
  - intros _ _ s p _ (H1 & H2 & H3 & H4 & H5 & H6) Hroom _ _ _.
    destruct (merged_state_frame p s) as (-> & -> & Hkeep).
    rewrite next_id_merged, max_vocab_size_merged.
    repeat split; [done|done|lia|lia|done|].
    intros id token Hid Hlt. apply Hkeep; [auto|lia].
Qed.

(** X13: sequences stay decodable.  After a call of [train] or of
    [register_special_token] every special token has the ID it had, and
    every sequence of IDs that were below [vocab_size] and in a table of
    [decode] before the call decodes to the same text as before. *)
Theorem decode_stable `{UnorderedIteration} t t' :
  (∃ input stop_early log, train input stop_early t = Done (log, t')) ∨
  (∃ token, register_special_token token t = Done (tt, t')) →
  (∀ token id, special_to_id t !! token = Some id →
               special_to_id t' !! token = Some id) ∧
  ∀ ids, Forall (λ id, id < vocab_size t ∧ known t id) ids →
    ∃ text, decode ids t = Done (text, t) ∧ decode ids t' = Done (text, t').
Proof.
  intros Hstep.
  assert (Hkeep :
    (∀ token id, special_to_id t !! token = Some id →
                 special_to_id t' !! token = Some id) ∧
    (∀ id, id < next_id t → id_to_special t' !! id = id_to_special t !! id) ∧
    (∀ id token, id_to_token t !! id = Some token → id < next_id t →
                 id_to_token t' !! id = Some token)).
  { destruct Hstep as [(input & stop_early & log & Hrun)|[token Hreg]].
    - apply train_frame in Hrun as (-> & -> & _ & _ & _ & Htok). auto.
    - destruct (special_to_id t !! token) as [id|] eqn:Hid.
      { rewrite (register_registered _ _ _ Hid) in Hreg. by simplify_eq. }
      destruct (Z.lt_ge_cases (next_id t) INT_MAX) as [Hn|Hn];
        [|by rewrite register_overflow in Hreg].
      rewrite register_fresh in Hreg by done. simplify_eq. cbn.
      split; [|split; [|done]].
      + intros tok id Htok. rewrite lookup_insert_ne; [done|].
        intros ->. by simplify_eq.
      + intros id Hlt. by rewrite lookup_insert_ne by lia. }
  destruct Hkeep as (Hspecial & Hids & Htokens). split; [done|].
  intros ids Hall. exists (mjoin (token_text t <$> ids)).
  assert (Forall (λ id, token_text t' id = token_text t id ∧ known t' id) ids)
    as Hsame.
  { eapply Forall_impl; [done|]. intros id [Hlt Hknown]. cbn in *.
    unfold vocab_size in Hlt. unfold token_text, known.
    rewrite (Hids id Hlt).
    destruct (id_to_special t !! id) eqn:Hs; [split; [done|left; eauto]|].
    destruct Hknown as [[? Hk]|[token Hk]]; [by rewrite Hs in Hk|].
    rewrite (Htokens _ _ Hk Hlt), Hk. split; [done|right; eauto]. }
  rewrite !decode_spec. split.
  - rewrite decode_known; [done|].
    eapply Forall_impl; [exact Hall|]. by intros ? [].
  - rewrite decode_known
      by (eapply Forall_impl; [exact Hsame|]; by intros ? []).
    do 3 f_equal. apply Forall_fmap_ext.
    eapply Forall_impl; [exact Hsame|]. by intros ? [].
Qed.

Lemma decode_stable_witness :
  ∃ text,
    decode [97; 98] (reset 1000) = Done (text, reset 1000) ∧
    decode [97; 98] tokenizer_with_END = Done (text, tokenizer_with_END).
Proof.
  destruct (@decode_stable listing_order (reset 1000) tokenizer_with_END)
    as [_ Hids].
  - right. exists (str "<END>"). vm_compute. reflexivity.
  - apply (Hids [97; 98]).
    repeat apply Forall_cons_2; [| |apply Forall_nil_2];
      (split; [by vm_compute|right; vm_compute; eauto]).
Defined.

(** X14: registering a token that is not registered yet.  On a
    well-formed object whose counter is below [INT_MAX] the token gets the
    ID [vocab_size], [vocab_size] grows by one, [decode] of that ID gives
    the token, the merge table and the ID-to-token table are untouched and
    the object stays well formed; with the counter at [INT_MAX] the
    increment overflows. *)
Theorem register_new_token token t :
  wf t → special_to_id t !! token = None →
  (INT_MAX ≤ next_id t →
   register_special_token token t = Fault SignedOverflow) ∧
  (next_id t < INT_MAX →
   ∃ t', register_special_token token t = Done (tt, t') ∧ wf t' ∧
         special_to_id t' !! token = Some (vocab_size t) ∧
         id_to_special t' !! vocab_size t = Some token ∧
         vocab_size t' = vocab_size t + 1 ∧
         decode [vocab_size t] t' = Done (token, t') ∧
         pairs t' = pairs t ∧ id_to_token t' = id_to_token t ∧
         max_vocab_size t' = max_vocab_size t).
Proof.
  intros Hwf Hnew. split; [by apply register_overflow|]. intros Hn.
  eexists. split; [by apply register_fresh|].
  split; [eapply wf_register; [done|by apply register_fresh]|].
  rewrite decode_spec. unfold vocab_size, token_text. cbn.
  unfold decode_touch. cbn. rewrite !lookup_insert_eq, app_nil_r.
  by repeat split.
Qed.

Lemma register_new_token_witness :
  ∃ t', register_special_token (str "<END>") (reset 1000) = Done (tt, t') ∧
        wf t' ∧
        special_to_id t' !! str "<END>" = Some (vocab_size (reset 1000)) ∧
        id_to_special t' !! vocab_size (reset 1000) = Some (str "<END>") ∧
        vocab_size t' = vocab_size (reset 1000) + 1 ∧
        decode [vocab_size (reset 1000)] t' = Done (str "<END>", t') ∧
        pairs t' = pairs (reset 1000) ∧
        id_to_token t' = id_to_token (reset 1000) ∧
        max_vocab_size t' = max_vocab_size (reset 1000).
Proof.
  apply (proj2 (register_new_token (str "<END>") (reset 1000)
                  (wf_reset 1000) eq_refl)).
  by vm_compute.
Defined.

(** ** Objects built with the member functions *)

Lemma dense_reset max : 256 < max → dense (reset max).
Proof.
  intros Hmax. split; [done| |done].
  intros id Hid. right. rewrite reset_id_to_token.
  rewrite bool_decide_eq_true_2; [eauto|]. unfold reset in Hid. cbn in Hid. lia.
Qed.

Lemma dense_register token t t' :
  dense t → register_special_token token t = Done (tt, t') → dense t'.
Proof.
  intros [Hmax Hknown Hsizes] Hreg.
  destruct (special_to_id t !! token) as [id|] eqn:Hid.
  { rewrite (register_registered _ _ _ Hid) in Hreg. by simplify_eq. }
  destruct (Z.lt_ge_cases (next_id t) INT_MAX) as [Hn|Hn];
    [|by rewrite register_overflow in Hreg].
  rewrite register_fresh in Hreg by done. simplify_eq.
  split; cbn; [done| |].
  - intros id Hrange. unfold known. cbn.
    destruct (decide (id = next_id t)) as [->|Hne].
    + left. rewrite lookup_insert_eq. eauto.
    + destruct (Hknown id) as [Hs|Ht]; [lia| |by right].
      left. by rewrite lookup_insert_ne.
  - rewrite map_size_insert_None by done. lia.
Qed.

Lemma dense_merged p s : dense s → dense (merged_state p s).
Proof.
  intros [Hmax Hknown Hsizes].
  destruct (merged_state_frame p s) as (Hsp & Hids & Hkeep).
  split.
  - by rewrite max_vocab_size_merged.
  - rewrite next_id_merged. intros id Hrange. unfold known. rewrite Hids.
    destruct (decide (id = next_id s)) as [->|Hne].
    + right. unfold merged_state. cbn. rewrite lookup_insert_eq. eauto.
    + destruct (Hknown id) as [Hs|[token Ht]]; [lia|by left|].
      right. rewrite (Hkeep _ _ Ht Hne). eauto.
  - rewrite next_id_merged, pairs_merged, Hsp, map_size_insert.
    destruct (pairs s !! p); cbn; lia.
Qed.

Lemma dense_train `{UnorderedIteration} input stop_early t log t' :
  dense t → train input stop_early t = Done (log, t') → dense t'.
Proof.
  intros Hdense Hrun.
  destruct (train_run_inv stop_early (λ _ s, dense s) input t log t')
    as (_ & Hres); [done| |done|done].
  intros _ _ s p _ Hs _ _ _ _. by apply dense_merged.
Qed.

Lemma dense_decode ids t s t' :
  dense t → decode ids t = Done (s, t') → dense t'.
Proof.
  intros [Hmax Hknown Hsizes]. rewrite decode_spec. intros [= <- <-].
  destruct (decode_touches_frame t ids) as (Hp & Hsp & _ & Hn & Hm & _).
  split.
  - by rewrite Hm.
  - rewrite Hn. intros id Hid. by apply known_touches, Hknown.
  - by rewrite Hp, Hsp, Hn.
Qed.

Lemma reachable_dense `{UnorderedIteration} t : reachable t → dense t.
Proof.
  induction 1 as [max t Hc|t _ IH| | |input t ids t' _ IH Henc|].
  - unfold construct in Hc. destruct (Z.leb_spec max 256); [done|].
    simplify_eq. by apply dense_reset.
  - apply dense_reset, IH.
  - by eapply dense_register.
  - by eapply dense_train.
  - by apply encode_frame in Henc as ->.
  - by eapply dense_decode.
Qed.

(** X15: on every object built with the public member functions, [decode]
    of IDs between 0 and [vocab_size] returns the concatenation of their
    texts and leaves the object as it is: every such ID is in
    [id_to_special] or in [id_to_token], so [operator[]] inserts nothing. *)
Theorem reachable_decode_pure `{UnorderedIteration} t ids :
  reachable t → Forall (λ id, 0 ≤ id < vocab_size t) ids →
  Forall (known t) ids ∧
  decode ids t = Done (mjoin (token_text t <$> ids), t).
Proof.
  intros Hreach%reachable_dense Hids.
  assert (Forall (known t) ids) as Hknown.
  { eapply Forall_impl; [exact Hids|]. apply Hreach. }
  split; [done|]. by rewrite decode_spec, decode_known.
Qed.

Lemma reachable_decode_pure_witness :
  Forall (known tokenizer_with_END) [104; 105; 256] ∧
  decode [104; 105; 256] tokenizer_with_END
  = Done (mjoin (token_text tokenizer_with_END <$> [104; 105; 256]),
          tokenizer_with_END).
Proof.
  apply (@reachable_decode_pure listing_order).
  - apply (reach_register (str "<END>") (reset 1000)).
    + by apply (reach_construct 1000).
    + vm_compute. reflexivity.
  - repeat apply Forall_cons_2; [| | |apply Forall_nil_2]; by vm_compute.
Defined.

(** X16: on every object built with the public member functions the
    bound is the one the constructor accepted (above 256), the number of
    merge rules plus the number of special tokens is at most the number of
    IDs handed out since 256, two special tokens never share an ID, and a
    special token's ID is at least 256, below [vocab_size] and neither the
    result nor an operand of a merge rule. *)
Theorem reachable_tables `{UnorderedIteration} t :
  reachable t →
  256 < max_vocab_size t ∧ 256 ≤ vocab_size t ∧
  Z.of_nat (base.size (pairs t)) + Z.of_nat (base.size (special_to_id t))
  ≤ vocab_size t - 256 ∧
  (∀ s1 s2 id, special_to_id t !! s1 = Some id →
               special_to_id t !! s2 = Some id → s1 = s2) ∧
  ∀ s id, special_to_id t !! s = Some id →
    256 ≤ id < vocab_size t ∧
    ∀ a b v, pairs t !! (a, b) = Some v → id ≠ a ∧ id ≠ b ∧ id ≠ v.
Proof.
  intros Hreach. pose proof (reachable_wf t Hreach) as Hwf.
  destruct (reachable_dense t Hreach) as [Hmax _ Hsizes].
  split; [done|]. split; [apply Hwf|]. split; [done|]. split.
  - intros s1 s2 id H1%(wf_special_inverse t Hwf) H2%(wf_special_inverse t Hwf).
    congruence.
  - intros s id Hs%(wf_special_inverse t Hwf).
    split; [by eapply wf_special_ids|].
    intros a b v (_ & _ & _ & Ha & Hb & Hv & _)%(wf_pairs t Hwf).
    repeat split; intros <-; congruence.
Qed.

Lemma reachable_tables_witness :
  256 < max_vocab_size tokenizer_with_END ∧
  256 ≤ vocab_size tokenizer_with_END ∧
  Z.of_nat (base.size (pairs tokenizer_with_END))
  + Z.of_nat (base.size (special_to_id tokenizer_with_END))
  ≤ vocab_size tokenizer_with_END - 256 ∧
  (∀ s1 s2 id, special_to_id tokenizer_with_END !! s1 = Some id →
               special_to_id tokenizer_with_END !! s2 = Some id → s1 = s2) ∧
  ∀ s id, special_to_id tokenizer_with_END !! s = Some id →
    256 ≤ id < vocab_size tokenizer_with_END ∧
    ∀ a b v, pairs tokenizer_with_END !! (a, b) = Some v →
             id ≠ a ∧ id ≠ b ∧ id ≠ v.
Proof.
  apply (@reachable_tables listing_order).
  apply (reach_register (str "<END>") (reset 1000)).
  - by apply (reach_construct 1000).
  - vm_compute. reflexivity.
Defined.

(** ** main *)

Lemma read_line_line line rest :
  newline ∉ line → read_line (line ++ newline :: rest) = (line, Some rest).
Proof.
  induction line as [|c line IH]; intros Hnl; cbn [app read_line].
  - by rewrite bool_decide_eq_true_2.
  - rewrite bool_decide_eq_false_2 by (intros ->; apply Hnl; left).
    rewrite IH; [done|]. intros Hin. apply Hnl. by right.
Qed.

Lemma read_line_end line :
  newline ∉ line → read_line line = (line, None).
Proof.
  induction line as [|c line IH]; intros Hnl; cbn [read_line]; [done|].
  rewrite bool_decide_eq_false_2 by (intros ->; apply Hnl; left).
  rewrite IH; [done|]. intros Hin. apply Hnl. by right.
Qed.

Lemma getline_line s line rest :
  newline ∉ line →
  getline s (stream_of (line ++ newline :: rest)) = (line, stream_of rest).
Proof. intros Hnl. unfold getline. cbn. by rewrite read_line_line. Qed.

Lemma getline_end s line :
  newline ∉ line →
  getline s (stream_of line)
  = (line, {| buffer := []; eofbit := true; failbit := bool_decide (line = []) |}).
Proof. intros Hnl. unfold getline. cbn. by rewrite read_line_end. Qed.

Lemma getline_after_end s cin :
  eofbit cin = true →
  getline s cin = (s, {| buffer := buffer cin; eofbit := true; failbit := true |}).
Proof. intros Heof. unfold getline. by rewrite Heof. Qed.

Lemma lines_text_cons line lines rest :
  lines_text (line :: lines) ++ rest
  = line ++ newline :: (lines_text lines ++ rest).
Proof. unfold lines_text. cbn. by rewrite <- !app_assoc. Qed.

Lemma lines_text_app l1 l2 : lines_text (l1 ++ l2) = lines_text l1 ++ lines_text l2.
Proof. unfold lines_text. by rewrite fmap_app, join_app. Qed.

Lemma answers_newline answer : answer ∈ answers → newline ∉ answer.
Proof.
  unfold answers. rewrite !elem_of_cons, elem_of_nil.
  intros [->|[->|[->|[->|[]]]]]; by apply (bool_decide_unpack _).
Qed.

Lemma verbose_body_invalid verbose_input verbose cin cout line cin' :
  getline verbose_input cin = (line, cin') → line ∉ answers →
  verbose_body (verbose_input, verbose, cin, cout)
  = Done (Next (line, verbose, cin', cout ++ [PromptVerbose; InvalidInput])).
Proof.
  intros Hget Hline. unfold verbose_body. rewrite Hget.
  unfold answers in Hline. rewrite !not_elem_of_cons in Hline.
  destruct Hline as (Hy & HY & Hn & HN & _).
  rewrite !bool_decide_eq_false_2 by done. cbn [orb].
  by rewrite <- app_assoc.
Qed.

Lemma verbose_body_answer verbose_input verbose cin cout answer cin' :
  getline verbose_input cin = (answer, cin') → answer ∈ answers →
  verbose_body (verbose_input, verbose, cin, cout)
  = Done (Break (answer, bool_decide (answer ∈ [str "y"; str "Y"]), cin',
                 cout ++ [PromptVerbose])).
Proof.
  intros Hget Hanswer. unfold verbose_body. rewrite Hget.
  unfold answers in Hanswer. rewrite !elem_of_cons, elem_of_nil in Hanswer.
  by destruct Hanswer as [->|[->|[->|[->|[]]]]].
Qed.

Lemma verbose_loop_junk fuel junk rest verbose_input verbose cout :
  Forall (λ line, (newline ∉ line) ∧ (line ∉ answers)) junk →
  while_loop (length junk + fuel) (λ _, true) verbose_body
    (verbose_input, verbose, stream_of (lines_text junk ++ rest), cout)
  = while_loop fuel (λ _, true) verbose_body
      (default verbose_input (last junk), verbose, stream_of rest,
       cout ++ mjoin ((λ _, [PromptVerbose; InvalidInput]) <$> junk)).
Proof.
  intros Hjunk. revert verbose_input cout.
  induction Hjunk as [|line junk [Hnl Hline] _ IH]; intros verbose_input cout.
  - cbn. by rewrite app_nil_r.
  - rewrite lines_text_cons. cbn [length Nat.add while_loop].
    rewrite (verbose_body_invalid _ _ _ _ line
               (stream_of (lines_text junk ++ rest)));
      [|by apply getline_line|done].
    rewrite IH. cbn [fmap list_fmap mjoin list_join].
    rewrite <- app_assoc. do 2 f_equal.
    rewrite last_cons. by destruct (last junk).
Qed.

Lemma verbose_loop_eof fuel verbose_input verbose cin cout :
  eofbit cin = true → verbose_input ∉ answers →
  while_loop fuel (λ _, true) verbose_body (verbose_input, verbose, cin, cout)
  = Fault OutOfFuel.
Proof.
  intros Heof Hline. revert cin cout Heof.
  induction fuel as [|fuel IH]; intros cin cout Heof; [done|].
  cbn [while_loop].
  rewrite (verbose_body_invalid _ _ _ _ verbose_input
             {| buffer := buffer cin; eofbit := true; failbit := true |});
    [|by apply getline_after_end|done].
  by apply IH.
Qed.

Lemma verbose_loop_no_answer fuel junk partial verbose_input verbose cout :
  Forall (λ line, (newline ∉ line) ∧ (line ∉ answers)) junk →
  newline ∉ partial → partial ∉ answers →
  while_loop fuel (λ _, true) verbose_body
    (verbose_input, verbose, stream_of (lines_text junk ++ partial), cout)
  = Fault OutOfFuel.
Proof.
  intros Hjunk Hnl Hpartial. revert junk Hjunk verbose_input cout.
  induction fuel as [|fuel IH]; intros junk Hjunk verbose_input cout; [done|].
  cbn [while_loop]. destruct Hjunk as [|line junk [Hnl' Hline] Hjunk].
  - cbn [lines_text fmap list_fmap mjoin list_join app].
    erewrite verbose_body_invalid; [|by apply getline_end|done].
    by apply verbose_loop_eof.
  - rewrite lines_text_cons.
    erewrite verbose_body_invalid; [|by apply getline_line|done].
    by apply IH.
Qed.

Lemma prompt_body_text `{UnorderedIteration} input t cin cout text cin' ids :
  getline input cin = (text, cin') → text ≠ str "q" →
  encode text t = Done (ids, t) → decode ids t = Done (text, t) →
  prompt_body (input, t, cin, cout)
  = Done (Next (text, t, cin', cout ++ echo text ids)).
Proof.
  intros Hget Hq Henc Hdec. unfold prompt_body. rewrite Hget.
  rewrite bool_decide_eq_false_2 by done.
  rewrite Henc. cbn. rewrite Hdec. cbn. unfold echo. by rewrite <- !app_assoc.
Qed.

Lemma prompt_body_quit `{UnorderedIteration} input t cin cout cin' :
  getline input cin = (str "q", cin') →
  prompt_body (input, t, cin, cout)
  = Done (Break (str "q", t, cin', cout ++ [PromptText])).
Proof. intros Hget. unfold prompt_body. by rewrite Hget. Qed.

Lemma prompt_body_empty `{UnorderedIteration} input t cin cout cin' :
  wf t → literal_tokens t → getline input cin = ([], cin') →
  prompt_body (input, t, cin, cout) = Fault OutOfBounds.
Proof.
  intros Hwf Hlit Hget. unfold prompt_body. rewrite Hget.
  rewrite bool_decide_eq_false_2 by done.
  by rewrite encode_empty_fault.
Qed.

Section prompt_loop.
Context `{UnorderedIteration} (t : BPETokenizer) (id : Z).
Hypothesis (Hwf : wf t).
Hypothesis (Hspecial : special_to_id t = {[ str "<|endoftext|>" := id ]}).

Lemma endoftext_literal : literal_tokens t.
Proof.
  intros token. rewrite Hspecial. intros [? [<- _]%lookup_singleton_Some].
  split; [done|]. by apply (bool_decide_unpack _).
Qed.

Lemma plain_line_echo text :
  plain_line text →
  ∃ ids, encode text t = Done (ids, t) ∧ decode ids t = Done (text, t).
Proof.
  intros (_ & Hne & _ & Hplain).
  apply encode_decode_plain; [done|apply endoftext_literal|done|].
  intros token pre post. rewrite Hspecial.
  intros [? [<- _]%lookup_singleton_Some]. apply Hplain.
Qed.

Lemma prompt_loop_empty fuel input cin cout cin' :
  getline input cin = ([], cin') →
  while_loop (S fuel) (λ _, true) prompt_body (input, t, cin, cout)
  = Fault OutOfBounds.
Proof.
  intros Hget. cbn [while_loop].
  by rewrite (prompt_body_empty _ _ _ _ cin' Hwf endoftext_literal Hget).
Qed.

Lemma plain_lines_echo texts :
  Forall plain_line texts →
  ∃ idss, Forall2 (λ text ids, encode text t = Done (ids, t) ∧
                               decode ids t = Done (text, t)) texts idss.
Proof.
  induction 1 as [|text texts Htext _ [idss IH]]; [by exists []|].
  destruct (plain_line_echo text Htext) as (ids & Henc & Hdec).
  exists (ids :: idss). by constructor.
Qed.

Lemma prompt_loop_texts fuel texts idss rest input cout :
  Forall plain_line texts →
  Forall2 (λ text ids, encode text t = Done (ids, t) ∧
                       decode ids t = Done (text, t)) texts idss →
  while_loop (length texts + fuel) (λ _, true) prompt_body
    (input, t, stream_of (lines_text texts ++ rest), cout)
  = while_loop fuel (λ _, true) prompt_body
      (default input (last texts), t, stream_of rest,
       cout ++ mjoin (zip_with echo texts idss)).
Proof.
  intros Htexts Hall. revert input cout Htexts.
  induction Hall as [|text ids texts idss [Henc Hdec] _ IH];
    intros input cout Htexts.
  - cbn. by rewrite app_nil_r.
  - apply Forall_cons in Htexts as [Htext Htexts].
    rewrite lines_text_cons. cbn [length Nat.add while_loop].
    rewrite (prompt_body_text _ _ _ _ text
               (stream_of (lines_text texts ++ rest)) ids);
      [|apply getline_line, Htext|apply Htext|done..].
    rewrite IH by done. cbn [zip_with mjoin list_join].
    rewrite <- app_assoc. do 2 f_equal.
    rewrite last_cons. by destruct (last texts).
Qed.

Lemma prompt_loop_eof fuel input cin cout :
  eofbit cin = true → plain_line input →
  while_loop fuel (λ _, true) prompt_body (input, t, cin, cout)
  = Fault OutOfFuel.
Proof.
  intros Heof Hline. revert cin cout Heof.
  destruct (plain_line_echo input Hline) as (ids & Henc & Hdec).
  induction fuel as [|fuel IH]; intros cin cout Heof; [done|].
  cbn [while_loop].
  rewrite (prompt_body_text _ _ _ _ input
             {| buffer := buffer cin; eofbit := true; failbit := true |} ids);
    [|by apply getline_after_end|apply Hline|done..].
  by apply IH.
Qed.

Lemma prompt_loop_unterminated fuel texts last_line input cout :
  Forall plain_line texts → plain_line last_line →
  while_loop fuel (λ _, true) prompt_body
    (input, t, stream_of (lines_text texts ++ last_line), cout)
  = Fault OutOfFuel.
Proof.
  intros Htexts Hlast. revert texts Htexts input cout.
  induction fuel as [|fuel IH]; intros texts Htexts input cout; [done|].
  cbn [while_loop]. destruct Htexts as [|text texts Htext Htexts].
  - cbn [lines_text fmap list_fmap mjoin list_join app].
    destruct (plain_line_echo _ Hlast) as (ids & Henc & Hdec).
    erewrite prompt_body_text;
      [|apply getline_end, Hlast|apply Hlast|done..].
    by apply prompt_loop_eof.
  - rewrite lines_text_cons.
    destruct (plain_line_echo _ Htext) as (ids & Henc & Hdec).
    erewrite prompt_body_text;
      [|apply getline_line, Htext|apply Htext|done..].
    by apply IH.
Qed.

End prompt_loop.

Lemma verbose_loop_short fuel junk rest verbose_input verbose cout :
  Forall (λ line, (newline ∉ line) ∧ (line ∉ answers)) junk →
  (fuel ≤ length junk)%nat →
  while_loop fuel (λ _, true) verbose_body
    (verbose_input, verbose, stream_of (lines_text junk ++ rest), cout)
  = Fault OutOfFuel.
Proof.
  intros Hjunk. revert fuel verbose_input cout.
  induction Hjunk as [|line junk [Hnl Hline] _ IH];
    intros [|fuel] verbose_input cout Hfuel; cbn in Hfuel; [done|lia|done|].
  rewrite lines_text_cons. cbn [while_loop].
  erewrite verbose_body_invalid; [|by apply getline_line|done].
  apply IH. lia.
Qed.

Lemma verbose_loop_answer fuel answer cin cin' verbose_input verbose cout :
  getline verbose_input cin = (answer, cin') → answer ∈ answers →
  while_loop (S fuel) (λ _, true) verbose_body
    (verbose_input, verbose, cin, cout)
  = Done (answer, bool_decide (answer ∈ [str "y"; str "Y"]), cin',
          cout ++ [PromptVerbose]).
Proof.
  intros Hget Hanswer. cbn [while_loop].
  by rewrite (verbose_body_answer _ _ _ _ answer cin').
Qed.

Lemma main_unfold `{UnorderedIteration} fuel corpus stdin :
  corpus ≠ [] →
  main fuel (Some corpus) stdin
  = '(_, verbose, cin, cout) ←
      while_loop fuel (λ _, true) verbose_body
        ([], false, stream_of stdin,
         [OpeningFile; FileOpened; CorpusSize (size corpus)]);
    '(log, t) ← train corpus false (reset MAX_VOCAB_SIZE);
    '(_, t') ← register_special_token (str "<|endoftext|>") t;
    '(_, _, _, cout) ←
      while_loop fuel (λ _, true) prompt_body
        ([], t', cin,
         let cout :=
           cout ++ (if verbose : bool then Merged <$> log else [])
                ++ [TrainingComplete (Z.of_nat (base.size (pairs t)))
                                     (vocab_size t)] in
         if bool_decide (is_Some (special_to_id t !! str "<|endoftext|>"))
         then cout
         else cout ++ [AddedSpecial (str "<|endoftext|>") (next_id t)]);
    Done (0, cout).
Proof.
  intros Hne. unfold main. rewrite bool_decide_eq_false_2 by done.
  change (construct MAX_VOCAB_SIZE) with (Done (reset MAX_VOCAB_SIZE)).
  cbv beta iota zeta.
  destruct (while_loop _ _ _ _) as [[[[? verbose] cin] cout]|]; [|done].
  cbn [mbind result_bind].
  destruct (train _ _ _) as [[log t]|]; [|done].
  done.
Qed.

Lemma trained `{UnorderedIteration} corpus :
  corpus ≠ [] → size corpus ≤ INT_MAX →
  ∃ log t t',
    train corpus false (reset MAX_VOCAB_SIZE) = Done (log, t) ∧
    register_special_token (str "<|endoftext|>") t = Done (tt, t') ∧
    special_to_id t = ∅ ∧ wf t' ∧
    special_to_id t' = {[ str "<|endoftext|>" := next_id t ]}.
Proof.
  intros Hne Hlen.
  destruct (train_total corpus false (reset MAX_VOCAB_SIZE))
    as (log & t & Hrun); [done..|].
  pose proof (wf_train _ _ _ _ _ (wf_reset _) Hrun) as Hwf.
  apply train_frame in Hrun as Hframe.
  destruct Hframe as (Hsp & _ & _ & Hnext & _).
  change (special_to_id (reset MAX_VOCAB_SIZE)) with (∅ : gmap std_string Z)
    in Hsp.
  change (Z.max _ _) with 1000 in Hnext.
  assert (register_special_token (str "<|endoftext|>") t
          = Done (tt, set_next_id (next_id t + 1)
                        (set_id_to_special <[next_id t := str "<|endoftext|>"]>
                           (set_special_to_id
                              <[str "<|endoftext|>" := next_id t]> t))))
    as Hreg.
  { apply register_fresh; [by rewrite Hsp|]. unfold INT_MAX. lia. }
  eexists log, t, _. split; [done|]. split; [exact Hreg|]. split; [done|].
  split; [by eapply wf_register|]. cbn. by rewrite Hsp.
Qed.

Lemma main_prompt `{UnorderedIteration} fuel corpus junk answer tail cin
    log t t' :
  corpus ≠ [] →
  Forall (λ line, (newline ∉ line) ∧ (line ∉ answers)) junk →
  answer ∈ answers → (length junk < fuel)%nat →
  getline (default [] (last junk)) (stream_of tail) = (answer, cin) →
  train corpus false (reset MAX_VOCAB_SIZE) = Done (log, t) →
  special_to_id t = ∅ →
  register_special_token (str "<|endoftext|>") t = Done (tt, t') →
  main fuel (Some corpus) (lines_text junk ++ tail)
  = '(_, _, _, cout) ←
      while_loop fuel (λ _, true) prompt_body
        ([], t', cin,
         preamble corpus junk (bool_decide (answer ∈ [str "y"; str "Y"]))
           log t);
    Done (0, cout).
Proof.
  intros Hne Hjunk Hanswer Hfuel Hget Hrun Hsp Hreg.
  rewrite main_unfold by done.
  replace fuel with (length junk + S (fuel - S (length junk)))%nat at 1 by lia.
  rewrite verbose_loop_junk by done.
  rewrite (verbose_loop_answer _ answer _ cin) by done.
  cbn [mbind result_bind]. rewrite Hrun. cbn [mbind result_bind].
  rewrite Hreg. cbn [mbind result_bind].
  rewrite Hsp, lookup_empty, bool_decide_eq_false_2 by apply is_Some_None.
  unfold preamble, vocab_size. by rewrite <- !app_assoc.
Qed.

Lemma plain_line_short text :
  newline ∉ text → text ≠ [] → text ≠ str "q" → (length text < 13)%nat →
  plain_line text.
Proof.
  intros Hnl Hne Hq Hlen. repeat split; [done..|].
  intros pre post ->. rewrite !length_app in Hlen. cbn in Hlen. lia.
Qed.

(** X17: a session of [main].  With a corpus that is not empty, standard
    input made of lines that are no answer, then [y], [Y], [n] or [N], then
    lines of text (not empty, not [q], without the special token), then the
    line [q], [main] returns 0 whatever follows on standard input.  It
    prints the invalid-input message once for every line before the
    answer, the log of [train] if the answer was [y] or [Y], the special
    token with the ID [vocab_size] had after training, and for every line
    of text its IDs and then the line itself again. *)
Theorem main_session `{UnorderedIteration} fuel corpus junk answer texts rest :
  corpus ≠ [] → size corpus ≤ INT_MAX →
  Forall (λ line, (newline ∉ line) ∧ (line ∉ answers)) junk →
  answer ∈ answers → Forall plain_line texts →
  (length junk < fuel)%nat → (length texts < fuel)%nat →
  ∃ log t t' idss,
    train corpus false (reset MAX_VOCAB_SIZE) = Done (log, t) ∧
    register_special_token (str "<|endoftext|>") t = Done (tt, t') ∧
    Forall2 (λ text ids, encode text t' = Done (ids, t') ∧
                         decode ids t' = Done (text, t')) texts idss ∧
    main fuel (Some corpus)
      (lines_text (junk ++ answer :: texts ++ [str "q"]) ++ rest)
    = Done (0, transcript corpus junk (bool_decide (answer ∈ [str "y"; str "Y"]))
                 log t texts idss).
Proof.
  intros Hne Hlen Hjunk Hanswer Htexts Hfj Hft.
  destruct (trained corpus Hne Hlen)
    as (log & t & t' & Hrun & Hreg & Hsp & Hwf & Hsp').
  destruct (plain_lines_echo t' (next_id t) Hwf Hsp' texts Htexts)
    as [idss Hall].
  exists log, t, t', idss. do 3 (split; [done|]).
  rewrite lines_text_app, <- app_assoc, lines_text_cons.
  rewrite (main_prompt fuel corpus junk answer _
             (stream_of (lines_text (texts ++ [str "q"]) ++ rest)) log t t');
    [|done|done|done|done|apply getline_line; by apply answers_newline|done..].
  replace fuel with (length texts + S (fuel - S (length texts)))%nat at 1 by lia.
  rewrite lines_text_app, <- app_assoc.
  rewrite (prompt_loop_texts t' _ texts idss) by done.
  cbn [while_loop]. rewrite (prompt_body_quit _ _ _ _ (stream_of rest)).
  - cbn [mbind result_bind]. unfold transcript. by rewrite <- !app_assoc.
  - apply (getline_line _ (str "q")). by apply (bool_decide_unpack _).
Qed.

Lemma main_session_witness :
  ∃ log t t' idss,
    @train listing_order (str "aaab") false (reset MAX_VOCAB_SIZE)
    = Done (log, t) ∧
    register_special_token (str "<|endoftext|>") t = Done (tt, t') ∧
    Forall2 (λ text ids, @encode listing_order text t' = Done (ids, t') ∧
                         decode ids t' = Done (text, t')) [str "ab"] idss ∧
    @main listing_order 2 (Some (str "aaab"))
      (lines_text ([str "x"] ++ str "n" :: [str "ab"] ++ [str "q"])
       ++ str "unread")
    = Done (0, transcript (str "aaab") [str "x"]
                 (bool_decide (str "n" ∈ [str "y"; str "Y"])) log t
                 [str "ab"] idss).
Proof.
  apply (@main_session listing_order 2 (str "aaab") [str "x"] (str "n")
           [str "ab"] (str "unread")).
  - done.
  - by vm_compute.
  - apply Forall_cons_2; [|apply Forall_nil_2].
    split; by apply (bool_decide_unpack _).
  - by apply (bool_decide_unpack _).
  - apply Forall_cons_2; [|apply Forall_nil_2].
    apply plain_line_short; [by apply (bool_decide_unpack _)|done|done|cbn; lia].
  - cbn; lia.
  - cbn; lia.
Defined.

(** X18: standard input that ends without the line [q].  If the input
    ends after the newline of the last line of text or of the answer, or
    after an answer without a newline, the second loop of [main] calls
    [encode] with the empty string, which reads the first element of an
    empty vector. *)
Theorem main_input_ends `{UnorderedIteration} fuel corpus junk answer texts :
  corpus ≠ [] → size corpus ≤ INT_MAX →
  Forall (λ line, (newline ∉ line) ∧ (line ∉ answers)) junk →
  answer ∈ answers → Forall plain_line texts →
  (length junk < fuel)%nat → (length texts < fuel)%nat →
  main fuel (Some corpus) (lines_text (junk ++ answer :: texts))
  = Fault OutOfBounds ∧
  main fuel (Some corpus) (lines_text junk ++ answer) = Fault OutOfBounds.
Proof.
  intros Hne Hlen Hjunk Hanswer Htexts Hfj Hft.
  destruct (trained corpus Hne Hlen)
    as (log & t & t' & Hrun & Hreg & Hsp & Hwf & Hsp').
  pose proof (answers_newline answer Hanswer) as Hnl.
  split.
  - destruct (plain_lines_echo t' (next_id t) Hwf Hsp' texts Htexts)
      as [idss Hall].
    rewrite lines_text_app, <- (app_nil_r (lines_text (answer :: texts))).
    rewrite lines_text_cons.
    rewrite (main_prompt fuel corpus junk answer _
               (stream_of (lines_text texts ++ [])) log t t');
      [|done|done|done|done|by apply getline_line|done..].
    replace fuel with (length texts + S (fuel - S (length texts)))%nat
      at 1 by lia.
    rewrite (prompt_loop_texts t' _ texts idss) by done.
    by rewrite (prompt_loop_empty t' (next_id t) Hwf Hsp' _ _ _ _
                  {| buffer := []; eofbit := true; failbit := true |}).
  - rewrite (main_prompt fuel corpus junk answer _
               {| buffer := []; eofbit := true;
                  failbit := bool_decide (answer = []) |} log t t');
      [|done|done|done|done|by apply getline_end|done..].
    destruct fuel as [|fuel]; [lia|].
    by rewrite (prompt_loop_empty t' (next_id t) Hwf Hsp' _ _ _ _
                  {| buffer := []; eofbit := true; failbit := true |}).
Qed.

Lemma main_input_ends_witness :
  @main listing_order 2 (Some (str "aaab"))
    (lines_text ([str "x"] ++ str "n" :: [str "ab"])) = Fault OutOfBounds ∧
  @main listing_order 2 (Some (str "aaab")) (lines_text [str "x"] ++ str "n")
  = Fault OutOfBounds.
Proof.
  apply (@main_input_ends listing_order 2 (str "aaab") [str "x"] (str "n")
           [str "ab"]).
  - done.
  - by vm_compute.
  - apply Forall_cons_2; [|apply Forall_nil_2].
    split; by apply (bool_decide_unpack _).
  - by apply (bool_decide_unpack _).
  - apply Forall_cons_2; [|apply Forall_nil_2].
    apply plain_line_short; [by apply (bool_decide_unpack _)|done|done|cbn; lia].
  - cbn; lia.
  - cbn; lia.
Defined.

(** X19: standard input that ends before an answer.  Once the input is
    used up [std::getline] leaves [verbose_input] as it is, [main] does not
    look at the state of the stream, and the first loop runs for ever:
    whatever the bound on the iterations, it is reached. *)
Theorem main_without_answer `{UnorderedIteration} fuel corpus junk partial :
  corpus ≠ [] →
  Forall (λ line, (newline ∉ line) ∧ (line ∉ answers)) junk →
  newline ∉ partial → partial ∉ answers →
  main fuel (Some corpus) (lines_text junk ++ partial) = Fault OutOfFuel.
Proof.
  intros Hne Hjunk Hnl Hpartial. rewrite main_unfold by done.
  by rewrite verbose_loop_no_answer.
Qed.

Lemma main_without_answer_witness :
  @main listing_order 5 (Some (str "aaab")) (lines_text [str "x"] ++ str "maybe")
  = Fault OutOfFuel.
Proof.
  apply (@main_without_answer listing_order 5 (str "aaab") [str "x"]
           (str "maybe")).
  - done.
  - apply Forall_cons_2; [|apply Forall_nil_2].
    split; by apply (bool_decide_unpack _).
  - by apply (bool_decide_unpack _).
  - by apply (bool_decide_unpack _).
Defined.

(** X20: standard input that ends in a line of text without a newline.
    [std::getline] sets [eofbit] when it reads that line and afterwards
    leaves [input] as it is, so the second loop of [main] encodes and
    prints the last line for ever: whatever the bound on the iterations,
    it is reached. *)
Theorem main_unterminated_line `{UnorderedIteration} fuel corpus junk answer
    texts last_line :
  corpus ≠ [] → size corpus ≤ INT_MAX →
  Forall (λ line, (newline ∉ line) ∧ (line ∉ answers)) junk →
  answer ∈ answers → Forall plain_line texts → plain_line last_line →
  main fuel (Some corpus) (lines_text (junk ++ answer :: texts) ++ last_line)
  = Fault OutOfFuel.
Proof.
  intros Hne Hlen Hjunk Hanswer Htexts Hlast.
  rewrite lines_text_app, <- app_assoc.
  destruct (Nat.le_gt_cases fuel (length junk)) as [Hfuel|Hfuel].
  { rewrite main_unfold by done. by rewrite verbose_loop_short. }
  destruct (trained corpus Hne Hlen)
    as (log & t & t' & Hrun & Hreg & Hsp & Hwf & Hsp').
  rewrite lines_text_cons.
  rewrite (main_prompt fuel corpus junk answer _
             (stream_of (lines_text texts ++ last_line)) log t t');
    [|done|done|done|done|apply getline_line; by apply answers_newline|done..].
  by rewrite (prompt_loop_unterminated t' (next_id t) Hwf Hsp').
Qed.

Lemma main_unterminated_line_witness :
  @main listing_order 3 (Some (str "aaab"))
    (lines_text ([str "?"] ++ str "y" :: [str "aa"]) ++ str "ab")
  = Fault OutOfFuel.
Proof.
  apply (@main_unterminated_line listing_order 3 (str "aaab") [str "?"]
           (str "y") [str "aa"] (str "ab")).
  - done.
  - by vm_compute.
  - apply Forall_cons_2; [|apply Forall_nil_2].
    split; by apply (bool_decide_unpack _).
  - by apply (bool_decide_unpack _).
  - apply Forall_cons_2; [|apply Forall_nil_2].
    apply plain_line_short; [by apply (bool_decide_unpack _)|done|done|cbn; lia].
  - apply plain_line_short; [by apply (bool_decide_unpack _)|done|done|cbn; lia].
Defined.

(** X21: the exit code of [main].  When [main] returns 1, [data.txt]
    could not be opened or is empty, and [main] has not read standard
    input; otherwise it returns 0 and the corpus is not empty, so [main]
    never calls [train] with an empty corpus. *)
Theorem main_exit_code `{UnorderedIteration} fuel file stdin code out :
  main fuel file stdin = Done (code, out) →
  (code = 1 ∧ (file = None ∨ file = Some []) ∧
   ∀ fuel' stdin', main fuel' file stdin' = Done (code, out)) ∨
  (code = 0 ∧ ∃ corpus, file = Some corpus ∧ corpus ≠ []).
Proof.
  destruct file as [corpus|]; [|intros [= <- <-]; left; auto].
  destruct (decide (corpus = [])) as [->|Hne]; [intros [= <- <-]; left; auto|].
  rewrite main_unfold by done. intros Hrun. right. split; [|by exists corpus].
  destruct (while_loop _ _ _ _) as [[[[? verbose] cin] cout]|]; [|done].
  cbn [mbind result_bind] in Hrun.
  destruct (train _ _ _) as [[log t]|]; [|done].
  cbn [mbind result_bind] in Hrun.
  destruct (register_special_token _ _) as [[[] t']|]; [|done].
  cbn [mbind result_bind] in Hrun.
  destruct (while_loop _ _ _ _) as [[[[? ?] ?] cout']|]; [|done].
  cbn [mbind result_bind] in Hrun. by simplify_eq.
Qed.

Lemma main_exit_code_witness :
  (1 = 1 ∧ (@None std_string = None ∨ @None std_string = Some []) ∧
   ∀ fuel' stdin',
     @main listing_order fuel' None stdin'
     = Done (1, [OpeningFile; ErrorOpening])) ∨
  (1 = 0 ∧ ∃ corpus : std_string, None = Some corpus ∧ corpus ≠ []).
Proof.
  apply (@main_exit_code listing_order 0 None (str "y")). reflexivity.
Defined.

(** ** The pattern of encode *)

(** X22: the pattern that [encode] builds from special tokens that are
    not empty and contain no backslash is read back as the alternation of
    exactly these tokens, in the order of the iteration: every character
    of the regex syntax in a token is escaped. *)
Theorem build_pattern_compiles tokens :
  tokens ≠ [] → Forall literal tokens →
  regex_compile (build_pattern tokens) = Done tokens.
Proof.
  intros Hne Hlit. destruct tokens as [|token tokens]; [done|].
  by apply regex_compile_literals.
Qed.

Lemma build_pattern_compiles_witness :
  regex_compile (build_pattern [str "<|endoftext|>"; str "a.b"; str "(c)*"])
  = Done [str "<|endoftext|>"; str "a.b"; str "(c)*"].
Proof.
  apply build_pattern_compiles; [done|].
  repeat apply Forall_cons_2; [| | |apply Forall_nil_2];
    (split; [done|by apply (bool_decide_unpack _)]).
Defined.
